(** * kCache: a shallow embedding of the cache engine and its proofs

    The development follows the package layout of the Go sources:

    - [byteview]        the immutable byte blob stored in the cache
                        ([byteview.go]);
    - [lru]             the byte-bounded LRU engine ([lru/lru.go]);
    - [consistenthash]  the ring of virtual nodes (package [consistenthash],
                        second part of [cache.go]);
    - [singleflight]    the per-key request coalescer
                        ([singleflight/singleflight.go]), as an interleaving
                        transition system;
    - [httppool]        the peer pool that implements [PickPeer] (the
                        [HTTPPool] with [Set] and [PickPeer]);
    - [kcache]          the sharded cache wrapper (first part of [cache.go])
                        and the group load path ([Group], second part of
                        [http.go]).

    Go's [int64] arithmetic is written with its wrap-around ([int64] below);
    strings are byte strings, so [String.length] is Go's [len]. *)

From Stdlib Require Import ZArith Lia.
From Stdlib Require Import DecimalString Strings.Ascii Strings.Byte.
From stdpp Require Import gmap strings list sorting.

Local Open Scope Z_scope.

(** ** Machine integers *)

(** Conversion to (and arithmetic in) Go's [int64]: two's complement
    wrap-around on 64 bits. *)
Definition int64 (z : Z) : Z := (z + 2 ^ 63) `mod` 2 ^ 64 - 2 ^ 63.

Definition max_int64 : Z := 2 ^ 63 - 1.

(** Conversion to Go's [uint32]. *)
Definition uint32 (z : Z) : Z := z `mod` 2 ^ 32.

(** ** ByteView ([byteview.go]) *)

Module byteview.

(** [copy(dst, src)]: overwrites the first [min(len dst, len src)] cells
    of [dst]. *)
Definition copy (dst src : list byte) : list byte :=
  take (length dst) src ++ drop (length src) dst.

(** [cloneBytes]: [make([]byte, len(b))] followed by [copy]. *)
Definition cloneBytes (b : list byte) : list byte :=
  copy (replicate (length b) Byte.x00) b.

Record ByteView := mkByteView { b : list byte }.

Definition Len (v : ByteView) : Z := Z.of_nat (length (b v)).
Definition ByteSlice (v : ByteView) : list byte := cloneBytes (b v).

End byteview.

(** ** The LRU engine ([lru/lru.go]) *)

Module lru.

(** The [Value] interface: anything that can report its size in bytes.
    A byte count is never negative; the law records that contract. *)
Class Value (V : Type) := {
  Len : V → Z;
  Len_nonneg : ∀ v, 0 ≤ Len v
}.

#[global] Instance ByteView_Value : Value byteview.ByteView :=
  {| Len := byteview.Len;
     Len_nonneg := λ v, Nat2Z.is_nonneg (length (byteview.b v)) |}.

Section engine.
Context {V : Type} `{!Value V}.

(** [entry], together with the address of the [list.Element] that
    holds it: the index maps keys to element pointers, so the
    identity of an element is part of the state. *)
Record Element := mkElement {
  addr : nat;
  key : string;
  value : V
}.

Record Cache := mkCache {
  maxBytes : Z;
  nbytes : Z;
  ll : list Element;            (* front of the list first *)
  cache : gmap string nat;      (* key -> address of its element *)
  OnEvicted : bool;             (* is a callback registered? *)
  fresh : nat;                  (* next unused element address *)
  evictions : list (string * V) (* calls made to the callback *)
}.

Definition New (maxBytes : Z) (onEvicted : bool) : Cache :=
  {| maxBytes := maxBytes; nbytes := 0; ll := []; cache := ∅;
     OnEvicted := onEvicted; fresh := 0%nat; evictions := [] |}.

(** *** container/list, restricted to what the engine uses *)

(** The element behind a pointer. A pointer held by the index always
    designates a linked element (see [wf]); the [None] case only
    makes the function total. *)
Fixpoint deref (p : nat) (l : list Element) : option Element :=
  match l with
  | [] => None
  | e :: l' => if decide (addr e = p) then Some e else deref p l'
  end.

(** [l.Remove(e)] unlinks the element at address [p]. *)
Fixpoint Remove (p : nat) (l : list Element) : list Element :=
  match l with
  | [] => []
  | e :: l' => if decide (addr e = p) then l' else e :: Remove p l'
  end.

(** [l.MoveToFront(e)]; an element that is not linked in [l] leaves
    the list as it is. *)
Definition MoveToFront (p : nat) (l : list Element) : list Element :=
  match deref p l with
  | Some e => e :: Remove p l
  | None => l
  end.

Definition PushFront (p : nat) (k : string) (v : V)
    (l : list Element) : list Element :=
  mkElement p k v :: l.

Definition Back (l : list Element) : option Element := last l.

(** [kv.value = value] through the element pointer. *)
Definition set_value (p : nat) (v : V) (l : list Element) : list Element :=
  (λ e, if decide (addr e = p) then mkElement (addr e) (key e) v else e) <$> l.

Definition len (s : string) : Z := Z.of_nat (String.length s).

(** *** The operations *)

Definition Get (c : Cache) (k : string) : option V * Cache :=
  match cache c !! k with
  | Some p =>
      match deref p (ll c) with
      | Some e =>
          (Some (value e),
           mkCache (maxBytes c) (nbytes c) (MoveToFront p (ll c))
                   (cache c) (OnEvicted c) (fresh c) (evictions c))
      | None => (None, c)
      end
  | None => (None, c)
  end.

Definition removeOldest (c : Cache) : Cache :=
  match Back (ll c) with
  | Some e =>
      mkCache (maxBytes c)
              (int64 (nbytes c - int64 (int64 (len (key e)) + int64 (Len (value e)))))
              (Remove (addr e) (ll c))
              (delete (key e) (cache c))
              (OnEvicted c) (fresh c)
              (if OnEvicted c then evictions c ++ [(key e, value e)]
               else evictions c)
  | None => c
  end.

Definition RemoveOldest (c : Cache) : Cache := removeOldest c.

(** The loop [for c.maxBytes != 0 && c.nbytes > c.maxBytes]. [None]
    means the fuel ran out; [evict_diverges] shows that with fuel
    above the list length this is a loop that never ends. *)
Fixpoint evict (fuel : nat) (c : Cache) : option Cache :=
  if bool_decide (maxBytes c ≠ 0 ∧ nbytes c > maxBytes c) then
    match fuel with
    | O => None
    | S fuel' => evict fuel' (removeOldest c)
    end
  else Some c.

(** The two branches of [Add], before the eviction loop. *)
Definition insert (c : Cache) (k : string) (v : V) : Cache :=
  match cache c !! k with
  | Some p =>
      match deref p (ll c) with
      | Some e =>
          mkCache (maxBytes c)
                  (int64 (nbytes c + int64 (int64 (Len v) - int64 (Len (value e)))))
                  (set_value p v (MoveToFront p (ll c)))
                  (cache c) (OnEvicted c) (fresh c) (evictions c)
      | None => c
      end
  | None =>
      mkCache (maxBytes c)
              (int64 (nbytes c + int64 (int64 (len k) + int64 (Len v))))
              (PushFront (fresh c) k v (ll c))
              (<[k := fresh c]> (cache c))
              (OnEvicted c) (S (fresh c)) (evictions c)
  end.

Definition Add (c : Cache) (k : string) (v : V) : option Cache :=
  let c' := insert c k v in
  evict (S (length (ll c'))) c'.

Definition Cache_Len (c : Cache) : Z := Z.of_nat (length (ll c)).

(** [for c.ll.Len() > 0 { c.removeOldest() }] *)
Fixpoint clear (fuel : nat) (c : Cache) : option Cache :=
  match ll c with
  | [] => Some c
  | _ :: _ =>
      match fuel with
      | O => None
      | S fuel' => clear fuel' (removeOldest c)
      end
  end.

Definition Clear (c : Cache) : option Cache := clear (length (ll c)) c.

(** *** Vocabulary of the specification *)

Definition size (e : Element) : Z := len (key e) + Len (value e).

(** Bytes held by the linked entries, as a mathematical integer. *)
Definition live_bytes (l : list Element) : Z :=
  foldr (λ e acc, size e + acc) 0 l.

(** Representation invariant of the engine: element addresses and
    keys are unique, the index and the list describe the same
    entries, the allocator is ahead of every address, and the byte
    counter is the sum of the entry sizes (which fits an [int64]). *)
Record wf (c : Cache) : Prop := mkWf {
  wf_addrs : NoDup (addr <$> ll c);
  wf_keys : NoDup (key <$> ll c);
  wf_index : ∀ k p,
    cache c !! k = Some p ↔ ∃ e, e ∈ ll c ∧ addr e = p ∧ key e = k;
  wf_fresh : ∀ e, e ∈ ll c → (addr e < fresh c)%nat;
  wf_nbytes : nbytes c = live_bytes (ll c);
  wf_range : live_bytes (ll c) ≤ max_int64
}.

(** The byte budget: a positive [maxBytes] bounds the counter. *)
Definition within_budget (c : Cache) : Prop :=
  0 < maxBytes c → nbytes c ≤ maxBytes c.

(** Operations of a client, and the run of a sequence of them. [None]
    is an operation that does not return. *)
Inductive Op :=
| OpAdd (k : string) (v : V)
| OpGet (k : string)
| OpRemoveOldest
| OpClear.

Definition step (c : Cache) (op : Op) : option Cache :=
  match op with
  | OpAdd k v => Add c k v
  | OpGet k => Some (snd (Get c k))
  | OpRemoveOldest => Some (RemoveOldest c)
  | OpClear => Clear c
  end.

Fixpoint run (c : Cache) (ops : list Op) : option Cache :=
  match ops with
  | [] => Some c
  | op :: ops' =>
      match step c op with
      | Some c' => run c' ops'
      | None => None
      end
  end.

(** The entry to be stored fits next to the bytes already held: the
    counter does not leave the [int64] range. *)
Definition fits (c : Cache) (k : string) (v : V) : Prop :=
  live_bytes (ll c) + (len k + Len v) ≤ max_int64.

Definition op_fits (c : Cache) (op : Op) : Prop :=
  match op with
  | OpAdd k v => fits c k v
  | _ => True
  end.

Fixpoint within_int64 (c : Cache) (ops : list Op) : Prop :=
  match ops with
  | [] => True
  | op :: ops' =>
      op_fits c op ∧
      match step c op with
      | Some c' => within_int64 c' ops'
      | None => True
      end
  end.

(** Keys accessed by an operation: every [Add], and every [Get] that
    finds its key. *)
Definition access (c : Cache) (op : Op) : list string :=
  match op with
  | OpAdd k _ => [k]
  | OpGet k => match fst (Get c k) with Some _ => [k] | None => [] end
  | _ => []
  end.

(** The accesses of a run, oldest first. *)
Fixpoint history (c : Cache) (ops : list Op) : list string :=
  match ops with
  | [] => []
  | op :: ops' =>
      access c op ++
      match step c op with
      | Some c' => history c' ops'
      | None => []
      end
  end.

(** In the access log [log], the last access to [k1] comes after the
    last access to [k2]. *)
Definition accessed_after (log : list string) (k1 k2 : string) : Prop :=
  ∃ l1 l2, log = l1 ++ (k2 :: l2) ∧ (k2 ∉ l2) ∧ k1 ∈ l2.

(** The keys [ks], front to back, are in the order of their last
    access in [log], most recent first; each of them was accessed. *)
Definition by_last_access (log ks : list string) : Prop :=
  StronglySorted (accessed_after log) ks ∧ ∀ k, k ∈ ks → k ∈ log.

Definition front (c : Cache) : option string :=
  match ll c with e :: _ => Some (key e) | [] => None end.

(** A state reached from [New] by a run that stays within [int64]. *)
Definition reached (maxB : Z) (ev : bool) (ops : list Op) (c : Cache) : Prop :=
  within_int64 (New maxB ev) ops ∧ run (New maxB ev) ops = Some c.

(** The calls made to [OnEvicted] when the elements [l], listed front to
    back, are evicted one by one from the back. *)
Definition callbacks (ev : bool) (l : list Element) : list (string * V) :=
  if ev then reverse ((λ e, (key e, value e)) <$> l) else [].

End engine.

Arguments Element V : clear implicits.
Arguments Cache V : clear implicits.
Arguments Op V : clear implicits.
End lru.

(** ** The consistent-hash ring (package [consistenthash]) *)

Module consistenthash.

(** [[]byte(s)] *)
Definition bytes (s : string) : list byte :=
  Stdlib.Strings.String.list_byte_of_string s.

(** [strconv.Itoa] *)
Definition Itoa (i : Z) : string := NilZero.string_of_int (Z.to_int i).

(** *** hash/crc32: the IEEE checksum, bit by bit over the reflected
    polynomial [0xedb88320]. *)
Definition crc32_bit (crc : Z) : Z :=
  if Z.testbit crc 0 then Z.lxor (Z.shiftr crc 1) 0xedb88320
  else Z.shiftr crc 1.

Definition crc32_byte (crc : Z) (b : byte) : Z :=
  Nat.iter 8 crc32_bit (Z.lxor crc (Z.of_N (Byte.to_N b))).

Definition ChecksumIEEE (data : list byte) : Z :=
  Z.lxor (foldl crc32_byte 0xffffffff data) 0xffffffff.

(** *** sort *)

(** [sort.Ints]: the increasing rearrangement of the slice. *)
Definition Ints (a : list Z) : list Z := merge_sort Z.le a.

(** The loop of [sort.Search]: binary search between [i] and [j]. The
    distance [j - i] shrinks in every round, so [fuel] rounds are enough
    when [j - i <= fuel]. *)
Fixpoint search_loop (fuel : nat) (f : Z → bool) (i j : Z) : Z :=
  match fuel with
  | O => i
  | S fuel' =>
      if i <? j then
        let h := Z.shiftr (i + j) 1 in
        if negb (f h) then search_loop fuel' f (h + 1) j
        else search_loop fuel' f i h
      else i
  end.

Definition Search (n : Z) (f : Z → bool) : Z :=
  search_loop (Z.to_nat n) f 0 n.

(** *** The ring *)

(** [type Hash func(data []byte) uint32]; the result is read through
    [uint32]. *)
Definition Hash : Type := list byte → Z.

Record Map := mkMap {
  hash : Hash;
  replicas : Z;
  keys : list Z;             (* sorted *)
  hashMap : gmap Z string
}.

Definition New (replicas : Z) (fn : option Hash) : Map :=
  {| hash := match fn with Some f => f | None => ChecksumIEEE end;
     replicas := replicas; keys := []; hashMap := ∅ |}.

(** [int(m.hash([]byte(strconv.Itoa(i) + key)))], with a 64-bit [int]. *)
Definition vhash (fn : Hash) (key : string) (i : Z) : Z :=
  uint32 (fn (bytes (Itoa i +:+ key))).

(** One round of the inner loop of [Add]. *)
Definition add_replica (key : string) (m : Map) (i : Z) : Map :=
  let h := vhash (hash m) key i in
  mkMap (hash m) (replicas m) (keys m ++ [h]) (<[h := key]> (hashMap m)).

(** [for i := 0; i < m.replicas; i++] *)
Definition indices (replicas : Z) : list Z :=
  Z.of_nat <$> seq 0 (Z.to_nat replicas).

Definition add_key (m : Map) (key : string) : Map :=
  foldl (add_replica key) m (indices (replicas m)).

Definition Add (m : Map) (ks : list string) : Map :=
  let m' := foldl add_key m ks in
  mkMap (hash m') (replicas m') (Ints (keys m')) (hashMap m').

(** [m.keys[i]] and [m.hashMap[h]]; a missing map key reads as the
    zero value. *)
Definition at_index (a : list Z) (i : Z) : Z := default 0 (a !! Z.to_nat i).
Definition owner (m : Map) (h : Z) : string := default EmptyString (hashMap m !! h).

Definition Get (m : Map) (key : string) : string :=
  let n := Z.of_nat (length (keys m)) in
  if n =? 0 then EmptyString
  else
    let h := uint32 (hash m (bytes key)) in
    let idx := Search n (λ i, at_index (keys m) i >=? h) in
    owner m (at_index (keys m) (idx `rem` n)).

(** *** Vocabulary of the specification *)

(** A ring as a client can build it: [New], then any number of [Add]s. *)
Definition ring (replicas : Z) (fn : option Hash) (batches : list (list string)) : Map :=
  foldl Add (New replicas fn) batches.

(** The virtual nodes of a list of real nodes, in the order in which
    [Add] visits them. *)
Definition vnodes (fn : Hash) (replicas : Z) (ks : list string) : list (Z * string) :=
  k ← ks; (λ i, (vhash fn k i, k)) <$> indices replicas.

(** The index written by the loop over a list of virtual nodes: a later
    write to the same point replaces the earlier one. *)
Definition record (g : gmap Z string) (vs : list (Z * string)) : gmap Z string :=
  foldl (λ g x, <[x.1 := x.2]> g) g vs.

(** No two real nodes share a point of the ring. *)
Definition collision_free (fn : Hash) (replicas : Z) (ks : list string) : Prop :=
  ∀ h k1 k2, (h, k1) ∈ vnodes fn replicas ks → (h, k2) ∈ vnodes fn replicas ks → k1 = k2.

(** The same, as a check that can be run. *)
Definition collision_freeb (fn : Hash) (replicas : Z) (ks : list string) : bool :=
  let vs := vnodes fn replicas ks in
  forallb (λ x, forallb (λ y, implb (fst x =? fst y) (bool_decide (snd x = snd y))) vs) vs.

End consistenthash.

(** ** Single-flight ([singleflight/singleflight.go]) *)

(** [Do] is run by many goroutines at once.  Each goroutine is a thread
    with a program counter; a step of the system is one thread moving
    from one point of [Do] to the next.  The two critical sections are
    steps of their own, the mutex making them atomic; [fn] is code of the
    caller and may return any result or panic. *)
Module singleflight.
Section flight.
Context {V E : Type}.

(** [(interface{}, error)]; both are nil in a fresh [call]. *)
Definition result : Type := option V * option E.

(** [call]: the counter of the [WaitGroup] and the stored result. *)
Record call := mkCall { wg : nat; val : result }.

(** Where a thread stands in [Do]; [c] is the address of its [call]. *)
Inductive pc :=
| Start                          (* before [g.mu.Lock()] *)
| Waiting (c : nat)              (* found [c] in the map: at [c.wg.Wait()] *)
| Running (c : nat)              (* registered [c]: inside [fn()] *)
| Stored (c : nat)               (* [c.val, c.err = ...] done: at [c.wg.Done()] *)
| Released (c : nat)             (* before the second [g.mu.Lock()] *)
| Returned (c : nat) (r : result)
| Panicked (c : nat).            (* [fn] panicked: [Do] was unwound *)

Record state := mkState {
  m : gmap string nat;               (* [g.m]; nil reads as empty *)
  heap : list call;                  (* the [call]s allocated so far *)
  threads : list (string * pc);      (* key and position of each caller *)
  execs : list (nat * string * nat)  (* invocations of [fn]: thread, key, call *)
}.

Inductive action :=
| Enter                 (* first critical section *)
| Return (r : result)   (* [fn] returns [r], stored in the call *)
| Panic                 (* [fn] panics *)
| Done                  (* [c.wg.Done()] *)
| Delete                (* second critical section, and return *)
| Wake.                 (* [c.wg.Wait()] returns, and return *)

Definition goto (t : nat) (k : string) (p : pc) (s : state) : state :=
  mkState (m s) (heap s) (<[t := (k, p)]> (threads s)) (execs s).

Definition step (s : state) (t : nat) (a : action) : option state :=
  match threads s !! t with
  | Some (k, p) =>
      match p, a with
      | Start, Enter =>
          match m s !! k with
          | Some c => Some (goto t k (Waiting c) s)
          | None =>
              let c := length (heap s) in
              Some (mkState (<[k := c]> (m s))
                            (heap s ++ [mkCall 1 (None, None)])
                            (<[t := (k, Running c)]> (threads s))
                            (execs s ++ [(t, k, c)]))
          end
      | Waiting c, Wake =>
          match heap s !! c with
          | Some cl =>
              if decide (wg cl = 0)%nat
              then Some (goto t k (Returned c (val cl)) s)
              else None
          | None => None
          end
      | Running c, Return r =>
          Some (mkState (m s) (alter (λ cl, mkCall (wg cl) r) c (heap s))
                        (<[t := (k, Stored c)]> (threads s)) (execs s))
      | Running c, Panic => Some (goto t k (Panicked c) s)
      | Stored c, Done =>
          Some (mkState (m s) (alter (λ cl, mkCall (pred (wg cl)) (val cl)) c (heap s))
                        (<[t := (k, Released c)]> (threads s)) (execs s))
      | Released c, Delete =>
          match heap s !! c with
          | Some cl =>
              Some (mkState (delete k (m s)) (heap s)
                            (<[t := (k, Returned c (val cl))]> (threads s))
                            (execs s))
          | None => None
          end
      | _, _ => None
      end
  | None => None
  end.

(** A schedule: which thread moves, and how. *)
Fixpoint exec (s : state) (sched : list (nat * action)) : option state :=
  match sched with
  | [] => Some s
  | (t, a) :: sched' =>
      match step s t a with
      | Some s' => exec s' sched'
      | None => None
      end
  end.

(** Callers of [Do], one per key of the list, on a fresh [Group]. *)
Definition init (keys : list string) : state :=
  mkState ∅ [] ((λ k, (k, Start)) <$> keys) [].

(** *** Vocabulary of the specification *)

(** The call a thread has registered and not yet released. *)
Definition owns (p : pc) : option nat :=
  match p with
  | Running c | Stored c | Released c | Panicked c => Some c
  | _ => None
  end.

(** The call a thread has joined, as its producer or as a waiter. *)
Definition joined (p : pc) : option nat :=
  match p with
  | Start => None
  | Waiting c | Running c | Stored c | Released c
  | Returned c _ | Panicked c => Some c
  end.

(** Invariant of the reachable states. *)
Record inv (s : state) : Prop := mkInv {
  inv_joined : ∀ t k p c,
    threads s !! t = Some (k, p) → joined p = Some c → (c < length (heap s))%nat;
  inv_index : ∀ k c, m s !! k = Some c → (c < length (heap s))%nat;
  inv_owner : ∀ t k p c,
    threads s !! t = Some (k, p) → owns p = Some c → m s !! k = Some c;
  inv_unique : ∀ t1 t2 k1 k2 p1 p2 c,
    threads s !! t1 = Some (k1, p1) → threads s !! t2 = Some (k2, p2) →
    owns p1 = Some c → owns p2 = Some c → t1 = t2;
  inv_busy : ∀ t k p c,
    threads s !! t = Some (k, p) → owns p = Some c → p ≠ Released c →
    ∃ cl, heap s !! c = Some cl ∧ wg cl = 1%nat;
  inv_done : ∀ t k c,
    threads s !! t = Some (k, Released c) →
    ∃ cl, heap s !! c = Some cl ∧ wg cl = 0%nat;
  inv_result : ∀ t k c r,
    threads s !! t = Some (k, Returned c r) →
    ∃ cl, heap s !! c = Some cl ∧ wg cl = 0%nat ∧ val cl = r;
  inv_execs : NoDup (execs s).*2
              ∧ ∀ x, x ∈ execs s → (x.2 < length (heap s))%nat
}.

(** The result of call [c] is [r] for good: it is stored, and no
    thread is inside the [fn] of that call any more. *)
Definition settled (c : nat) (r : result) (s : state) : Prop :=
  (∃ cl, heap s !! c = Some cl ∧ val cl = r)
  ∧ ∀ t k, threads s !! t ≠ Some (k, Running c).

(** Thread [t], the producer of call [c] for key [k], is past its
    [fn]; once it has returned, [c] is not the call of [k] in the map. *)
Definition past_fn (t : nat) (k : string) (c : nat) (s : state) : Prop :=
  match threads s !! t with
  | Some (k', Stored c') | Some (k', Released c') => k' = k ∧ c' = c
  | Some (k', Returned c' _) => k' = k ∧ c' = c ∧ m s !! k ≠ Some c
  | _ => False
  end.

(** The steps a caller still has to make before it has returned. *)
Definition moves_left (p : pc) : nat :=
  match p with
  | Start => 4
  | Running _ => 3
  | Stored _ => 2
  | Released _ | Waiting _ => 1
  | Returned _ _ | Panicked _ => 0
  end.

Definition work_left (s : state) : nat :=
  sum_list ((λ x, moves_left x.2) <$> threads s).

(** The map holds the calls in flight and no other: every call of the
    map has its producer, and every call that is waited for has a
    producer that has not yet called [Done]. *)
Record live (s : state) : Prop := mkLive {
  live_index : ∀ k c, m s !! k = Some c →
    ∃ t p, threads s !! t = Some (k, p) ∧ owns p = Some c;
  live_wait : ∀ c cl, heap s !! c = Some cl → wg cl ≠ 0%nat →
    ∃ t k p, threads s !! t = Some (k, p)
             ∧ (p = Running c ∨ p = Stored c ∨ p = Panicked c)
}.

(** No [fn] has panicked. *)
Definition calm (s : state) : Prop :=
  ∀ t k c, threads s !! t ≠ Some (k, Panicked c).

End flight.

Arguments result V E : clear implicits.
Arguments state V E : clear implicits.
Arguments action V E : clear implicits.
Arguments pc V E : clear implicits.
Arguments call V E : clear implicits.
End singleflight.

(** ** The peer pool ([HTTPPool]) *)

Module httppool.

Definition defaultBasePath : string := "/_geecache/".
Definition defaultReplicas : Z := 50.

Record httpGetter := mkGetter { baseURL : string }.

(** [peers] is a pointer: [None] is the nil pointer of a pool on which
    [Set] has not been called. *)
Record HTTPPool := mkPool {
  self : string;
  basePath : string;
  peers : option consistenthash.Map;
  httpGetters : gmap string httpGetter
}.

Definition NewHTTPPool (self : string) : HTTPPool :=
  {| self := self; basePath := defaultBasePath; peers := None;
     httpGetters := ∅ |}.

Definition Set_ (p : HTTPPool) (ps : list string) : HTTPPool :=
  let ring := consistenthash.Add (consistenthash.New defaultReplicas None) ps in
  mkPool (self p) (basePath p) (Some ring)
         (foldl (λ g peer, <[peer := mkGetter (peer +:+ basePath p)]> g) ∅ ps).

(** Outcome of a call: a result, or a run-time panic. *)
Inductive outcome (A : Type) :=
| Returns (a : A)
| Panics.
Arguments Returns {A} a.
Arguments Panics {A}.

(** [Map.Get] has a pointer receiver: reading [m.keys] through a nil
    receiver is a nil-pointer dereference. *)
Definition ring_Get (m : option consistenthash.Map) (key : string) : outcome string :=
  match m with
  | Some m => Returns (consistenthash.Get m key)
  | None => Panics
  end.

(** [PickPeer] returns [(PeerGetter, bool)]; the handle is [None] for a
    nil interface value. Reading a missing key of [httpGetters] gives
    the nil pointer. *)
Definition PickPeer (p : HTTPPool) (key : string) : outcome (option httpGetter * bool) :=
  match ring_Get (peers p) key with
  | Returns peer =>
      if bool_decide (peer ≠ EmptyString ∧ peer ≠ self p)
      then Returns (httpGetters p !! peer, true)
      else Returns (None, false)
  | Panics => Panics
  end.

End httppool.

(** ** The sharded cache and the group load path ([cache], [Group]) *)

(** One caller at a time: the locks are not contended and [Do] finds no
    call in flight.  The origin loader and the peers are outside the
    process; they read and change a world [W], and the calls made to them
    are recorded in a trace. *)
Module kcache.
Import byteview.

Definition error : Type := string.

(** [cache]: the LRU is built on first use. *)
Record cache := mkcache {
  lru : option (lru.Cache ByteView);
  cacheBytes : Z
}.

Definition cache_add (c : cache) (key : string) (value : ByteView) : option cache :=
  let l := match lru c with
           | Some l => l
           | None => lru.New (cacheBytes c) false
           end in
  match lru.Add l key value with
  | Some l' => Some (mkcache (Some l') (cacheBytes c))
  | None => None
  end.

Definition cache_get (c : cache) (key : string) : option ByteView * cache :=
  match lru c with
  | None => (None, c)
  | Some l =>
      match lru.Get l key with
      | (Some v, l') => (Some v, mkcache (Some l') (cacheBytes c))
      | (None, l') => (None, mkcache (Some l') (cacheBytes c))
      end
  end.

(** The LRU behind a [cache]: the one it holds, or the one that the
    first [add] will build. *)
Definition cache_lru (c : cache) : lru.Cache ByteView :=
  match lru c with
  | Some l => l
  | None => lru.New (cacheBytes c) false
  end.

(** A [cache] as [add] and [get] leave it. *)
Definition cache_ok (c : cache) : Prop :=
  lru.wf (cache_lru c) ∧ lru.within_budget (cache_lru c)
  ∧ lru.maxBytes (cache_lru c) = cacheBytes c.

Section group.
Context {W : Type}.

(** [Getter.Get(key)], [PeerGetter.Get(group, key)] and
    [PeerPicker.PickPeer(key)]. *)
Definition Getter : Type := string → W → (list byte + error) * W.
Definition PeerGetter : Type := string → string → W → (list byte + error) * W.
Definition PeerPicker : Type := string → option PeerGetter.

Record Group := mkGroup {
  name : string;
  getter : Getter;
  mainCache : cache;
  peers : option PeerPicker;
  loader : gset string          (* keys with a call in flight *)
}.

Inductive event :=
| EvLoader (key : string)              (* the origin loader was asked *)
| EvPeer (group key : string)          (* a peer was asked *)
| EvPopulate (key : string).           (* [populateCache] was called *)

Record St := mkSt {
  world : W;
  group : Group;
  trace : list event
}.

(** Computations on the state; [None] is a call that does not return. *)
Definition M (A : Type) : Type := St → option (A * St).

Definition ret {A} (a : A) : M A := λ st, Some (a, st).
Definition bind {A B} (x : M A) (f : A → M B) : M B :=
  λ st, match x st with
        | Some (a, st') => f a st'
        | None => None
        end.

Notation "'let*' x := c1 'in' c2" := (bind c1 (λ x, c2))
  (at level 10, x name, c1 at level 100, c2 at level 200).

Definition set_mainCache (c : cache) (st : St) : St :=
  let g := group st in
  mkSt (world st) (mkGroup (name g) (getter g) c (peers g) (loader g)) (trace st).

Definition set_loader (l : gset string) (st : St) : St :=
  let g := group st in
  mkSt (world st) (mkGroup (name g) (getter g) (mainCache g) (peers g) l) (trace st).

Definition emit (e : event) (w : W) (st : St) : St :=
  mkSt w (group st) (trace st ++ [e]).

Definition populateCache (key : string) (value : ByteView) : M unit :=
  λ st, match cache_add (mainCache (group st)) key value with
        | Some c => Some (tt, set_mainCache c (emit (EvPopulate key) (world st) st))
        | None => None
        end.

(** The results are Go's pairs [(ByteView, error)]; [ByteView{}] comes
    with an error. *)
Definition getLocally (key : string) : M (ByteView * option error) :=
  λ st,
    let '(r, w) := getter (group st) key (world st) in
    let st1 := emit (EvLoader key) w st in
    match r with
    | inr err => Some ((mkByteView [], Some err), st1)
    | inl bytes =>
        let value := mkByteView (cloneBytes bytes) in
        (let* u := populateCache key value in ret (value, None)) st1
    end.

Definition getFromPeer (peer : PeerGetter) (key : string) : M (ByteView * option error) :=
  λ st,
    let '(r, w) := peer (name (group st)) key (world st) in
    let st1 := emit (EvPeer (name (group st)) key) w st in
    match r with
    | inr err => Some ((mkByteView [], Some err), st1)
    | inl bytes => Some ((mkByteView bytes, None), st1)
    end.

(** The function that [load] hands to [Do]. *)
Definition load_fn (key : string) : M (ByteView * option error) :=
  λ st,
    match peers (group st) with
    | Some picker =>
        match picker key with
        | Some peer =>
            (let* r := getFromPeer peer key in
             match r with
             | (value, None) => ret (value, None)
             | (_, Some _) => getLocally key
             end) st
        | None => getLocally key st
        end
    | None => getLocally key st
    end.

(** [singleflight.Do] for a single caller: with a call of the key in
    flight it would wait; otherwise it registers the key, runs [fn]
    and releases the key. *)
Definition Do {A} (key : string) (fn : M A) : M A :=
  λ st,
    if decide (key ∈ loader (group st)) then None
    else
      match fn (set_loader ({[key]} ∪ loader (group st)) st) with
      | Some (r, st') => Some (r, set_loader (loader (group st') ∖ {[key]}) st')
      | None => None
      end.

Definition load (key : string) : M (ByteView * option error) :=
  let* r := Do key (load_fn key) in
  match r with
  | (viewi, None) => ret (viewi, None)
  | (_, Some err) => ret (mkByteView [], Some err)
  end.

Definition Get (key : string) : M (ByteView * option error) :=
  λ st,
    if decide (key = EmptyString)
    then Some ((mkByteView [], Some "key is required"%string), st)
    else
      match cache_get (mainCache (group st)) key with
      | (Some v, c) => Some ((v, None), set_mainCache c st)
      | (None, c) => load key (set_mainCache c st)
      end.

(** *** Vocabulary of the specification *)

Definition is_loader (e : event) : bool :=
  match e with EvLoader _ => true | _ => false end.

Definition misses (c : cache) (key : string) : Prop :=
  fst (cache_get c key) = None.

(** A group between two calls of its single caller. *)
Definition idle (g : Group) : Prop := loader g = ∅ ∧ cache_ok (mainCache g).

(** The parts of a group that [Get] never writes. *)
Definition same_setup (g g' : Group) : Prop :=
  name g' = name g ∧ getter g' = getter g ∧ peers g' = peers g
  ∧ cacheBytes (mainCache g') = cacheBytes (mainCache g).

(** What the origin loader returns for these keys can be stored next to
    a full cache without the byte counter leaving [int64]. *)
Definition sized (g : Group) (keys : list string) : Prop :=
  ∀ key w bytes w', key ∈ keys → getter g key w = (inl bytes, w') →
    cacheBytes (mainCache g) + (lru.len key + Z.of_nat (length bytes)) ≤ max_int64.

(** No peer is asked for the key: no picker is registered, or the picker
    names none. *)
Definition local_key (g : Group) (key : string) : Prop :=
  ∀ picker, peers g = Some picker → picker key = None.

Definition cached_bytes (g : Group) : Z := lru.nbytes (cache_lru (mainCache g)).

(** The world in which [load] asks the origin loader: the present one
    when no picker is registered or the picker names no peer, the one
    left by the peer when the peer fails; none when the peer answers. *)
Definition loader_world (g : Group) (key : string) (w : W) : option W :=
  match peers g with
  | Some picker =>
      match picker key with
      | Some peer =>
          match peer (name g) key w with
          | (inl _, _) => None
          | (inr _, w1) => Some w1
          end
      | None => Some w
      end
  | None => Some w
  end.

(** The call to a peer that [load] makes for a key, if any. *)
Definition peer_events (g : Group) (key : string) : list event :=
  match peers g with
  | Some picker =>
      match picker key with
      | Some _ => [EvPeer (name g) key]
      | None => []
      end
  | None => []
  end.

(** One [Get] after the other. *)
Fixpoint Gets (keys : list string) : M (list (ByteView * option error)) :=
  match keys with
  | [] => ret []
  | key :: keys' =>
      let* r := Get key in
      let* rs := Gets keys' in
      ret (r :: rs)
  end.

End group.

Arguments Group W : clear implicits.
Arguments St W : clear implicits.
Arguments Getter W : clear implicits.
Arguments PeerGetter W : clear implicits.
Arguments PeerPicker W : clear implicits.
End kcache.

(** ** Concurrent callers of [Get] *)

(** Many goroutines call [Get] on one group.  Each caller goes through
    the key check and the cache look-up, then, on a miss, through [Do]
    (its position there is its program counter in the single-flight
    state) and, if it is the producer, through the body of the function
    that [load] hands to [Do].  The cache look-up, [populateCache] and
    the two critical sections of [Do] are atomic (each runs under its
    mutex); the calls to a peer and to the origin loader are one step
    each. *)
Module concurrent.
Import byteview.

Section callers.
Context {W : Type}.

Definition result : Type := singleflight.result ByteView kcache.error.

(** Where the producer stands in the function handed to [Do]. *)
Inductive fnpc :=
| FnStart                      (* at [if g.peers != nil] *)
| PeerFailed                   (* [getFromPeer] has returned an error *)
| Loaded (bytes : list byte)   (* [g.getter.Get] has returned [bytes] *)
| Ready (r : result).          (* at the [return] of [r] *)

(** Where a caller stands in [Get]. *)
Inductive phase :=
| Lookup                       (* before the key check and [mainCache.get] *)
| Rejected                     (* has returned "key is required" *)
| Hit (v : ByteView)           (* has returned [v] from the cache *)
| Missed (f : fnpc).           (* in [load]: inside [Do], or back from it *)

Record state := mkState {
  fl : singleflight.state ByteView kcache.error;   (* [g.loader] and the callers *)
  phases : list phase;
  mainCache : kcache.cache;
  world : W;
  loads : list (nat * string * nat)   (* calls of the origin loader:
                                         thread, key, call record *)
}.

Inductive action :=
| Check                        (* the key check and [mainCache.get] *)
| Flight (a : singleflight.action ByteView kcache.error)
                               (* a step of [Do] other than the return of [fn] *)
| AskPeer                      (* [PickPeer] and [getFromPeer] *)
| AskLoader                    (* [g.getter.Get] *)
| Populate                     (* [cloneBytes] and [populateCache] *)
| FnReturn.                    (* the function handed to [Do] returns *)

Definition set_phase (t : nat) (ph : phase) (s : state) : state :=
  mkState (fl s) (<[t := ph]> (phases s)) (mainCache s) (world s) (loads s).

Definition set_fl (f : singleflight.state ByteView kcache.error) (s : state) : state :=
  mkState f (phases s) (mainCache s) (world s) (loads s).

(** The peer that [PickPeer] names for a key, if a picker is
    registered and names one. *)
Definition picked (g : kcache.Group W) (k : string) : option (kcache.PeerGetter W) :=
  match kcache.peers g with
  | Some picker => picker k
  | None => None
  end.

Definition step (g : kcache.Group W) (s : state) (t : nat) (a : action)
    : option state :=
  match singleflight.threads (fl s) !! t, phases s !! t with
  | Some (k, p), Some ph =>
      match a, ph, p with
      | Check, Lookup, _ =>
          if decide (k = EmptyString) then Some (set_phase t Rejected s)
          else
            match kcache.cache_get (mainCache s) k with
            | (Some v, c) =>
                Some (mkState (fl s) (<[t := Hit v]> (phases s)) c (world s) (loads s))
            | (None, c) =>
                Some (mkState (fl s) (<[t := Missed FnStart]> (phases s)) c
                              (world s) (loads s))
            end
      | Flight (singleflight.Return _), _, _ => None
      | Flight a', Missed _, _ =>
          match singleflight.step (fl s) t a' with
          | Some f => Some (set_fl f s)
          | None => None
          end
      | AskPeer, Missed FnStart, singleflight.Running _ =>
          match picked g k with
          | Some peer =>
              let '(res, w) := peer (kcache.name g) k (world s) in
              let f := match res with
                       | inl bytes => Ready (Some (mkByteView bytes), None)
                       | inr _ => PeerFailed
                       end in
              Some (mkState (fl s) (<[t := Missed f]> (phases s)) (mainCache s) w
                            (loads s))
          | None => None
          end
      | AskLoader, Missed f, singleflight.Running c =>
          let asks := match f with
                      | PeerFailed => true
                      | FnStart => match picked g k with None => true | Some _ => false end
                      | _ => false
                      end in
          if asks then
            let '(res, w) := kcache.getter g k (world s) in
            let f' := match res with
                      | inl bytes => Loaded bytes
                      | inr err => Ready (Some (mkByteView []), Some err)
                      end in
            Some (mkState (fl s) (<[t := Missed f']> (phases s)) (mainCache s) w
                          (loads s ++ [(t, k, c)]))
          else None
      | Populate, Missed (Loaded bytes), singleflight.Running _ =>
          let value := mkByteView (cloneBytes bytes) in
          match kcache.cache_add (mainCache s) k value with
          | Some c =>
              Some (mkState (fl s) (<[t := Missed (Ready (Some value, None))]> (phases s))
                            c (world s) (loads s))
          | None => None
          end
      | FnReturn, Missed (Ready r), singleflight.Running _ =>
          match singleflight.step (fl s) t (singleflight.Return r) with
          | Some f => Some (set_fl f s)
          | None => None
          end
      | _, _, _ => None
      end
  | _, _ => None
  end.

Fixpoint exec (g : kcache.Group W) (s : state) (sched : list (nat * action))
    : option state :=
  match sched with
  | [] => Some s
  | (t, a) :: sched' =>
      match step g s t a with
      | Some s' => exec g s' sched'
      | None => None
      end
  end.

(** Callers of [Get], one per key of the list, on a group on which no
    call is in flight. *)
Definition init (g : kcache.Group W) (keys : list string) (w : W) : state :=
  mkState (singleflight.init keys) (replicate (length keys) Lookup)
          (kcache.mainCache g) w [].

(** What [Get] has returned to a caller, if it has returned. *)
Definition Get_result (s : state) (t : nat) : option (ByteView * option kcache.error) :=
  match phases s !! t, singleflight.threads (fl s) !! t with
  | Some Rejected, _ => Some (mkByteView [], Some "key is required"%string)
  | Some (Hit v), _ => Some (v, None)
  | Some (Missed _), Some (_, singleflight.Returned _ (Some v, None)) => Some (v, None)
  | Some (Missed _), Some (_, singleflight.Returned _ (_, Some e)) =>
      Some (mkByteView [], Some e)
  | _, _ => None
  end.

(** *** Vocabulary of the specification *)

(** The caller has asked the origin loader. *)
Definition past_loader (ph : phase) : Prop :=
  match ph with
  | Missed (Loaded _) | Missed (Ready _) => True
  | _ => False
  end.

(** Every caller inside [fn] is on record as its producer. *)
Definition producers (f : singleflight.state ByteView kcache.error) : Prop :=
  ∀ t k c, singleflight.threads f !! t = Some (k, singleflight.Running c) →
           (t, k, c) ∈ singleflight.execs f.

(** Invariant of the reachable states: the one of [Do]; only callers
    that missed the cache are inside [Do]; and the origin loader has been
    called at most once per caller, by callers that are past that call,
    each of them the producer of the call record it was made for. *)
Record inv (s : state) : Prop := mkInv {
  inv_flight : singleflight.inv (fl s);
  inv_producers : producers (fl s);
  inv_entered : ∀ t k p, singleflight.threads (fl s) !! t = Some (k, p) →
    p ≠ singleflight.Start → ∃ f, phases s !! t = Some (Missed f);
  inv_phases : length (phases s) = length (singleflight.threads (fl s));
  loads_once : NoDup (loads s).*1.*1;
  loads_past : ∀ t k c, (t, k, c) ∈ loads s →
    ∃ ph, phases s !! t = Some ph ∧ past_loader ph;
  loads_exec : ∀ x, x ∈ loads s → x ∈ singleflight.execs (fl s)
}.

End callers.

Arguments state W : clear implicits.
End concurrent.

(** ** The HTTP front ([NewGroup], [GetGroup], [ServeHTTP]) *)

(** The groups live behind pointers: [groups] maps a name to the address
    of its group, and a [Get] through the registry changes the group
    that the caller of [NewGroup] holds. *)
Module server.
Import byteview kcache.

(** [strings.HasPrefix]: [len(s) >= len(prefix) && s[:len(prefix)] == prefix]. *)
Fixpoint HasPrefix (s prefix : string) {struct prefix} : bool :=
  match prefix with
  | EmptyString => true
  | String a prefix' =>
      match s with
      | String b s' => Ascii.eqb a b && HasPrefix s' prefix'
      | EmptyString => false
      end
  end.

(** [s[n:]], for [n <= len(s)]. *)
Fixpoint skip (n : nat) (s : string) : string :=
  match n, s with
  | O, _ => s
  | S n', String _ s' => skip n' s'
  | S _, EmptyString => EmptyString
  end.

(** The text before and after the first ["/"]. *)
Fixpoint cut (s : string) : option (string * string) :=
  match s with
  | EmptyString => None
  | String a s' =>
      if Ascii.eqb a "/" then Some (EmptyString, s')
      else match cut s' with
           | Some (x, y) => Some (String a x, y)
           | None => None
           end
  end.

(** [strings.SplitN(s, "/", 2)] *)
Definition SplitN2 (s : string) : list string :=
  match cut s with
  | Some (x, y) => [x; y]
  | None => [s]
  end.

(** What the handler has written to the [ResponseWriter]. *)
Record response := mkResponse {
  status : Z;
  contentType : string;
  body : list byte
}.

(** [http.Error]: a plain-text answer, the message on a line. *)
Definition http_Error (msg : string) (code : Z) : response :=
  mkResponse code "text/plain; charset=utf-8"
             (consistenthash.bytes (msg +:+ String "010" EmptyString)).

Section registry.
Context {W : Type}.

Record Srv := mkSrv {
  world : W;
  heap : list (Group W);          (* the groups allocated so far *)
  groups : gmap string nat;       (* the package variable [groups] *)
  trace : list (event)
}.

(** [NewGroup]; a nil [Getter] is [None]. *)
Definition NewGroup (name : string) (cacheBytes : Z) (getter : option (Getter W))
    (s : Srv) : httppool.outcome (nat * Srv) :=
  match getter with
  | None => httppool.Panics
  | Some g =>
      let a := length (heap s) in
      httppool.Returns
        (a, mkSrv (world s)
                  (heap s ++ [mkGroup name g (mkcache None cacheBytes) None ∅])
                  (<[name := a]> (groups s)) (trace s))
  end.

Definition GetGroup (name : string) (s : Srv) : option nat := groups s !! name.

(** [Get] of the group at an address. *)
Definition Group_Get (a : nat) (key : string) (s : Srv)
    : option ((ByteView * option error) * Srv) :=
  match heap s !! a with
  | Some g =>
      match Get key (mkSt (world s) g (trace s)) with
      | Some (r, st) =>
          Some (r, mkSrv (kcache.world st) (<[a := group st]> (heap s))
                         (groups s) (kcache.trace st))
      | None => None
      end
  | None => None
  end.

(** [ServeHTTP] for a request with the given URL path. [None] is a
    handler that does not return. The line written by [p.Log] is not
    part of the state. *)
Definition ServeHTTP (p : httppool.HTTPPool) (path : string) (s : Srv)
    : option (httppool.outcome response * Srv) :=
  if negb (HasPrefix path (httppool.basePath p)) then Some (httppool.Panics, s)
  else
    match SplitN2 (skip (String.length (httppool.basePath p)) path) with
    | [groupName; key] =>
        match GetGroup groupName s with
        | None =>
            Some (httppool.Returns
                    (http_Error ("no such group: " +:+ groupName) 404), s)
        | Some a =>
            match Group_Get a key s with
            | Some ((_, Some err), s') =>
                Some (httppool.Returns (http_Error err 500), s')
            | Some ((view, None), s') =>
                Some (httppool.Returns
                        (mkResponse 200 "application/octet-stream" (ByteSlice view)),
                      s')
            | None => None
            end
        end
    | _ => Some (httppool.Returns (http_Error "bad request" 400), s)
    end.

End registry.

Arguments Srv W : clear implicits.
End server.

(** ** Sample runs, used to exercise the theorems *)

Module samples.
Import byteview.

(** Scenario 2 of the specification, shortened: a budget of 20 bytes
    and entries of 2 + 8 bytes. *)
Definition v8 : ByteView := mkByteView (replicate 8 Byte.x00).
Definition v30 : ByteView := mkByteView (replicate 30 Byte.x00).

Definition lru_ops : list (lru.Op ByteView) :=
  [lru.OpAdd "k1" v8; lru.OpAdd "k2" v8; lru.OpAdd "k3" v8; lru.OpGet "k2"].

Definition lru_end : lru.Cache ByteView :=
  lru.mkCache 20 20 [lru.mkElement 1 "k2" v8; lru.mkElement 2 "k3" v8]
              (<["k2" := 1%nat]> (<["k3" := 2%nat]> ∅)) false 3 [].

(** The same run with a callback registered: the first entry has been
    evicted and reported. *)
Definition lru_logged : lru.Cache ByteView :=
  lru.mkCache 20 20 [lru.mkElement 1 "k2" v8; lru.mkElement 2 "k3" v8]
              (<["k2" := 1%nat]> (<["k3" := 2%nat]> ∅)) true 3 [("k1"%string, v8)].

(** The same run without a budget: nothing has been evicted. *)
Definition lru_unbounded : lru.Cache ByteView :=
  lru.mkCache 0 30
    [lru.mkElement 1 "k2" v8; lru.mkElement 2 "k3" v8; lru.mkElement 0 "k1" v8]
    (<["k1" := 0%nat]> (<["k2" := 1%nat]> (<["k3" := 2%nat]> ∅))) true 3 [].

(** Three callers of [Do] on one key. *)
Definition callers : list string := ["k"; "k"; "k"]%string.

Definition answer : singleflight.result nat string := (Some 7%nat, None).
Definition failure : singleflight.result nat string := (None, Some "boom"%string).

Definition flight_sched : list (nat * singleflight.action nat string) :=
  [(0, singleflight.Enter); (1, singleflight.Enter);
   (0, singleflight.Return answer); (2, singleflight.Enter);
   (0, singleflight.Done); (1, singleflight.Wake);
   (0, singleflight.Delete); (2, singleflight.Wake)]%nat.

Definition flight_end : singleflight.state nat string :=
  singleflight.mkState ∅ [singleflight.mkCall 0 answer]
    [("k"%string, singleflight.Returned 0 answer);
     ("k"%string, singleflight.Returned 0 answer);
     ("k"%string, singleflight.Returned 0 answer)]
    [(0, "k"%string, 0)]%nat.

(** The producer is inside [fn], a second caller waits. *)
Definition flight_mid : singleflight.state nat string :=
  singleflight.mkState (<["k"%string := 0%nat]> ∅)
    [singleflight.mkCall 1 (None, None)]
    [("k"%string, singleflight.Running 0);
     ("k"%string, singleflight.Waiting 0);
     ("k"%string, singleflight.Start)]
    [(0, "k"%string, 0)]%nat.

(** The same, after [fn] has panicked. *)
Definition flight_panicked : singleflight.state nat string :=
  singleflight.mkState (<["k"%string := 0%nat]> ∅)
    [singleflight.mkCall 1 (None, None)]
    [("k"%string, singleflight.Panicked 0);
     ("k"%string, singleflight.Waiting 0);
     ("k"%string, singleflight.Start)]
    [(0, "k"%string, 0)]%nat.

(** A group whose picker names one peer; the world counts the calls
    made to the outside. *)
Definition peer_up : kcache.PeerGetter nat :=
  λ _ _ w, (inl [Byte.x36; Byte.x33; Byte.x30], S w).
Definition peer_down : kcache.PeerGetter nat :=
  λ _ _ w, (inr "connection refused"%string, S w).
Definition origin_down : kcache.Getter nat :=
  λ key w, (inr (key +:+ " not exist")%string, S w).

Definition origin_up : kcache.Getter nat :=
  λ key w, (inl [Byte.x35; Byte.x38; Byte.x39], S w).

(** A group without peers, as [NewGroup] builds it, over an origin that
    answers. *)
Definition group_alone (cacheBytes : Z) : kcache.St nat :=
  kcache.mkSt 0%nat
    (kcache.mkGroup "scores" origin_up (kcache.mkcache None cacheBytes) None ∅)
    [].

(** A server on which [NewGroup] has registered that group. *)
Definition srv_scores : server.Srv nat :=
  server.mkSrv 0%nat
    [kcache.mkGroup "scores" origin_up (kcache.mkcache None 1024) None ∅]
    (<["scores"%string := 0%nat]> ∅) [].

Definition group_with (peer : kcache.PeerGetter nat) : kcache.St nat :=
  kcache.mkSt 0%nat
    (kcache.mkGroup "scores" origin_down (kcache.mkcache None 1024)
                    (Some (λ _, Some peer)) ∅)
    [].

(** An origin whose data changes: every answer is one byte longer than
    the one before. *)
Definition origin_changing : kcache.Getter nat :=
  λ key w, (inl (replicate (S w) Byte.x76), S w).

Definition group_changing : kcache.Group nat :=
  kcache.mkGroup "scores" origin_changing (kcache.mkcache None 1024) None ∅.

(** Two callers of [Get] miss the cache; the second enters [Do] while
    the first is inside the loader. *)
Definition joined_sched : list (nat * concurrent.action) :=
  [(0, concurrent.Check); (1, concurrent.Check);
   (0, concurrent.Flight singleflight.Enter);
   (1, concurrent.Flight singleflight.Enter); (0, concurrent.AskLoader);
   (0, concurrent.Populate); (0, concurrent.FnReturn);
   (0, concurrent.Flight singleflight.Done);
   (1, concurrent.Flight singleflight.Wake);
   (0, concurrent.Flight singleflight.Delete)]%nat.

Definition joined_end : concurrent.state nat :=
  concurrent.mkState
    (singleflight.mkState ∅
       [singleflight.mkCall 0 (Some (mkByteView [Byte.x76]), None)]
       [("k"%string, singleflight.Returned 0 (Some (mkByteView [Byte.x76]), None));
        ("k"%string, singleflight.Returned 0 (Some (mkByteView [Byte.x76]), None))]
       [(0, "k"%string, 0)]%nat)
    [concurrent.Missed (concurrent.Ready (Some (mkByteView [Byte.x76]), None));
     concurrent.Missed concurrent.FnStart]
    (kcache.mkcache
       (Some (lru.mkCache 1024 2 [lru.mkElement 0 "k" (mkByteView [Byte.x76])]
                (<["k"%string := 0%nat]> ∅) false 1 []))
       1024)
    1%nat [(0, "k"%string, 0)]%nat.

(** The same two callers; the second enters [Do] after the first has
    deleted its call record. *)
Definition late_sched : list (nat * concurrent.action) :=
  [(0, concurrent.Check); (1, concurrent.Check);
   (0, concurrent.Flight singleflight.Enter); (0, concurrent.AskLoader);
   (0, concurrent.Populate); (0, concurrent.FnReturn);
   (0, concurrent.Flight singleflight.Done);
   (0, concurrent.Flight singleflight.Delete);
   (1, concurrent.Flight singleflight.Enter); (1, concurrent.AskLoader);
   (1, concurrent.Populate); (1, concurrent.FnReturn);
   (1, concurrent.Flight singleflight.Done);
   (1, concurrent.Flight singleflight.Delete)]%nat.

(** Scenario 5 of the specification: the peer fails, the origin answers. *)
Definition group_fallback : kcache.St nat :=
  kcache.mkSt 0%nat
    (kcache.mkGroup "scores" origin_up (kcache.mkcache None 1024)
                    (Some (λ _, Some peer_down)) ∅)
    [].

End samples.

(** * Proofs *)

(** ** Machine integers *)

Lemma int64_id z : - 2 ^ 63 ≤ z ≤ max_int64 → int64 z = z.
Proof.
  unfold int64, max_int64. intros Hz.
  rewrite Z.mod_small; lia.
Qed.

Lemma uint32_range z : 0 ≤ uint32 z < 2 ^ 32.
Proof. unfold uint32. apply Z.mod_pos_bound. lia. Qed.

(** ** ByteView *)

Lemma cloneBytes_eq bs : byteview.cloneBytes bs = bs.
Proof.
  unfold byteview.cloneBytes, byteview.copy.
  rewrite length_replicate, firstn_all.
  rewrite drop_ge by (rewrite length_replicate; lia).
  apply app_nil_r.
Qed.

(** ** The LRU engine *)

Section lru_lists.
Import lru.
Context {V : Type} `{!Value V}.
Implicit Types (l : list (Element V)) (e : Element V) (p : nat).

Lemma len_nonneg s : 0 ≤ len s.
Proof. unfold len. lia. Qed.

Lemma size_nonneg e : 0 ≤ size e.
Proof. unfold size. pose proof (len_nonneg (key e)). pose proof (Len_nonneg (value e)). lia. Qed.

Lemma live_bytes_nonneg l : 0 ≤ live_bytes l.
Proof.
  induction l as [|e l IH]; simpl; [lia|].
  pose proof (size_nonneg e). lia.
Qed.

Lemma live_bytes_app l1 l2 :
  live_bytes (l1 ++ l2) = live_bytes l1 + live_bytes l2.
Proof. induction l1 as [|e l1 IH]; simpl; lia. Qed.

Lemma live_bytes_perm l1 l2 : l1 ≡ₚ l2 → live_bytes l1 = live_bytes l2.
Proof. induction 1; simpl; lia. Qed.

Lemma deref_Some p l e : deref p l = Some e → addr e = p ∧ e ∈ l.
Proof.
  induction l as [|x l IH]; simpl; [done|].
  case_decide.
  - intros [= ->]. split; [done|]. apply list_elem_of_here.
  - intros Hd. destruct (IH Hd) as [? ?]. split; [done|]. by apply list_elem_of_further.
Qed.

Lemma deref_None p l : deref p l = None ↔ p ∉ addr <$> l.
Proof.
  induction l as [|x l IH]; simpl.
  - split; [|done]. intros _. apply not_elem_of_nil.
  - case_decide as Hx.
    + split; [done|]. intros Hn. exfalso. apply Hn. rewrite Hx. apply list_elem_of_here.
    + rewrite IH, not_elem_of_cons.
      split; [intros ?; split; [congruence|done]|by intros [_ ?]].
Qed.

Lemma deref_elem l e : NoDup (addr <$> l) → e ∈ l → deref (addr e) l = Some e.
Proof.
  induction l as [|x l IH]; simpl; intros Hnd Hin.
  - by apply elem_of_nil in Hin.
  - apply NoDup_cons in Hnd as [Hx Hnd].
    apply elem_of_cons in Hin as [->|Hin].
    + by rewrite decide_True.
    + rewrite decide_False; [by apply IH|].
      intros Heq. apply Hx. rewrite Heq. by apply list_elem_of_fmap_2.
Qed.

Lemma Remove_perm p l e : deref p l = Some e → l ≡ₚ e :: Remove p l.
Proof.
  induction l as [|x l IH]; simpl; [done|].
  case_decide.
  - by intros [= ->].
  - intros Hd. rewrite (IH Hd) at 1. apply Permutation_swap.
Qed.

Lemma Remove_absent p l : p ∉ addr <$> l → Remove p l = l.
Proof.
  induction l as [|x l IH]; simpl; [done|].
  rewrite not_elem_of_cons. intros [Hx Hl].
  rewrite decide_False by done. f_equal. by apply IH.
Qed.

Lemma Remove_snoc l e : NoDup (addr <$> (l ++ [e])) → Remove (addr e) (l ++ [e]) = l.
Proof.
  induction l as [|x l IH]; simpl; intros Hnd.
  - by rewrite decide_True.
  - apply NoDup_cons in Hnd as [Hx Hnd].
    rewrite decide_False; [by rewrite IH|].
    intros Heq. apply Hx. rewrite Heq, fmap_app. apply elem_of_app. right.
    apply list_elem_of_here.
Qed.

Lemma Remove_sublist p l : Remove p l `sublist_of` l.
Proof.
  induction l as [|x l IH]; simpl; [done|].
  case_decide; [by apply sublist_cons|by apply sublist_skip].
Qed.

Lemma Remove_length l e : e ∈ l → length l = S (length (Remove (addr e) l)).
Proof.
  induction l as [|x l IH]; simpl; intros Hin.
  - by apply elem_of_nil in Hin.
  - case_decide as Hx; [done|]. simpl. f_equal. apply IH.
    apply elem_of_cons in Hin as [->|]; [done|done].
Qed.

Lemma MoveToFront_perm p l : MoveToFront p l ≡ₚ l.
Proof.
  unfold MoveToFront. destruct (deref p l) as [e|] eqn:Hd; [|done].
  symmetry. by apply Remove_perm.
Qed.

Lemma set_value_absent p v l : p ∉ addr <$> l → set_value p v l = l.
Proof.
  unfold set_value.
  induction l as [|x l IH]; simpl; [done|].
  rewrite not_elem_of_cons. intros [Hx Hl].
  rewrite decide_False by done. f_equal. by apply IH.
Qed.

End lru_lists.

Section lru_invariant.
Import lru.
Context {V : Type} `{!Value V}.
Implicit Types (c : Cache V) (l : list (Element V)) (e : Element V).

Lemma wf_New maxB ev : wf (New (V:=V) maxB ev).
Proof.
  constructor; simpl.
  - apply NoDup_nil_2.
  - apply NoDup_nil_2.
  - intros k p. rewrite lookup_empty. split; [done|].
    intros (e & He & _). by apply elem_of_nil in He.
  - intros e He. by apply elem_of_nil in He.
  - done.
  - unfold max_int64. lia.
Qed.

Lemma wf_nbytes_range c : wf c → 0 ≤ nbytes c ≤ max_int64.
Proof.
  intros Hwf. rewrite (wf_nbytes c Hwf).
  split; [apply live_bytes_nonneg|apply (wf_range c Hwf)].
Qed.

Lemma wf_addr_inj c e1 e2 :
  wf c → e1 ∈ ll c → e2 ∈ ll c → addr e1 = addr e2 → e1 = e2.
Proof.
  intros Hwf H1 H2 Heq.
  pose proof (deref_elem _ _ (wf_addrs c Hwf) H1) as D1.
  pose proof (deref_elem _ _ (wf_addrs c Hwf) H2) as D2.
  rewrite Heq in D1. congruence.
Qed.

(** A hit in the index resolves to the linked element of that key. *)
Lemma wf_lookup c k p :
  wf c → cache c !! k = Some p →
  ∃ e, deref p (ll c) = Some e ∧ e ∈ ll c ∧ addr e = p ∧ key e = k.
Proof.
  intros Hwf Hk. apply (wf_index c Hwf) in Hk as (e & He & Hp & Hkey).
  exists e. split; [|done]. rewrite <- Hp. apply deref_elem; [apply Hwf|done].
Qed.

(** A miss in the index means that no linked element has the key. *)
Lemma wf_miss c k : wf c → cache c !! k = None → k ∉ key <$> ll c.
Proof.
  intros Hwf Hk Hin. apply list_elem_of_fmap in Hin as (e & -> & He).
  assert (cache c !! key e = Some (addr e)) as Hs
    by (apply (wf_index c Hwf); eauto).
  congruence.
Qed.

(** Reordering the list keeps the invariant. *)
Lemma wf_reorder c l :
  wf c → l ≡ₚ ll c →
  wf (mkCache (maxBytes c) (nbytes c) l (cache c) (OnEvicted c)
              (fresh c) (evictions c)).
Proof.
  intros Hwf Hl. constructor; simpl.
  - rewrite Hl. apply Hwf.
  - rewrite Hl. apply Hwf.
  - intros k p. rewrite (wf_index c Hwf). by setoid_rewrite Hl.
  - intros e. rewrite Hl. apply Hwf.
  - rewrite (live_bytes_perm _ _ Hl). apply Hwf.
  - rewrite (live_bytes_perm _ _ Hl). apply Hwf.
Qed.

Lemma Get_wf c k : wf c → wf (snd (Get c k)).
Proof.
  intros Hwf. unfold Get.
  destruct (cache c !! k) as [p|]; [|done].
  destruct (deref p (ll c)) as [e|] eqn:Hd; [|done].
  simpl. apply wf_reorder; [done|]. apply MoveToFront_perm.
Qed.

Lemma Get_frame c k :
  maxBytes (snd (Get c k)) = maxBytes c ∧ nbytes (snd (Get c k)) = nbytes c.
Proof.
  unfold Get. destruct (cache c !! k) as [p|]; [|done].
  by destruct (deref p (ll c)).
Qed.

(** What [removeOldest] does to a well-formed cache with a last
    element. *)
Lemma removeOldest_snoc c l e :
  wf c → ll c = l ++ [e] →
  removeOldest c =
    mkCache (maxBytes c) (nbytes c - size e) l (delete (key e) (cache c))
            (OnEvicted c) (fresh c)
            (if OnEvicted c then evictions c ++ [(key e, value e)]
             else evictions c).
Proof.
  intros Hwf Hl. unfold removeOldest, Back. rewrite Hl, last_snoc.
  pose proof (wf_addrs c Hwf) as Hnd. rewrite Hl in Hnd.
  rewrite (Remove_snoc _ _ Hnd).
  pose proof (wf_nbytes_range c Hwf) as Hn.
  pose proof (wf_nbytes c Hwf) as Hb. rewrite Hl, live_bytes_app in Hb.
  simpl in Hb. pose proof (live_bytes_nonneg l) as Hl0.
  pose proof (len_nonneg (key e)) as Hk. pose proof (Len_nonneg (value e)) as Hv.
  unfold size in *.
  rewrite (int64_id (len (key e))) by (unfold max_int64 in *; lia).
  rewrite (int64_id (Len (value e))) by (unfold max_int64 in *; lia).
  rewrite (int64_id (len (key e) + Len (value e))) by (unfold max_int64 in *; lia).
  rewrite (int64_id (nbytes c - _)) by (unfold max_int64 in *; lia).
  done.
Qed.

Lemma removeOldest_nil c : ll c = [] → removeOldest c = c.
Proof. intros Hl. unfold removeOldest, Back. by rewrite Hl. Qed.

Lemma removeOldest_wf c : wf c → wf (removeOldest c).
Proof.
  intros Hwf. destruct (ll c) as [|x l0] eqn:Hll using rev_ind.
  { by rewrite removeOldest_nil. }
  clear IHl0. rename x into e, l0 into l.
  rewrite (removeOldest_snoc c l e Hwf Hll).
  pose proof (wf_addrs c Hwf) as Hna. pose proof (wf_keys c Hwf) as Hnk.
  rewrite Hll, fmap_app in Hna. rewrite Hll, fmap_app in Hnk.
  apply NoDup_app in Hna as (Hna & _ & _).
  apply NoDup_app in Hnk as (Hnk & Hke & _).
  constructor; simpl; [done|done| | | |].
  - intros k p. destruct (decide (k = key e)) as [->|Hne].
    + rewrite lookup_delete_eq. split; [done|].
      intros (e' & He' & _ & Hk). exfalso.
      apply (Hke (key e)); [rewrite <- Hk; by apply list_elem_of_fmap_2|].
      simpl. apply list_elem_of_here.
    + rewrite lookup_delete_ne by done. rewrite (wf_index c Hwf), Hll.
      split; intros (e' & He' & Hp & Hk); exists e'.
      * split; [|done]. apply elem_of_app in He' as [|He']; [done|].
        apply list_elem_of_singleton in He'. subst. done.
      * split; [|done]. apply elem_of_app. by left.
  - intros e' He'. apply (wf_fresh c Hwf). rewrite Hll. apply elem_of_app. by left.
  - rewrite (wf_nbytes c Hwf), Hll, live_bytes_app. simpl. lia.
  - pose proof (wf_range c Hwf) as Hr. rewrite Hll, live_bytes_app in Hr.
    simpl in Hr. pose proof (size_nonneg e). lia.
Qed.

Lemma removeOldest_frame c : maxBytes (removeOldest c) = maxBytes c.
Proof. unfold removeOldest. by destruct (Back (ll c)). Qed.

Lemma removeOldest_nbytes_le c : wf c → nbytes (removeOldest c) ≤ nbytes c.
Proof.
  intros Hwf. destruct (ll c) as [|x l0] eqn:Hll using rev_ind.
  { rewrite removeOldest_nil by done. lia. }
  rewrite (removeOldest_snoc c l0 x Hwf Hll). simpl.
  pose proof (size_nonneg x). lia.
Qed.

End lru_invariant.

Section lru_add.
Import lru.
Context {V : Type} `{!Value V}.
Implicit Types (c : Cache V) (l : list (Element V)) (e : Element V).

(** The first half of [Add] on a key that is present: the element is
    moved to the front with its value replaced. *)
Lemma insert_present c k v p e :
  wf c → cache c !! k = Some p → deref p (ll c) = Some e →
  insert c k v =
    mkCache (maxBytes c)
            (int64 (nbytes c + int64 (int64 (Len v) - int64 (Len (value e)))))
            (mkElement p k v :: Remove p (ll c))
            (cache c) (OnEvicted c) (fresh c) (evictions c)
  ∧ ll c ≡ₚ e :: Remove p (ll c) ∧ addr e = p ∧ key e = k.
Proof.
  intros Hwf Hk Hd.
  destruct (wf_lookup c k p Hwf Hk) as (e' & Hd' & He & Hp & Hkey).
  assert (e' = e) as -> by congruence.
  pose proof (Remove_perm _ _ _ Hd) as Hperm.
  split; [|done].
  unfold insert. rewrite Hk, Hd. f_equal.
  unfold MoveToFront. rewrite Hd.
  pose proof (wf_addrs c Hwf) as Hnd. rewrite Hperm, fmap_cons in Hnd.
  apply NoDup_cons in Hnd as [Hnotin _]. rewrite Hp in Hnotin.
  change (set_value p v (e :: Remove p (ll c)))
    with ((if decide (addr e = p) then mkElement (addr e) (key e) v else e)
            :: set_value p v (Remove p (ll c))).
  rewrite decide_True by done.
  rewrite set_value_absent by done. by rewrite Hp, Hkey.
Qed.

Lemma insert_absent c k v :
  cache c !! k = None →
  insert c k v =
    mkCache (maxBytes c)
            (int64 (nbytes c + int64 (int64 (len k) + int64 (Len v))))
            (mkElement (fresh c) k v :: ll c)
            (<[k := fresh c]> (cache c))
            (OnEvicted c) (S (fresh c)) (evictions c).
Proof. intros Hk. unfold insert. by rewrite Hk. Qed.

Lemma insert_frame c k v : maxBytes (insert c k v) = maxBytes c.
Proof.
  unfold insert. destruct (cache c !! k) as [p|]; [|done].
  by destruct (deref p (ll c)).
Qed.

(** After the first half of [Add] the entry is at the front, and what
    follows it is what was there before, in the same order. *)
Lemma insert_front c k v :
  wf c →
  ∃ p rest, ll (insert c k v) = mkElement p k v :: rest
            ∧ rest `sublist_of` ll c.
Proof.
  intros Hwf. destruct (cache c !! k) as [p|] eqn:Hk.
  - destruct (wf_lookup c k p Hwf Hk) as (e & Hd & _).
    destruct (insert_present c k v p e Hwf Hk Hd) as (-> & _).
    exists p, (Remove p (ll c)). split; [done|]. apply Remove_sublist.
  - rewrite (insert_absent c k v Hk). by exists (fresh c), (ll c).
Qed.

Lemma insert_wf c k v : wf c → fits c k v → wf (insert c k v).
Proof.
  intros Hwf Hfit. unfold fits in Hfit.
  pose proof (wf_nbytes_range c Hwf) as Hn.
  pose proof (wf_nbytes c Hwf) as Hb.
  pose proof (len_nonneg k) as Hk0. pose proof (Len_nonneg v) as Hv0.
  destruct (cache c !! k) as [p|] eqn:Hk.
  - destruct (wf_lookup c k p Hwf Hk) as (e & Hd & _).
    destruct (insert_present c k v p e Hwf Hk Hd) as (-> & Hperm & Hp & Hkey).
    pose proof (wf_addrs c Hwf) as Hna. pose proof (wf_keys c Hwf) as Hnk.
    rewrite Hperm, fmap_cons in Hna. rewrite Hperm, fmap_cons in Hnk.
    rewrite Hp in Hna. rewrite Hkey in Hnk.
    pose proof (live_bytes_perm _ _ Hperm) as Hlb. simpl in Hlb.
    pose proof (live_bytes_nonneg (Remove p (ll c))) as Hr0.
    pose proof (Len_nonneg (value e)) as Hve.
    assert (size e = len k + Len (value e)) as Hse by (unfold size; by rewrite Hkey).
    assert (∀ x, x ∈ ll c ↔ x = e ∨ x ∈ Remove p (ll c)) as Hmem.
    { intros x. rewrite <- elem_of_cons.
      split; intros Hx; [by rewrite <- Hperm|by rewrite Hperm]. }
    constructor; simpl; [done|done| | | |].
    + intros k' p'. rewrite (wf_index c Hwf).
      split; intros (e' & He' & Hp' & Hk').
      * apply Hmem in He' as [->|He'].
        -- exists (mkElement p k v). split; [apply list_elem_of_here|].
           simpl. split; congruence.
        -- exists e'. split; [by apply list_elem_of_further|done].
      * apply elem_of_cons in He' as [->|He'].
        -- exists e. split; [apply Hmem; by left|].
           simpl in *. split; congruence.
        -- exists e'. split; [apply Hmem; by right|done].
    + intros e' He'. apply elem_of_cons in He' as [->|He'].
      * simpl. rewrite <- Hp. apply (wf_fresh c Hwf). apply Hmem. by left.
      * apply (wf_fresh c Hwf). apply Hmem. by right.
    + unfold size at 1. simpl.
      rewrite (int64_id (Len v)) by (unfold max_int64 in *; lia).
      rewrite (int64_id (Len (value e))) by (unfold max_int64 in *; lia).
      rewrite (int64_id (Len v - _)) by (unfold max_int64 in *; lia).
      rewrite int64_id by (unfold max_int64 in *; lia). lia.
    + unfold size at 1. simpl. lia.
  - rewrite (insert_absent c k v Hk).
    pose proof (wf_miss c k Hwf Hk) as Hmiss.
    constructor; simpl.
    + apply NoDup_cons. split; [|apply Hwf].
      intros Hin. apply list_elem_of_fmap in Hin as (e & Hfe & He).
      pose proof (wf_fresh c Hwf e He). lia.
    + apply NoDup_cons. split; [done|apply Hwf].
    + intros k' p'. destruct (decide (k' = k)) as [->|Hne].
      * rewrite lookup_insert_eq. split.
        -- intros [= <-]. exists (mkElement (fresh c) k v).
           split; [apply list_elem_of_here|done].
        -- intros (e & He & Hp & Hke).
           apply elem_of_cons in He as [->|He]; [simpl in *; congruence|].
           exfalso. apply Hmiss. rewrite <- Hke. by apply list_elem_of_fmap_2.
      * rewrite lookup_insert_ne by done. rewrite (wf_index c Hwf).
        split; intros (e & He & Hp & Hke); exists e.
        -- split; [by apply list_elem_of_further|done].
        -- split; [|done]. apply elem_of_cons in He as [->|He]; [|done].
           simpl in *. congruence.
    + intros e He. apply elem_of_cons in He as [->|He]; simpl; [lia|].
      pose proof (wf_fresh c Hwf e He). lia.
    + unfold size at 1. simpl.
      rewrite (int64_id (len k)) by (unfold max_int64 in *; lia).
      rewrite (int64_id (Len v)) by (unfold max_int64 in *; lia).
      rewrite (int64_id (len k + _)) by (unfold max_int64 in *; lia).
      rewrite int64_id by (unfold max_int64 in *; lia). lia.
    + unfold size at 1. simpl. lia.
Qed.

End lru_add.

Section lru_loops.
Import lru.
Context {V : Type} `{!Value V}.
Implicit Types (c : Cache V) (l : list (Element V)) (e : Element V).

Lemma removeOldest_prefix c : wf c → ll (removeOldest c) `prefix_of` ll c.
Proof.
  intros Hwf. destruct (ll c) as [|x l0] eqn:Hll using rev_ind.
  { rewrite removeOldest_nil by done. by rewrite Hll. }
  rewrite (removeOldest_snoc c l0 x Hwf Hll). simpl. by exists [x].
Qed.

Lemma removeOldest_length c :
  length (ll (removeOldest c)) = pred (length (ll c)).
Proof.
  unfold removeOldest, Back. destruct (last (ll c)) as [e|] eqn:Hlast; simpl.
  - apply last_Some_elem_of in Hlast.
    by rewrite (Remove_length _ _ Hlast).
  - apply last_None in Hlast. by rewrite Hlast.
Qed.

(** What the eviction loop has established when it exits. *)
Lemma evict_Some fuel c c' :
  wf c → evict fuel c = Some c' →
  wf c' ∧ maxBytes c' = maxBytes c
  ∧ ¬ (maxBytes c' ≠ 0 ∧ nbytes c' > maxBytes c')
  ∧ ll c' `prefix_of` ll c.
Proof.
  revert c. induction fuel as [|fuel IH]; intros c Hwf; simpl;
    case_bool_decide as Hcond; try done.
  - intros [= <-]. done.
  - intros Hev.
    destruct (IH _ (removeOldest_wf c Hwf) Hev) as (Hwf' & Hmax & Hexit & Hpre).
    rewrite removeOldest_frame in Hmax. split_and!; [done..|].
    etrans; [done|]. by apply removeOldest_prefix.
  - intros [= <-]. done.
Qed.

(** With a budget that is not negative the loop ends within as many
    rounds as there are entries. *)
Lemma evict_total fuel c :
  wf c → 0 ≤ maxBytes c → (length (ll c) < fuel)%nat →
  is_Some (evict fuel c).
Proof.
  revert c. induction fuel as [|fuel IH]; intros c Hwf Hmax Hlen; [lia|].
  simpl. case_bool_decide as Hcond; [|done].
  apply IH.
  - by apply removeOldest_wf.
  - by rewrite removeOldest_frame.
  - rewrite removeOldest_length.
    destruct (ll c) as [|x l] eqn:Hll; simpl in *; [|lia].
    pose proof (wf_nbytes c Hwf) as Hn. rewrite Hll in Hn. simpl in Hn. lia.
Qed.

(** Running out of that much fuel is a loop that never exits: the list
    is empty, every further round leaves the state as it is, and the
    loop condition still holds. *)
Lemma evict_stuck c n :
  ll c = [] → maxBytes c ≠ 0 ∧ nbytes c > maxBytes c → evict n c = None.
Proof.
  intros Hnil Hcond. induction n as [|n IH]; simpl;
    rewrite bool_decide_eq_true_2 by done; [done|].
  by rewrite removeOldest_nil.
Qed.

Lemma evict_diverges fuel c :
  (length (ll c) < fuel)%nat → evict fuel c = None → ∀ n, evict n c = None.
Proof.
  revert c. induction fuel as [|fuel IH]; intros c Hlen; [lia|].
  simpl. case_bool_decide as Hcond; [|done].
  intros Hev n. destruct (ll c) as [|x l] eqn:Hll.
  - by apply evict_stuck.
  - destruct n as [|n]; simpl; rewrite bool_decide_eq_true_2 by done; [done|].
    apply IH; [|done]. rewrite removeOldest_length, Hll. simpl in *. lia.
Qed.

Lemma clear_spec fuel c :
  wf c → (length (ll c) ≤ fuel)%nat →
  ∃ c', clear fuel c = Some c' ∧ wf c' ∧ ll c' = [] ∧ maxBytes c' = maxBytes c.
Proof.
  revert c. induction fuel as [|fuel IH]; intros c Hwf Hlen.
  - destruct (ll c) as [|x l] eqn:Hll; simpl in Hlen; [|lia].
    exists c. simpl. by rewrite Hll.
  - simpl. destruct (ll c) as [|x l] eqn:Hll; [by exists c|].
    destruct (IH (removeOldest c)) as (c' & Hc' & Hwf' & Hnil & Hmax).
    + by apply removeOldest_wf.
    + rewrite removeOldest_length, Hll. simpl in *. lia.
    + exists c'. by rewrite <- (removeOldest_frame c).
Qed.

Lemma wf_empty c : wf c → ll c = [] → nbytes c = 0 ∧ cache c = ∅.
Proof.
  intros Hwf Hnil. split.
  - rewrite (wf_nbytes c Hwf), Hnil. done.
  - apply map_eq. intros k. rewrite lookup_empty.
    destruct (cache c !! k) as [p|] eqn:Hk; [|done].
    apply (wf_index c Hwf) in Hk as (e & He & _).
    rewrite Hnil in He. by apply elem_of_nil in He.
Qed.

Lemma Add_Some c k v c' :
  wf c → fits c k v → Add c k v = Some c' →
  wf c' ∧ maxBytes c' = maxBytes c
  ∧ ¬ (maxBytes c' ≠ 0 ∧ nbytes c' > maxBytes c')
  ∧ ll c' `prefix_of` ll (insert c k v).
Proof.
  intros Hwf Hfit Hadd. unfold Add in Hadd.
  apply evict_Some in Hadd; [|by apply insert_wf].
  by rewrite insert_frame in Hadd.
Qed.

Lemma Add_total c k v :
  wf c → fits c k v → 0 ≤ maxBytes c → is_Some (Add c k v).
Proof.
  intros Hwf Hfit Hmax. unfold Add. apply evict_total.
  - by apply insert_wf.
  - by rewrite insert_frame.
  - lia.
Qed.

(** An [Add] without result is an eviction loop that never exits. *)
Lemma Add_None_diverges c k v :
  Add c k v = None → ∀ n, evict n (insert c k v) = None.
Proof. unfold Add. apply evict_diverges. lia. Qed.

Lemma lru_step_inv c op c' :
  wf c → within_budget c → op_fits c op → step c op = Some c' →
  wf c' ∧ within_budget c' ∧ maxBytes c' = maxBytes c.
Proof.
  intros Hwf Hbud Hfit Hstep. destruct op as [k v|k| |]; simpl in *.
  - destruct (Add_Some c k v c' Hwf Hfit Hstep) as (Hwf' & Hmax & Hexit & _).
    split_and!; [done| |done]. unfold within_budget. intros Hpos.
    destruct (decide (nbytes c' ≤ maxBytes c')); [done|].
    exfalso. apply Hexit. lia.
  - injection Hstep as <-. destruct (Get_frame c k) as [Hm Hn].
    split_and!; [by apply Get_wf| |done].
    unfold within_budget. rewrite Hm, Hn. apply Hbud.
  - injection Hstep as <-. unfold RemoveOldest.
    split_and!; [by apply removeOldest_wf| |apply removeOldest_frame].
    unfold within_budget. rewrite removeOldest_frame. intros Hpos.
    pose proof (removeOldest_nbytes_le c Hwf). specialize (Hbud Hpos). lia.
  - unfold Clear in Hstep.
    destruct (clear_spec (length (ll c)) c Hwf) as (c'' & Hc & Hwf' & Hnil & Hmax);
      [lia|].
    assert (c'' = c') as -> by congruence.
    split_and!; [done| |done]. unfold within_budget.
    destruct (wf_empty c' Hwf' Hnil) as [-> _]. lia.
Qed.

Lemma lru_run_inv c ops c' :
  wf c → within_budget c → within_int64 c ops → run c ops = Some c' →
  wf c' ∧ within_budget c' ∧ maxBytes c' = maxBytes c.
Proof.
  revert c. induction ops as [|op ops IH]; intros c Hwf Hbud Hfit Hrun;
    simpl in *.
  - by injection Hrun as <-.
  - destruct Hfit as [Hop Hfit].
    destruct (step c op) as [c1|] eqn:Hstep; [|done].
    destruct (lru_step_inv c op c1 Hwf Hbud Hop Hstep) as (Hwf1 & Hbud1 & Hmax1).
    destruct (IH c1 Hwf1 Hbud1 Hfit Hrun) as (? & ? & ?).
    split_and!; [done..|congruence].
Qed.

(** Every operation returns when the budget is not negative. *)
Lemma lru_step_total c op :
  wf c → op_fits c op → 0 ≤ maxBytes c → is_Some (step c op).
Proof.
  intros Hwf Hfit Hmax. destruct op as [k v|k| |]; simpl; try done.
  - by apply Add_total.
  - destruct (clear_spec (length (ll c)) c Hwf) as (c' & Hc & _); [lia|].
    unfold Clear. by rewrite Hc.
Qed.

Lemma lru_run_total c ops :
  wf c → within_budget c → within_int64 c ops → 0 ≤ maxBytes c →
  is_Some (run c ops).
Proof.
  revert c. induction ops as [|op ops IH]; intros c Hwf Hbud Hfit Hmax;
    simpl in *; [done|].
  destruct Hfit as [Hop Hfit].
  destruct (lru_step_total c op Hwf Hop Hmax) as [c1 Hstep]. rewrite Hstep in *.
  destruct (lru_step_inv c op c1 Hwf Hbud Hop Hstep) as (Hwf1 & Hbud1 & Hmax1).
  apply IH; [done..|lia].
Qed.

Lemma budget_New maxB ev : within_budget (New (V:=V) maxB ev).
Proof. unfold within_budget. simpl. lia. Qed.

End lru_loops.

Section lru_recency.
Import lru.
Context {V : Type} `{!Value V}.
Implicit Types (c : Cache V) (e : Element V).
Implicit Types (log ks : list string) (k : string).

Lemma last_occurrence log k :
  k ∈ log → ∃ l1 l2, log = l1 ++ k :: l2 ∧ k ∉ l2.
Proof.
  induction log as [|x log IH]; intros Hin.
  - by apply elem_of_nil in Hin.
  - destruct (decide (k ∈ log)) as [Hk|Hk].
    + destruct (IH Hk) as (l1 & l2 & -> & Hl2). by exists (x :: l1), l2.
    + apply elem_of_cons in Hin as [->|]; [|done]. by exists [], log.
Qed.

Lemma accessed_after_snoc_new log k k2 :
  k2 ∈ log → k2 ≠ k → accessed_after (log ++ [k]) k k2.
Proof.
  intros Hin Hne. destruct (last_occurrence log k2 Hin) as (l1 & l2 & -> & Hl2).
  exists l1, (l2 ++ [k]). split_and!.
  - by rewrite <- app_assoc.
  - rewrite elem_of_app, list_elem_of_singleton. intros [?|?]; done.
  - rewrite elem_of_app, list_elem_of_singleton. by right.
Qed.

Lemma accessed_after_snoc_old log k k1 k2 :
  accessed_after log k1 k2 → k2 ≠ k → accessed_after (log ++ [k]) k1 k2.
Proof.
  intros (l1 & l2 & -> & Hl2 & Hk1) Hne.
  exists l1, (l2 ++ [k]). split_and!.
  - by rewrite <- app_assoc.
  - rewrite elem_of_app, list_elem_of_singleton. intros [?|?]; done.
  - rewrite elem_of_app. by left.
Qed.

Lemma StronglySorted_sublist {A} (R : relation A) (l1 l2 : list A) :
  l1 `sublist_of` l2 → StronglySorted R l2 → StronglySorted R l1.
Proof.
  induction 1 as [|x l1 l2 Hsub IH|x l1 l2 Hsub IH]; intros Hs; [done|..].
  - apply StronglySorted_cons in Hs as [Hall Hs].
    apply StronglySorted_cons. split; [|by apply IH].
    rewrite Forall_forall in *. intros y Hy. apply Hall.
    by apply (elem_of_sublist l1).
  - apply StronglySorted_cons in Hs as [_ Hs]. by apply IH.
Qed.

Lemma prefix_sublist {A} (l1 l2 : list A) :
  l1 `prefix_of` l2 → l1 `sublist_of` l2.
Proof. intros [k ->]. by apply sublist_inserts_r. Qed.

Lemma by_last_access_sublist log ks ks' :
  by_last_access log ks → ks' `sublist_of` ks → by_last_access log ks'.
Proof.
  intros [Hs Hin] Hsub. split.
  - by apply (StronglySorted_sublist _ ks' ks).
  - intros k Hk. apply Hin. by apply (elem_of_sublist ks').
Qed.

Lemma by_last_access_keep log ks k :
  by_last_access log ks → k ∉ ks → by_last_access (log ++ [k]) ks.
Proof.
  intros [Hs Hin] Hk. split.
  - induction Hs as [|x ks Hs IH Hall]; [constructor|].
    apply not_elem_of_cons in Hk as [Hx Hk].
    constructor.
    + apply IH; [|done]. intros y Hy. apply Hin. by apply list_elem_of_further.
    + rewrite Forall_forall in *. intros y Hy.
      apply accessed_after_snoc_old; [by apply Hall|].
      intros ->. done.
  - intros y Hy. apply elem_of_app. left. by apply Hin.
Qed.

(** An access to [k] puts it in front of the keys accessed before. *)
Lemma by_last_access_touch log ks rest k :
  by_last_access log ks → rest `sublist_of` ks → k ∉ rest →
  by_last_access (log ++ [k]) (k :: rest).
Proof.
  intros Hks Hsub Hk.
  pose proof (by_last_access_sublist _ _ _ Hks Hsub) as Hrest.
  destruct (by_last_access_keep _ _ _ Hrest Hk) as [Hs Hin].
  split.
  - constructor; [done|]. rewrite Forall_forall. intros y Hy.
    apply accessed_after_snoc_new; [by apply Hrest|]. intros ->. done.
  - intros y Hy. apply elem_of_cons in Hy as [->|Hy]; [|by apply Hin].
    apply elem_of_app. right. apply list_elem_of_here.
Qed.

Lemma Get_hit c k v c' :
  wf c → Get c k = (Some v, c') →
  ∃ e, e ∈ ll c ∧ key e = k ∧ value e = v
       ∧ ll c' = e :: Remove (addr e) (ll c)
       ∧ ll c ≡ₚ e :: Remove (addr e) (ll c).
Proof.
  intros Hwf. unfold Get.
  destruct (cache c !! k) as [p|] eqn:Hk; [|done].
  destruct (wf_lookup c k p Hwf Hk) as (e & Hd & He & Hp & Hkey).
  rewrite Hd. intros [= <- <-]. exists e. simpl.
  unfold MoveToFront. rewrite Hd, Hp. split_and!; try done.
  by apply Remove_perm.
Qed.

Lemma Get_miss c k c' : Get c k = (None, c') → c' = c.
Proof.
  unfold Get. destruct (cache c !! k) as [p|]; [|congruence].
  destruct (deref p (ll c)); [done|congruence].
Qed.

Lemma lru_step_recency c op c' log :
  wf c → op_fits c op → step c op = Some c' →
  by_last_access log (key <$> ll c) →
  by_last_access (log ++ access c op) (key <$> ll c').
Proof.
  intros Hwf Hfit Hstep Hlog. destruct op as [k v|k| |]; simpl in *.
  - destruct (Add_Some c k v c' Hwf Hfit Hstep) as (_ & _ & _ & Hpre).
    destruct (insert_front c k v Hwf) as (p & rest & Hins & Hsub).
    pose proof (wf_keys _ (insert_wf c k v Hwf Hfit)) as Hnd.
    rewrite Hins, fmap_cons in Hnd. apply NoDup_cons in Hnd as [Hk _].
    apply (by_last_access_sublist _ (key <$> ll (insert c k v))).
    + rewrite Hins, fmap_cons. simpl.
      apply (by_last_access_touch _ (key <$> ll c)); [done| |done].
      by apply fmap_sublist.
    + apply fmap_sublist. by apply prefix_sublist.
  - injection Hstep as <-.
    destruct (Get c k) as [[v|] c1] eqn:Hget; simpl.
    + destruct (Get_hit c k v c1 Hwf Hget) as (e & He & Hkey & _ & -> & Hperm).
      pose proof (wf_keys c Hwf) as Hnd.
      rewrite Hperm, fmap_cons in Hnd. apply NoDup_cons in Hnd as [Hk _].
      rewrite fmap_cons, <- Hkey.
      apply (by_last_access_touch _ (key <$> ll c)); [done| |done].
      apply fmap_sublist, Remove_sublist.
    + rewrite (Get_miss c k c1 Hget), app_nil_r. done.
  - injection Hstep as <-. rewrite app_nil_r.
    apply (by_last_access_sublist _ (key <$> ll c)); [done|].
    apply fmap_sublist, prefix_sublist. by apply removeOldest_prefix.
  - unfold Clear in Hstep.
    destruct (clear_spec (length (ll c)) c Hwf) as (c'' & Hc & _ & Hnil & _);
      [lia|].
    assert (c'' = c') as -> by congruence.
    rewrite Hnil, app_nil_r. apply (by_last_access_sublist _ (key <$> ll c)); [done|].
    apply sublist_nil_l.
Qed.

Lemma lru_run_recency c ops c' log :
  wf c → within_budget c → within_int64 c ops → run c ops = Some c' →
  by_last_access log (key <$> ll c) →
  by_last_access (log ++ history c ops) (key <$> ll c').
Proof.
  revert c log. induction ops as [|op ops IH]; intros c log Hwf Hbud Hfit Hrun Hlog;
    simpl in *.
  - injection Hrun as <-. by rewrite app_nil_r.
  - destruct Hfit as [Hop Hfit].
    destruct (step c op) as [c1|] eqn:Hstep; [|done].
    destruct (lru_step_inv c op c1 Hwf Hbud Hop Hstep) as (Hwf1 & Hbud1 & _).
    rewrite app_assoc. apply IH; [done..|].
    by apply lru_step_recency.
Qed.

End lru_recency.

Section lru_claims.
Import lru.
Context {V : Type} `{!Value V}.
Implicit Types (c : Cache V) (e : Element V) (k : string) (v : V).

Lemma evict_exit n c :
  ¬ (maxBytes c ≠ 0 ∧ nbytes c > maxBytes c) → evict n c = Some c.
Proof. intros Hc. destruct n; simpl; by rewrite bool_decide_eq_false_2. Qed.

(** The loop never unlinks a front entry that fits the budget. *)
Lemma evict_keeps_front fuel c c' e0 rest :
  wf c → ll c = e0 :: rest →
  maxBytes c = 0 ∨ size e0 ≤ maxBytes c →
  evict fuel c = Some c' → ∃ rest', ll c' = e0 :: rest'.
Proof.
  revert c rest. induction fuel as [|fuel IH]; intros c rest Hwf Hll Hsz; simpl;
    case_bool_decide as Hcond; try done.
  - intros [= <-]. by exists rest.
  - destruct rest as [|x rest0 _] using rev_ind.
    { pose proof (wf_nbytes c Hwf) as Hn. rewrite Hll in Hn. simpl in Hn. lia. }
    assert (ll c = (e0 :: rest0) ++ [x]) as Hsnoc by (by rewrite Hll).
    apply (IH _ rest0).
    + by apply removeOldest_wf.
    + by rewrite (removeOldest_snoc c _ x Hwf Hsnoc).
    + by rewrite removeOldest_frame.
  - intros [= <-]. by exists rest.
Qed.

(** A front entry larger than a positive budget keeps the loop going
    until the list is empty. *)
Lemma evict_oversized fuel c e0 rest :
  wf c → ll c = e0 :: rest → 0 < maxBytes c → maxBytes c < size e0 →
  (length (ll c) < fuel)%nat →
  ∃ c', evict fuel c = Some c' ∧ wf c' ∧ ll c' = [].
Proof.
  revert c rest. induction fuel as [|fuel IH]; intros c rest Hwf Hll Hpos Hbig Hlen;
    [lia|].
  pose proof (wf_nbytes c Hwf) as Hn. rewrite Hll in Hn. simpl in Hn.
  pose proof (live_bytes_nonneg rest) as Hrest.
  simpl. rewrite bool_decide_eq_true_2 by lia.
  destruct rest as [|x rest0 _] using rev_ind.
  - assert (ll c = [] ++ [e0]) as Hsnoc by done.
    pose proof (removeOldest_wf c Hwf) as Hwf1.
    assert (ll (removeOldest c) = []) as Hnil
      by (by rewrite (removeOldest_snoc c _ e0 Hwf Hsnoc)).
    exists (removeOldest c). split_and!; [|done..].
    apply evict_exit. destruct (wf_empty _ Hwf1 Hnil) as [-> _].
    rewrite removeOldest_frame. lia.
  - assert (ll c = (e0 :: rest0) ++ [x]) as Hsnoc by (by rewrite Hll).
    apply (IH _ rest0).
    + by apply removeOldest_wf.
    + by rewrite (removeOldest_snoc c _ x Hwf Hsnoc).
    + by rewrite removeOldest_frame.
    + by rewrite removeOldest_frame.
    + rewrite removeOldest_length. rewrite Hll in Hlen |- *.
      rewrite length_cons in Hlen |- *. simpl. lia.
Qed.

Lemma Add_front c k v c' :
  wf c → fits c k v →
  maxBytes c = 0 ∨ len k + Len v ≤ maxBytes c →
  Add c k v = Some c' → front c' = Some k.
Proof.
  intros Hwf Hfit Hsz Hadd. unfold Add in Hadd.
  destruct (insert_front c k v Hwf) as (p & rest & Hins & _).
  assert (maxBytes (insert c k v) = 0
          ∨ size (mkElement p k v) ≤ maxBytes (insert c k v)) as Hsz'
    by (by rewrite insert_frame).
  destruct (evict_keeps_front _ _ _ _ _ (insert_wf c k v Hwf Hfit) Hins Hsz' Hadd)
    as (rest' & Hll).
  unfold front. by rewrite Hll.
Qed.

Lemma Get_front c k v c' : wf c → Get c k = (Some v, c') → front c' = Some k.
Proof.
  intros Hwf Hget.
  destruct (Get_hit c k v c' Hwf Hget) as (e & _ & Hkey & _ & Hll & _).
  unfold front. by rewrite Hll, Hkey.
Qed.

Lemma Add_oversized c k v :
  wf c → fits c k v → 0 < maxBytes c → maxBytes c < len k + Len v →
  ∃ c', Add c k v = Some c' ∧ ll c' = [] ∧ cache c' = ∅ ∧ nbytes c' = 0
        ∧ Get c' k = (None, c').
Proof.
  intros Hwf Hfit Hpos Hbig. unfold Add.
  destruct (insert_front c k v Hwf) as (p & rest & Hins & _).
  destruct (evict_oversized (S (length (ll (insert c k v)))) _ _ _
              (insert_wf c k v Hwf Hfit) Hins) as (c' & Hev & Hwf' & Hnil).
  - by rewrite insert_frame.
  - by rewrite insert_frame.
  - lia.
  - exists c'. destruct (wf_empty c' Hwf' Hnil) as [Hn Hc].
    split_and!; [done..|]. unfold Get. by rewrite Hc, lookup_empty.
Qed.

(** C1. Byte budget: after every sequence of [Add], [Get],
    [RemoveOldest] and [Clear] run from [New maxBytes onEvicted] (and so
    after each operation of it, a prefix being a sequence too), the
    counter [nbytes] is the sum of [len(key) + value.Len()] over the
    linked entries, and a positive [maxBytes] bounds it. The counter is
    an [int64]: the run is one in which the bytes held never exceed that
    range ([within_int64]). *)
Theorem lru_byte_budget maxB ev (ops : list (Op V)) c :
  within_int64 (New maxB ev) ops →
  run (New maxB ev) ops = Some c →
  nbytes c = live_bytes (ll c) ∧ (0 < maxB → nbytes c ≤ maxB).
Proof.
  intros Hfit Hrun.
  destruct (lru_run_inv _ _ _ (wf_New maxB ev) (budget_New maxB ev) Hfit Hrun)
    as (Hwf & Hbud & Hmax).
  split; [apply Hwf|]. simpl in Hmax. unfold within_budget in Hbud.
  rewrite Hmax in Hbud. done.
Qed.

(** C9, as the code has it. In every state [c] reached from [New]: the
    keys from front to back are in the order of their last completed
    access, most recent first; a [Get] that finds [k] leaves [k] at the
    front; and an [Add] of [k] leaves [k] at the front when the cache is
    unbounded or the entry alone fits the budget. *)
Theorem lru_recency_order maxB ev (ops : list (Op V)) c :
  within_int64 (New maxB ev) ops →
  run (New maxB ev) ops = Some c →
  by_last_access (history (New maxB ev) ops) (key <$> ll c)
  ∧ (∀ k v c', Get c k = (Some v, c') → front c' = Some k)
  ∧ (∀ k v c', fits c k v → maxB = 0 ∨ len k + Len v ≤ maxB →
               Add c k v = Some c' → front c' = Some k).
Proof.
  intros Hfit Hrun.
  destruct (lru_run_inv _ _ _ (wf_New maxB ev) (budget_New maxB ev) Hfit Hrun)
    as (Hwf & Hbud & Hmax).
  simpl in Hmax. split_and!.
  - apply (lru_run_recency _ _ _ [] (wf_New maxB ev) (budget_New maxB ev) Hfit Hrun).
    split; [constructor|]. intros k Hk. simpl in Hk. by apply elem_of_nil in Hk.
  - intros k v c'. by apply Get_front.
  - intros k v c' Hf Hsz. apply Add_front; [done..|]. by rewrite Hmax.
Qed.

(** C10. In every state reached from [New] with a positive [maxBytes],
    adding an entry whose own size exceeds [maxBytes] returns with the
    cache empty: no entry is linked or indexed, the counter is zero and
    a following [Get] of the key misses. *)
Theorem lru_add_oversized maxB ev (ops : list (Op V)) c k v :
  within_int64 (New maxB ev) ops →
  run (New maxB ev) ops = Some c →
  fits c k v → 0 < maxB → maxB < len k + Len v →
  ∃ c', Add c k v = Some c' ∧ ll c' = [] ∧ cache c' = ∅ ∧ nbytes c' = 0
        ∧ Get c' k = (None, c').
Proof.
  intros Hfit Hrun Hf Hpos Hbig.
  destruct (lru_run_inv _ _ _ (wf_New maxB ev) (budget_New maxB ev) Hfit Hrun)
    as (Hwf & Hbud & Hmax).
  simpl in Hmax. apply Add_oversized; [done..| |]; by rewrite Hmax.
Qed.

End lru_claims.

(** ** The consistent-hash ring *)

Section ring_sorting.
Import consistenthash.

Lemma Ints_sorted a : StronglySorted Z.le (Ints a).
Proof. apply StronglySorted_merge_sort; apply _. Qed.

Lemma Ints_perm a : Ints a ≡ₚ a.
Proof. apply merge_sort_Permutation. Qed.

(** The sorted slice only depends on the values it holds. *)
Lemma Ints_unique a b : a ≡ₚ b → Ints a = Ints b.
Proof.
  intros Hab. apply (StronglySorted_unique Z.le); [apply Ints_sorted..|].
  by rewrite !Ints_perm.
Qed.

Lemma Ints_app_l a b : Ints (Ints a ++ b) = Ints (a ++ b).
Proof. apply Ints_unique. by rewrite Ints_perm. Qed.

Lemma sorted_lookup_le (l : list Z) i j x y :
  StronglySorted Z.le l → (i ≤ j)%nat →
  l !! i = Some x → l !! j = Some y → x ≤ y.
Proof.
  intros Hs. revert i j. induction Hs as [|z l Hs IH Hall]; intros i j Hij Hi Hj.
  - by rewrite lookup_nil in Hi.
  - destruct i as [|i], j as [|j]; simpl in *; try lia.
    + injection Hi as ->. injection Hj as ->. lia.
    + injection Hi as ->. rewrite Forall_forall in Hall. apply Hall.
      by apply list_elem_of_lookup_2 in Hj.
    + apply (IH i j); [lia|done..].
Qed.

(** Binary search over a predicate that is false, then true. *)
Lemma search_loop_spec n f fuel i j :
  (∀ a b, 0 ≤ a ≤ b → b < n → f a = true → f b = true) →
  0 ≤ i ≤ j → j ≤ n →
  (∀ a, 0 ≤ a < i → f a = false) →
  (∀ a, j ≤ a < n → f a = true) →
  j - i ≤ Z.of_nat fuel →
  let r := search_loop fuel f i j in
  0 ≤ r ≤ n ∧ (∀ a, 0 ≤ a < r → f a = false) ∧ (∀ a, r ≤ a < n → f a = true).
Proof.
  intros Hmono. revert i j.
  induction fuel as [|fuel IH]; intros i j Hij Hjn Hlo Hhi Hfuel; simpl.
  - assert (i = j) as -> by lia. split_and!; [lia|lia|done|done].
  - destruct (Z.ltb_spec i j) as [Hlt|Hge].
    + rewrite Z.shiftr_div_pow2 by lia. change (2 ^ 1) with 2.
      assert (i ≤ (i + j) `div` 2 < j) as Hh
        by (split; [apply Z.div_le_lower_bound|apply Z.div_lt_upper_bound]; lia).
      destruct (f ((i + j) `div` 2)) eqn:Hf; simpl.
      * apply IH; [lia|lia|done| |lia].
        intros a Ha. by apply (Hmono ((i + j) `div` 2)); [lia|lia|].
      * apply IH; [lia|lia| |done|lia].
        intros a Ha. destruct (f a) eqn:Hfa; [|done].
        rewrite (Hmono a ((i + j) `div` 2)) in Hf; [done|lia|lia|done].
    + assert (i = j) as -> by lia. split_and!; [lia|lia|done|done].
Qed.

Lemma Search_spec n f :
  0 ≤ n →
  (∀ a b, 0 ≤ a ≤ b → b < n → f a = true → f b = true) →
  0 ≤ Search n f ≤ n
  ∧ (∀ a, 0 ≤ a < Search n f → f a = false)
  ∧ (∀ a, Search n f ≤ a < n → f a = true).
Proof.
  intros Hn Hmono. unfold Search.
  apply search_loop_spec; [done|lia|lia|lia|lia|lia].
Qed.

End ring_sorting.

Section ring_build.
Import consistenthash.

Lemma record_app g vs1 vs2 : record g (vs1 ++ vs2) = record (record g vs1) vs2.
Proof. apply foldl_app. Qed.

Lemma vnodes_app fn r ks1 ks2 :
  vnodes fn r (ks1 ++ ks2) = vnodes fn r ks1 ++ vnodes fn r ks2.
Proof. apply bind_app. Qed.

Lemma add_replicas key m (ix : list Z) :
  foldl (add_replica key) m ix =
    mkMap (hash m) (replicas m)
          (keys m ++ ((λ i, (vhash (hash m) key i, key)) <$> ix).*1)
          (record (hashMap m) ((λ i, (vhash (hash m) key i, key)) <$> ix)).
Proof.
  revert m. induction ix as [|i ix IH]; intros m; simpl.
  - rewrite app_nil_r. by destruct m.
  - rewrite IH. simpl. by rewrite <- app_assoc.
Qed.

(** The two nested loops of [Add] append the points of the virtual
    nodes and record their owners, in visiting order. *)
Lemma add_keys m ks :
  foldl add_key m ks =
    mkMap (hash m) (replicas m)
          (keys m ++ (vnodes (hash m) (replicas m) ks).*1)
          (record (hashMap m) (vnodes (hash m) (replicas m) ks)).
Proof.
  revert m. induction ks as [|k ks IH]; intros m; simpl.
  - rewrite app_nil_r. by destruct m.
  - rewrite IH. unfold add_key. rewrite add_replicas. simpl.
    by rewrite fmap_app, record_app, <- app_assoc.
Qed.

Lemma Add_unfold m ks :
  Add m ks =
    mkMap (hash m) (replicas m)
          (Ints (keys m ++ (vnodes (hash m) (replicas m) ks).*1))
          (record (hashMap m) (vnodes (hash m) (replicas m) ks)).
Proof. unfold Add. by rewrite add_keys. Qed.

(** Building the ring in several calls of [Add] gives the ring of one
    call with all the nodes. *)
Lemma ring_concat r fn batches :
  ring r fn batches = Add (New r fn) (concat batches).
Proof.
  unfold ring. induction batches as [|b batches IH] using rev_ind.
  - done.
  - rewrite foldl_app. simpl. rewrite IH, concat_app. simpl.
    rewrite app_nil_r, !Add_unfold. simpl.
    by rewrite vnodes_app, fmap_app, record_app, Ints_app_l.
Qed.

Lemma ring_sorted r fn batches : StronglySorted Z.le (keys (ring r fn batches)).
Proof. rewrite ring_concat, Add_unfold. apply Ints_sorted. Qed.

Lemma record_lookup_inv g vs h k :
  record g vs !! h = Some k → (h, k) ∈ vs ∨ g !! h = Some k.
Proof.
  revert g. induction vs as [|[h' k'] vs IH]; intros g; simpl; [by right|].
  intros Hl. apply IH in Hl as [Hl|Hl].
  - left. by apply list_elem_of_further.
  - simpl in Hl. destruct (decide (h' = h)) as [->|Hne].
    + rewrite lookup_insert_eq in Hl. injection Hl as ->. left. apply list_elem_of_here.
    + rewrite lookup_insert_ne in Hl by done. by right.
Qed.

Lemma record_lookup_is_Some g vs h k :
  (h, k) ∈ vs → is_Some (record g vs !! h).
Proof.
  revert g. induction vs as [|[h' k'] vs IH] using rev_ind; intros g Hin.
  - by apply elem_of_nil in Hin.
  - rewrite record_app. simpl.
    destruct (decide (h' = h)) as [->|Hne].
    + rewrite lookup_insert_eq. by eexists.
    + rewrite lookup_insert_ne by done. apply IH.
      apply elem_of_app in Hin as [|Hin]; [done|].
      apply list_elem_of_singleton in Hin. congruence.
Qed.

(** When the points are not shared, the index maps each point to the
    node that owns it, whatever the visiting order. *)
Lemma record_functional vs h k :
  (∀ h k1 k2, (h, k1) ∈ vs → (h, k2) ∈ vs → k1 = k2) →
  record ∅ vs !! h = Some k ↔ (h, k) ∈ vs.
Proof.
  intros Hfun. split.
  - intros Hl. apply record_lookup_inv in Hl as [|Hl]; [done|].
    by rewrite lookup_empty in Hl.
  - intros Hin. destruct (record_lookup_is_Some ∅ vs h k Hin) as [k' Hk'].
    rewrite Hk'. f_equal.
    apply record_lookup_inv in Hk' as [Hk'|Hk']; [by apply (Hfun h)|].
    by rewrite lookup_empty in Hk'.
Qed.

Lemma record_perm vs vs' :
  vs ≡ₚ vs' →
  (∀ h k1 k2, (h, k1) ∈ vs → (h, k2) ∈ vs → k1 = k2) →
  record ∅ vs = record ∅ vs'.
Proof.
  intros Hperm Hfun.
  assert (∀ h k1 k2, (h, k1) ∈ vs' → (h, k2) ∈ vs' → k1 = k2) as Hfun'.
  { intros h k1 k2. rewrite <- !Hperm. apply Hfun. }
  apply map_eq. intros h. apply option_eq. intros k.
  rewrite !record_functional by done. by rewrite Hperm.
Qed.

Lemma Add_perm r fn ks ks' :
  ks ≡ₚ ks' → collision_free (hash (New r fn)) r ks →
  Add (New r fn) ks = Add (New r fn) ks'.
Proof.
  intros Hperm Hfree. rewrite !Add_unfold. simpl.
  assert (vnodes (hash (New r fn)) r ks ≡ₚ vnodes (hash (New r fn)) r ks') as Hvs.
  { unfold vnodes. by apply bind_Permutation. }
  simpl in Hvs. f_equal.
  - apply Ints_unique. by rewrite Hvs.
  - by apply record_perm.
Qed.

Lemma collision_freeb_spec fn r ks :
  collision_freeb fn r ks = true → collision_free fn r ks.
Proof.
  unfold collision_freeb, collision_free. intros Hb h k1 k2 H1 H2.
  rewrite forallb_forall in Hb.
  apply list_elem_of_In, Hb in H1. rewrite forallb_forall in H1.
  apply list_elem_of_In, H1 in H2. simpl in H2.
  rewrite Z.eqb_refl in H2. simpl in H2. by apply bool_decide_eq_true_1 in H2.
Qed.

End ring_build.

Section ring_claims.
Import consistenthash.

Lemma at_index_lookup (a : list Z) (i : nat) x :
  a !! i = Some x → at_index a (Z.of_nat i) = x.
Proof. intros Hx. unfold at_index. by rewrite Nat2Z.id, Hx. Qed.

(** On a sorted ring, the binary search of [Get] splits the array into
    the points below the hash of the key and the points at or above it. *)
Lemma Get_sorted m key :
  StronglySorted Z.le (keys m) → keys m ≠ [] →
  ∃ r : nat,
    (r ≤ length (keys m))%nat
    ∧ (∀ j y, (j < r)%nat → keys m !! j = Some y → y < uint32 (hash m (bytes key)))
    ∧ (∀ j y, (r ≤ j)%nat → keys m !! j = Some y → uint32 (hash m (bytes key)) ≤ y)
    ∧ Get m key =
        owner m (at_index (keys m) (Z.of_nat r `rem` Z.of_nat (length (keys m)))).
Proof.
  intros Hsorted Hne. unfold Get.
  set (h := uint32 (hash m (bytes key))).
  set (n := Z.of_nat (length (keys m))).
  set (f := λ i : Z, at_index (keys m) i >=? h).
  assert (0 < n) as Hn.
  { unfold n. destruct (keys m); [done|]. simpl. lia. }
  destruct (Z.eqb_spec n 0) as [|_]; [lia|].
  assert (∀ a, 0 ≤ a < n → keys m !! Z.to_nat a = Some (at_index (keys m) a)) as Hat.
  { intros a Ha. unfold at_index.
    destruct (lookup_lt_is_Some_2 (keys m) (Z.to_nat a)) as [x ->]; [lia|done]. }
  destruct (Search_spec n f) as (Hr & Hlo & Hhi); [lia| |].
  { intros a b Hab Hb. unfold f. rewrite !Z.geb_leb, !Z.leb_le. intros Ha.
    etrans; [exact Ha|].
    apply (sorted_lookup_le (keys m) (Z.to_nat a) (Z.to_nat b)); [done|lia|..];
      apply Hat; lia. }
  exists (Z.to_nat (Search n f)). rewrite Z2Nat.id by lia. split_and!; [lia| | |done].
  - intros j y Hj Hy.
    assert (f (Z.of_nat j) = false) as Hf by (apply Hlo; lia).
    unfold f in Hf.
    by rewrite (at_index_lookup _ _ _ Hy), Z.geb_leb, Z.leb_gt in Hf.
  - intros j y Hj Hy. pose proof (lookup_lt_Some _ _ _ Hy) as Hlt.
    assert (f (Z.of_nat j) = true) as Hf by (apply Hhi; lia).
    unfold f in Hf.
    by rewrite (at_index_lookup _ _ _ Hy), Z.geb_leb, Z.leb_le in Hf.
Qed.

(** C5. For every ring built by [New] and [Add] and every key: an empty
    array gives the empty string; when [i] is the smallest index with
    [arr[i] >= hash(k)], [Get] returns [hashMap[arr[i]]]; and when no
    point reaches the hash, [Get] wraps to [hashMap[arr[0]]]. *)
Theorem ring_Get_lookup r fn batches key :
  let m := ring r fn batches in
  let h := uint32 (hash m (bytes key)) in
  (keys m = [] → Get m key = EmptyString)
  ∧ (∀ i x, keys m !! i = Some x → h ≤ x →
            (∀ j y, (j < i)%nat → keys m !! j = Some y → y < h) →
            Get m key = owner m x)
  ∧ (∀ x0, keys m !! 0%nat = Some x0 →
           (∀ y, y ∈ keys m → y < h) →
           Get m key = owner m x0).
Proof.
  intros m h. pose proof (ring_sorted r fn batches) as Hsorted.
  fold m in Hsorted. split_and!.
  - intros Hnil. unfold Get. by rewrite Hnil.
  - intros i x Hi Hx Hmin.
    destruct (Get_sorted m key Hsorted) as (r0 & Hr & Hlo & Hhi & ->).
    { intros Hnil. by rewrite Hnil in Hi. }
    fold h in Hlo, Hhi. pose proof (lookup_lt_Some _ _ _ Hi) as Hlt.
    assert (r0 = i) as ->.
    { destruct (Nat.lt_trichotomy r0 i) as [Hc|[Hc|Hc]]; [|done|].
      - destruct (lookup_lt_is_Some_2 (keys m) r0) as [y Hy]; [lia|].
        pose proof (Hhi r0 y (Nat.le_refl _) Hy). pose proof (Hmin r0 y Hc Hy). lia.
      - pose proof (Hlo i x Hc Hi). lia. }
    rewrite Z.rem_small by lia. by rewrite (at_index_lookup _ _ _ Hi).
  - intros x0 H0 Hall.
    destruct (Get_sorted m key Hsorted) as (r0 & Hr & Hlo & Hhi & ->).
    { intros Hnil. by rewrite Hnil in H0. }
    fold h in Hlo, Hhi. pose proof (lookup_lt_Some _ _ _ H0) as Hlt.
    assert (r0 = length (keys m)) as ->.
    { destruct (decide (r0 = length (keys m))) as [|Hc]; [done|].
      destruct (lookup_lt_is_Some_2 (keys m) r0) as [y Hy]; [lia|].
      pose proof (Hhi r0 y (Nat.le_refl _) Hy).
      pose proof (Hall y (list_elem_of_lookup_2 _ _ _ Hy)). lia. }
    rewrite Z.rem_same by lia. by rewrite (at_index_lookup _ 0%nat _ H0 : at_index _ 0 = _).
Qed.

(** C6, as the code has it. The node selected for a key is a function of
    the ring and the key alone, and a ring only depends on the nodes
    added, not on their order or on how they are split over calls of
    [Add], provided that no two nodes share a point of the ring: then
    rings built from permuted node lists are equal, and so is every
    selection. *)
Theorem ring_order_independent r fn batches batches' key :
  concat batches ≡ₚ concat batches' →
  collision_free (hash (New r fn)) r (concat batches) →
  ring r fn batches = ring r fn batches'
  ∧ Get (ring r fn batches) key = Get (ring r fn batches') key.
Proof.
  intros Hperm Hfree.
  assert (ring r fn batches = ring r fn batches') as Heq
    by (rewrite !ring_concat; by apply Add_perm).
  split; [done|]. by rewrite Heq.
Qed.

End ring_claims.

(** ** Single-flight *)

Section flight_invariant.
Import singleflight.
Context {V E : Type}.
Implicit Types (s : state V E) (p : pc V E) (a : action V E) (r : result V E).

Lemma owns_joined p c : owns p = Some c → joined p = Some c.
Proof. by destruct p. Qed.

Lemma inv_init keys : inv (init (V:=V) (E:=E) keys).
Proof.
  assert (∀ t k p, threads (init (V:=V) (E:=E) keys) !! t = Some (k, p) → p = Start)
    as Hstart.
  { intros t k p Ht. simpl in Ht. rewrite list_lookup_fmap in Ht.
    destruct (keys !! t); simpl in Ht; congruence. }
  constructor; simpl.
  - intros t k p c Ht Hj. by rewrite (Hstart _ _ _ Ht) in Hj.
  - intros k c. by rewrite lookup_empty.
  - intros t k p c Ht Ho. by rewrite (Hstart _ _ _ Ht) in Ho.
  - intros t1 t2 k1 k2 p1 p2 c Ht _ Ho. by rewrite (Hstart _ _ _ Ht) in Ho.
  - intros t k p c Ht Ho. by rewrite (Hstart _ _ _ Ht) in Ho.
  - intros t k c Ht. by apply Hstart in Ht.
  - intros t k c r Ht. by apply Hstart in Ht.
  - split; [apply NoDup_nil_2|]. intros x Hx. by apply elem_of_nil in Hx.
Qed.

End flight_invariant.

Section flight_steps.
Import singleflight.
Context {V E : Type}.
Implicit Types (s : state V E) (p : pc V E) (a : action V E) (r : result V E).

Ltac thread_cases :=
  repeat match goal with
  | H : <[_ := _]> _ !! _ = Some _ |- _ =>
      apply list_lookup_insert_Some in H as [(<- & ? & ?)|(? & H)]
  end; simplify_eq/=.

Ltac old_inv :=
  eauto using inv_joined, inv_index, inv_owner, inv_unique, inv_busy,
          inv_done, inv_result, inv_execs.

(** A thread that finds the call of its key in the map waits for it. *)
Lemma step_join s t k c :
  inv s → threads s !! t = Some (k, Start) → m s !! k = Some c →
  inv (goto t k (Waiting c) s).
Proof.
  intros Hinv Ht Hk. constructor; simpl; intros; thread_cases; old_inv.
Qed.

(** A thread that finds no call of its key registers a fresh one. *)
Lemma step_register s t k :
  inv s → threads s !! t = Some (k, Start) → m s !! k = None →
  inv (mkState (<[k := length (heap s)]> (m s))
               (heap s ++ [mkCall 1 (None, None)])
               (<[t := (k, Running (length (heap s)))]> (threads s))
               (execs s ++ [(t, k, length (heap s))])).
Proof.
  intros Hinv Ht Hk.
  assert (∀ t1 k1 p1 c1, threads s !! t1 = Some (k1, p1) → owns p1 = Some c1 →
                         (c1 < length (heap s))%nat ∧ k1 ≠ k) as Hold.
  { intros t1 k1 p1 c1 Ht1 Ho. split.
    - eapply inv_joined; eauto using owns_joined.
    - intros ->. pose proof (inv_owner s Hinv _ _ _ _ Ht1 Ho). congruence. }
  constructor; simpl.
  - intros t1 k1 p1 c1 Ht1 Hj. rewrite length_app. simpl.
    thread_cases; [lia|]. pose proof (inv_joined s Hinv _ _ _ _ Ht1 Hj). lia.
  - intros k1 c1 Hk1. rewrite length_app. simpl.
    apply lookup_insert_Some in Hk1 as [[<- <-]|[_ Hk1]]; [lia|].
    pose proof (inv_index s Hinv _ _ Hk1). lia.
  - intros t1 k1 p1 c1 Ht1 Ho. thread_cases; [by rewrite lookup_insert_eq|].
    destruct (Hold _ _ _ _ Ht1 Ho) as [_ Hne].
    rewrite lookup_insert_ne by done. old_inv.
  - intros t1 t2 k1 k2 p1 p2 c1 Ht1 Ht2 Ho1 Ho2. thread_cases; [done|..|old_inv].
    + destruct (Hold _ _ _ _ Ht1 Ho1). lia.
    + destruct (Hold _ _ _ _ Ht2 Ho2). lia.
  - intros t1 k1 p1 c1 Ht1 Ho Hne. thread_cases.
    + eexists. split; [by apply list_lookup_middle|done].
    + destruct (inv_busy s Hinv _ _ _ _ Ht1 Ho Hne) as (cl & Hcl & Hwg).
      exists cl. split; [|done]. by apply lookup_app_l_Some.
  - intros t1 k1 c1 Ht1. thread_cases.
    destruct (inv_done s Hinv _ _ _ Ht1) as (cl & Hcl & Hwg).
    exists cl. split; [|done]. by apply lookup_app_l_Some.
  - intros t1 k1 c1 r1 Ht1. thread_cases.
    destruct (inv_result s Hinv _ _ _ _ Ht1) as (cl & Hcl & Hwg).
    exists cl. split; [|done]. by apply lookup_app_l_Some.
  - destruct (inv_execs s Hinv) as [Hnd Hlt]. split.
    + rewrite fmap_app. apply NoDup_app. split_and!; [done| |apply NoDup_singleton].
      intros c1 Hc1 Hin. apply list_elem_of_singleton in Hin. simpl in Hin. subst.
      apply list_elem_of_fmap in Hc1 as (x & Heq & Hx). specialize (Hlt x Hx). lia.
    + intros x Hx. rewrite length_app. simpl.
      apply elem_of_app in Hx as [Hx|Hx]; [specialize (Hlt x Hx); lia|].
      apply list_elem_of_singleton in Hx. subst. simpl. lia.
Qed.

Lemma step_wake s t k c cl :
  inv s → threads s !! t = Some (k, Waiting c) →
  heap s !! c = Some cl → wg cl = 0%nat →
  inv (goto t k (Returned c (val cl)) s).
Proof.
  intros Hinv Ht Hc Hwg. constructor; simpl; intros; thread_cases; old_inv.
Qed.

Lemma step_panic s t k c :
  inv s → threads s !! t = Some (k, Running c) →
  inv (goto t k (Panicked c) s).
Proof.
  intros Hinv Ht.
  constructor; simpl; intros; thread_cases; old_inv.
Qed.

(** Another thread's call is not the one of the thread that owns [c]. *)
Lemma other_call s t t1 k k1 p p1 c c1 :
  inv s → threads s !! t = Some (k, p) → owns p = Some c → p ≠ Released c →
  threads s !! t1 = Some (k1, p1) → t ≠ t1 →
  owns p1 = Some c1 ∨ (∃ r, p1 = Returned c1 r) → c ≠ c1.
Proof.
  intros Hinv Ht Ho Hne Ht1 Htt [Ho1|[r ->]] ->.
  - by pose proof (inv_unique s Hinv _ _ _ _ _ _ _ Ht Ht1 Ho Ho1).
  - destruct (inv_busy s Hinv _ _ _ _ Ht Ho Hne) as (cl & Hcl & Hwg).
    destruct (inv_result s Hinv _ _ _ _ Ht1) as (cl' & Hcl' & Hwg' & _).
    assert (cl = cl') by congruence. subst. lia.
Qed.

Lemma step_return s t k c r :
  inv s → threads s !! t = Some (k, Running c) →
  inv (mkState (m s) (alter (λ cl, mkCall (wg cl) r) c (heap s))
               (<[t := (k, Stored c)]> (threads s)) (execs s)).
Proof.
  intros Hinv Ht.
  assert (∀ t1 k1 p1 c1, threads s !! t1 = Some (k1, p1) → t ≠ t1 →
            owns p1 = Some c1 ∨ (∃ r, p1 = Returned c1 r) → c ≠ c1) as Hother.
  { intros t1 k1 p1 c1 Ht1 Hne Hp1.
    by apply (other_call s t t1 k k1 (Running c) p1 c c1). }
  destruct (inv_busy s Hinv t k (Running c) c) as (cl & Hcl & Hwg); [done..|].
  constructor; simpl; try rewrite length_alter.
  - intros t1 k1 p1 c1 Ht1 Hj. thread_cases; [|old_inv].
    eapply (inv_joined s Hinv t); eauto.
  - apply Hinv.
  - intros t1 k1 p1 c1 Ht1 Ho1. thread_cases; [|old_inv].
    eapply (inv_owner s Hinv t); eauto.
  - intros t1 t2 k1 k2 p1 p2 c1 Ht1 Ht2 Ho1 Ho2. thread_cases; [done|..|old_inv].
    + eapply (inv_unique s Hinv t1 t); eauto.
    + eapply (inv_unique s Hinv t t2); eauto.
  - intros t1 k1 p1 c1 Ht1 Ho1 Hne1. thread_cases.
    + rewrite list_lookup_alter_eq, Hcl. by eexists.
    + rewrite list_lookup_alter_ne by eauto. old_inv.
  - intros t1 k1 c1 Ht1. thread_cases.
    rewrite list_lookup_alter_ne by (eapply Hother; eauto). old_inv.
  - intros t1 k1 c1 r1 Ht1. thread_cases.
    rewrite list_lookup_alter_ne by (eapply Hother; eauto). old_inv.
  - apply Hinv.
Qed.

Lemma step_done s t k c :
  inv s → threads s !! t = Some (k, Stored c) →
  inv (mkState (m s) (alter (λ cl, mkCall (pred (wg cl)) (val cl)) c (heap s))
               (<[t := (k, Released c)]> (threads s)) (execs s)).
Proof.
  intros Hinv Ht.
  assert (∀ t1 k1 p1 c1, threads s !! t1 = Some (k1, p1) → t ≠ t1 →
            owns p1 = Some c1 ∨ (∃ r, p1 = Returned c1 r) → c ≠ c1) as Hother.
  { intros t1 k1 p1 c1 Ht1 Hne Hp1.
    by apply (other_call s t t1 k k1 (Stored c) p1 c c1). }
  destruct (inv_busy s Hinv t k (Stored c) c) as (cl & Hcl & Hwg); [done..|].
  constructor; simpl; try rewrite length_alter.
  - intros t1 k1 p1 c1 Ht1 Hj. thread_cases; [|old_inv].
    eapply (inv_joined s Hinv t); eauto.
  - apply Hinv.
  - intros t1 k1 p1 c1 Ht1 Ho1. thread_cases; [|old_inv].
    eapply (inv_owner s Hinv t); eauto.
  - intros t1 t2 k1 k2 p1 p2 c1 Ht1 Ht2 Ho1 Ho2. thread_cases; [done|..|old_inv].
    + eapply (inv_unique s Hinv t1 t); eauto.
    + eapply (inv_unique s Hinv t t2); eauto.
  - intros t1 k1 p1 c1 Ht1 Ho1 Hne1. thread_cases; try done.
    rewrite list_lookup_alter_ne by eauto. old_inv.
  - intros t1 k1 c1 Ht1. thread_cases.
    + rewrite list_lookup_alter_eq, Hcl. eexists. split; [done|]. simpl. lia.
    + rewrite list_lookup_alter_ne by (eapply Hother; eauto). old_inv.
  - intros t1 k1 c1 r1 Ht1. thread_cases.
    rewrite list_lookup_alter_ne by (eapply Hother; eauto). old_inv.
  - apply Hinv.
Qed.

Lemma step_delete s t k c cl :
  inv s → threads s !! t = Some (k, Released c) → heap s !! c = Some cl →
  inv (mkState (delete k (m s)) (heap s)
               (<[t := (k, Returned c (val cl))]> (threads s)) (execs s)).
Proof.
  intros Hinv Ht Hc.
  constructor; simpl.
  - intros t1 k1 p1 c1 Ht1 Hj. thread_cases; [|old_inv].
    eapply (inv_joined s Hinv t); eauto.
  - intros k1 c1 Hk1. apply lookup_delete_Some in Hk1 as [_ Hk1]. old_inv.
  - intros t1 k1 p1 c1 Ht1 Ho1. thread_cases.
    pose proof (inv_owner s Hinv _ _ _ _ Ht1 Ho1) as Hk1.
    rewrite lookup_delete_ne; [done|]. intros <-.
    pose proof (inv_owner s Hinv t k _ c Ht eq_refl) as Hk.
    assert (c1 = c) as -> by congruence.
    by pose proof (inv_unique s Hinv _ _ _ _ _ _ _ Ht Ht1 eq_refl Ho1).
  - intros t1 t2 k1 k2 p1 p2 c1 Ht1 Ht2 Ho1 Ho2. thread_cases. old_inv.
  - intros t1 k1 p1 c1 Ht1 Ho1 Hne1. thread_cases. old_inv.
  - intros t1 k1 c1 Ht1. thread_cases. old_inv.
  - intros t1 k1 c1 r1 Ht1. thread_cases; [|old_inv].
    destruct (inv_done s Hinv _ _ _ Ht) as (cl' & Hcl' & Hwg).
    assert (cl' = cl) as -> by congruence. by exists cl.
  - apply Hinv.
Qed.

Lemma flight_step_inv s t a s' : inv s → step s t a = Some s' → inv s'.
Proof.
  intros Hinv. unfold step.
  destruct (threads s !! t) as [[k p]|] eqn:Ht; [|done].
  destruct p as [|c|c|c|c|c r0|c], a as [|r| | | |]; try done.
  - destruct (m s !! k) as [c|] eqn:Hk; intros [= <-].
    + by apply step_join.
    + by apply step_register.
  - destruct (heap s !! c) as [cl|] eqn:Hc; [|done].
    case_decide; [|done]. intros [= <-]. by apply step_wake.
  - intros [= <-]. by apply step_return.
  - intros [= <-]. by apply step_panic.
  - intros [= <-]. by apply step_done.
  - destruct (heap s !! c) as [cl|] eqn:Hc; [|done]. intros [= <-].
    by apply step_delete.
Qed.

Lemma flight_exec_inv s sched s' : inv s → exec s sched = Some s' → inv s'.
Proof.
  revert s. induction sched as [|[t a] sched IH]; intros s Hinv; simpl.
  - by intros [= <-].
  - destruct (step s t a) as [s1|] eqn:Hstep; [|done].
    apply IH. by apply (flight_step_inv s t a).
Qed.

End flight_steps.

Section flight_claims.
Import singleflight.
Context {V E : Type}.
Implicit Types (s : state V E) (p : pc V E) (a : action V E) (r : result V E).

Ltac thread_cases :=
  repeat match goal with
  | H : <[_ := _]> _ !! _ = Some _ |- _ =>
      apply list_lookup_insert_Some in H as [(<- & ? & ?)|(? & H)]
  end; simplify_eq/=.

Lemma reachable_inv keys sched s : exec (init keys) sched = Some s → inv s.
Proof. apply flight_exec_inv, inv_init. Qed.

(** A settled result stays: only the thread inside [fn] writes the
    result, and fresh calls have fresh addresses. *)
Lemma settled_step s t a s' c r :
  settled c r s → step s t a = Some s' → settled c r s'.
Proof.
  intros [(cl & Hcl & Hval) Hrun]. unfold step.
  pose proof (lookup_lt_Some _ _ _ Hcl) as Hlt.
  destruct (threads s !! t) as [[k p]|] eqn:Ht; [|done].
  destruct p as [|c0|c0|c0|c0|c0 r0|c0], a as [|r1| | | |]; try done.
  - destruct (m s !! k) as [c1|] eqn:Hk; intros [= <-]; (split; simpl).
    + by exists cl.
    + intros t1 k1 Ht1. thread_cases. by apply (Hrun t1 k1).
    + exists cl. split; [|done]. by apply lookup_app_l_Some.
    + intros t1 k1 Ht1. thread_cases; [lia|]. by apply (Hrun t1 k1).
  - destruct (heap s !! c0) as [cl0|] eqn:Hc0; [|done].
    case_decide; [|done]. intros [= <-]. split; simpl; [by exists cl|].
    intros t1 k1 Ht1. thread_cases. by apply (Hrun t1 k1).
  - intros [= <-]. split; simpl.
    + exists cl. split; [|done]. rewrite list_lookup_alter_ne; [done|].
      intros ->. by apply (Hrun t k).
    + intros t1 k1 Ht1. thread_cases. by apply (Hrun t1 k1).
  - intros [= <-]. split; simpl; [by exists cl|].
    intros t1 k1 Ht1. thread_cases. by apply (Hrun t1 k1).
  - intros [= <-]. split; simpl.
    + destruct (decide (c0 = c)) as [->|Hne].
      * rewrite list_lookup_alter_eq, Hcl. by eexists.
      * rewrite list_lookup_alter_ne by done. by exists cl.
    + intros t1 k1 Ht1. thread_cases. by apply (Hrun t1 k1).
  - destruct (heap s !! c0) as [cl0|] eqn:Hc0; [|done]. intros [= <-].
    split; simpl; [by exists cl|].
    intros t1 k1 Ht1. thread_cases. by apply (Hrun t1 k1).
Qed.

Lemma settled_exec s sched s' c r :
  settled c r s → exec s sched = Some s' → settled c r s'.
Proof.
  revert s. induction sched as [|[t a] sched IH]; intros s Hs; simpl.
  - by intros [= <-].
  - destruct (step s t a) as [s1|] eqn:Hstep; [|done].
    apply IH. by apply (settled_step s t a).
Qed.

(** A step leaves the other threads where they are, and only adds a
    fresh call to the map. *)
Lemma step_other s t0 a s' t :
  step s t0 a = Some s' → t0 ≠ t → threads s' !! t = threads s !! t.
Proof.
  unfold step. intros Hstep Hne.
  destruct (threads s !! t0) as [[k0 p0]|]; [|done].
  destruct p0, a; try done; repeat case_match; simplify_eq/=;
    by rewrite list_lookup_insert_ne.
Qed.

Lemma step_map s t0 a s' k c :
  step s t0 a = Some s' → m s' !! k = Some c →
  m s !! k = Some c ∨ c = length (heap s).
Proof.
  unfold step. intros Hstep Hk.
  destruct (threads s !! t0) as [[k0 p0]|]; [|done].
  destruct p0, a; try done; repeat case_match; simplify_eq/=; try (by left).
  - apply lookup_insert_Some in Hk as [[_ <-]|[_ Hk]]; [by right|by left].
  - apply lookup_delete_Some in Hk as [_ Hk]. by left.
Qed.

(** The producer moves on to [Done], to [Delete] and out of [Do], and
    its call never comes back into the map. *)
Lemma past_fn_step s t0 a s' t k c :
  inv s → past_fn t k c s → step s t0 a = Some s' → past_fn t k c s'.
Proof.
  intros Hinv Hpast Hstep. unfold past_fn in *.
  destruct (decide (t0 = t)) as [->|Hne].
  - unfold step in Hstep.
    destruct (threads s !! t) as [[k1 p1]|] eqn:Ht; [|done].
    assert (t < length (threads s))%nat as Hlen by (by apply lookup_lt_Some in Ht).
    destruct p1 as [|c1|c1|c1|c1|c1 r1|c1], a as [|r2| | | |]; simpl in Hpast;
      try done.
    + destruct Hpast as [-> ->]. injection Hstep as <-. simpl.
      by rewrite list_lookup_insert_eq.
    + destruct Hpast as [-> ->].
      destruct (heap s !! c) as [cl|]; [|done]. injection Hstep as <-. simpl.
      rewrite list_lookup_insert_eq by done. split_and!; [done..|].
      by rewrite lookup_delete_eq.
  - rewrite (step_other s t0 a s' t Hstep Hne).
    destruct (threads s !! t) as [[k1 p1]|] eqn:Ht; [|done].
    destruct p1 as [|c1|c1|c1|c1|c1 r1|c1]; try done.
    destruct Hpast as (-> & -> & Hk). split_and!; [done..|].
    intros Hk'. destruct (step_map s t0 a s' k c Hstep Hk') as [Hm|Hm]; [done|].
    pose proof (inv_joined s Hinv t k _ c Ht eq_refl). lia.
Qed.

Lemma past_fn_exec s sched s' t k c :
  inv s → past_fn t k c s → exec s sched = Some s' → past_fn t k c s'.
Proof.
  revert s. induction sched as [|[t0 a] sched IH]; intros s Hinv Hs; simpl.
  - by intros [= <-].
  - destruct (step s t0 a) as [s1|] eqn:Hstep; [|done].
    apply IH; [by apply (flight_step_inv s t0 a)|by apply (past_fn_step s t0 a)].
Qed.

End flight_claims.

Section flight_theorems.
Import singleflight.
Context {V E : Type}.
Implicit Types (s : state V E) (p : pc V E) (a : action V E) (r : result V E).

(** A caller that arrives while the call of its key is in the map joins
    it: its own [fn] is not invoked. *)
Lemma step_Enter_join s t k c :
  threads s !! t = Some (k, Start) → m s !! k = Some c →
  ∃ s', step s t Enter = Some s'
        ∧ threads s' !! t = Some (k, Waiting c) ∧ execs s' = execs s.
Proof.
  intros Ht Hk. unfold step. rewrite Ht, Hk. eexists. split; [done|]. simpl.
  split; [|done]. apply list_lookup_insert_eq. by apply lookup_lt_Some in Ht.
Qed.

(** A caller that arrives while its key has no call in the map
    registers a fresh call and invokes its [fn]. *)
Lemma step_Enter_fresh s t k :
  threads s !! t = Some (k, Start) → m s !! k = None →
  ∃ s', step s t Enter = Some s'
        ∧ threads s' !! t = Some (k, Running (length (heap s)))
        ∧ execs s' = execs s ++ [(t, k, length (heap s))].
Proof.
  intros Ht Hk. unfold step. rewrite Ht, Hk. eexists. split; [done|]. simpl.
  split; [|done]. apply list_lookup_insert_eq. by apply lookup_lt_Some in Ht.
Qed.

(** A waiter wakes up with the stored result once the counter of the
    call is zero. *)
Lemma step_Wake s t k c cl :
  threads s !! t = Some (k, Waiting c) → heap s !! c = Some cl → wg cl = 0%nat →
  ∃ s', step s t Wake = Some s' ∧ threads s' !! t = Some (k, Returned c (val cl)).
Proof.
  intros Ht Hc Hwg. unfold step. rewrite Ht, Hc, decide_True by done.
  eexists. split; [done|]. simpl.
  apply list_lookup_insert_eq. by apply lookup_lt_Some in Ht.
Qed.

(** A caller that is alone on its key goes through [Do] without
    waiting: it registers a call, runs [fn], and leaves the map as it
    found it. This is [kcache.Do]. *)
Lemma Do_alone s t k r :
  threads s !! t = Some (k, Start) → m s !! k = None →
  ∃ s', exec s [(t, Enter); (t, Return r); (t, Done); (t, Delete)] = Some s'
        ∧ threads s' !! t = Some (k, Returned (length (heap s)) r)
        ∧ m s' = m s
        ∧ execs s' = execs s ++ [(t, k, length (heap s))].
Proof.
  intros Ht Hk. assert (t < length (threads s))%nat as Hlen
    by (by apply lookup_lt_Some in Ht).
  unfold exec, step. rewrite Ht, Hk. simpl.
  rewrite list_lookup_insert_eq by done. simpl.
  rewrite list_lookup_insert_eq by (by rewrite length_insert). simpl.
  rewrite list_lookup_insert_eq by (by rewrite !length_insert). simpl.
  rewrite !list_lookup_alter_eq, list_lookup_middle by done. simpl.
  eexists. split; [done|]. simpl. split_and!; [|by apply delete_insert_id|done].
  apply list_lookup_insert_eq. by rewrite !length_insert.
Qed.

(** [Do] for any [fn]. In every state that callers of [Do] can reach,
    whatever the
    interleaving: at most one thread is inside the [fn] of a key; while
    the call of a key is in the map (the coalescing window), a caller
    that arrives joins that call and its [fn] is not invoked; [fn] is
    invoked at most once per call; and all the callers that joined a
    call and returned hold the same [(value, error)].  [Group.load]
    passes as [fn] a closure that asks the origin loader at most once
    (see [load_fn_asks_loader_once]). *)
Theorem singleflight_coalescing keys sched s :
  exec (init keys) sched = Some s →
  (∀ t1 t2 k c1 c2,
     threads s !! t1 = Some (k, Running c1) →
     threads s !! t2 = Some (k, Running c2) → t1 = t2)
  ∧ (∀ t k c,
       m s !! k = Some c → threads s !! t = Some (k, Start) →
       ∃ s', step s t Enter = Some s'
             ∧ threads s' !! t = Some (k, Waiting c) ∧ execs s' = execs s)
  ∧ NoDup (execs s).*2
  ∧ (∀ t1 t2 k1 k2 c r1 r2,
       threads s !! t1 = Some (k1, Returned c r1) →
       threads s !! t2 = Some (k2, Returned c r2) → r1 = r2).
Proof.
  intros Hreach. pose proof (reachable_inv keys sched s Hreach) as Hinv.
  split_and!.
  - intros t1 t2 k c1 c2 Ht1 Ht2.
    pose proof (inv_owner s Hinv _ _ _ c1 Ht1 eq_refl) as H1.
    pose proof (inv_owner s Hinv _ _ _ c2 Ht2 eq_refl) as H2.
    assert (c1 = c2) as -> by congruence.
    by apply (inv_unique s Hinv _ _ _ _ _ _ c2 Ht1 Ht2).
  - intros t k c Hk Ht. by apply step_Enter_join.
  - apply Hinv.
  - intros t1 t2 k1 k2 c r1 r2 Ht1 Ht2.
    destruct (inv_result s Hinv _ _ _ _ Ht1) as (cl1 & Hc1 & _ & <-).
    destruct (inv_result s Hinv _ _ _ _ Ht2) as (cl2 & Hc2 & _ & <-).
    congruence.
Qed.

(** C3, as the code has it: the case of an [fn] that returns an error.
    From the moment [fn] has returned [(v, e)], along every
    interleaving: every caller that returns from the call returns
    [(v, e)]; the producer is never blocked on its way out; once it has
    called [Done], each waiter can wake up, and returns [(v, e)]; and
    once the producer has returned, the call is out of the map, so that
    a caller arriving then joins another call, and invokes its own [fn]
    when the key has none. *)
Theorem singleflight_error_released keys sched s t k c v e :
  exec (init keys) sched = Some s →
  threads s !! t = Some (k, Running c) →
  ∃ s1, step s t (Return (v, Some e)) = Some s1 ∧
    ∀ sched' s', exec s1 sched' = Some s' →
      (∀ w kw r, threads s' !! w = Some (kw, Returned c r) → r = (v, Some e))
      ∧ (threads s' !! t = Some (k, Stored c) → is_Some (step s' t Done))
      ∧ (threads s' !! t = Some (k, Released c) → is_Some (step s' t Delete))
      ∧ (∀ w kw,
           threads s' !! w = Some (kw, Waiting c) →
           threads s' !! t = Some (k, Released c)
           ∨ (∃ r, threads s' !! t = Some (k, Returned c r)) →
           ∃ s'', step s' w Wake = Some s''
                  ∧ threads s'' !! w = Some (kw, Returned c (v, Some e)))
      ∧ (∀ r, threads s' !! t = Some (k, Returned c r) →
           m s' !! k ≠ Some c
           ∧ ∀ t', threads s' !! t' = Some (k, Start) →
               match m s' !! k with
               | Some c' =>
                   ∃ s'', step s' t' Enter = Some s''
                          ∧ threads s'' !! t' = Some (k, Waiting c')
               | None =>
                   ∃ s'', step s' t' Enter = Some s''
                          ∧ threads s'' !! t' = Some (k, Running (length (heap s')))
                          ∧ execs s'' = execs s' ++ [(t', k, length (heap s'))]
               end).
Proof.
  intros Hreach Ht. pose proof (reachable_inv keys sched s Hreach) as Hinv.
  destruct (inv_busy s Hinv t k _ c Ht eq_refl) as (cl & Hcl & Hwg); [done|].
  assert (t < length (threads s))%nat as Hlen by (by apply lookup_lt_Some in Ht).
  eexists. split; [unfold step; by rewrite Ht|].
  set (s1 := mkState _ _ _ _).
  assert (inv s1) as Hinv1 by (by apply step_return).
  assert (settled c (v, Some e) s1) as Hset1.
  { split; simpl.
    - rewrite list_lookup_alter_eq, Hcl. by eexists.
    - intros t1 k1 Ht1.
      apply list_lookup_insert_Some in Ht1 as [(_ & ? & _)|(Hne & Ht1)]; [done|].
      by pose proof (inv_unique s Hinv _ _ _ _ _ _ c Ht Ht1 eq_refl eq_refl). }
  assert (past_fn t k c s1) as Hpast1.
  { unfold past_fn. simpl. by rewrite list_lookup_insert_eq. }
  intros sched' s' Hexec.
  pose proof (flight_exec_inv _ _ _ Hinv1 Hexec) as Hinv'.
  destruct (settled_exec _ _ _ _ _ Hset1 Hexec) as [(cl' & Hcl' & Hval') Hrun'].
  pose proof (past_fn_exec _ _ _ _ _ _ Hinv1 Hpast1 Hexec) as Hpast'.
  split_and!.
  - intros w kw r Hw.
    destruct (inv_result s' Hinv' _ _ _ _ Hw) as (cl2 & Hc2 & _ & <-). congruence.
  - intros Ht'. unfold step. by rewrite Ht'.
  - intros Ht'. unfold step. rewrite Ht', Hcl'. done.
  - intros w kw Hw Hprod.
    assert (wg cl' = 0%nat) as Hwg'.
    { destruct Hprod as [Hp|[r Hp]].
      - destruct (inv_done s' Hinv' _ _ _ Hp) as (cl2 & Hc2 & Hwg2). congruence.
      - destruct (inv_result s' Hinv' _ _ _ _ Hp) as (cl2 & Hc2 & Hwg2 & _). congruence. }
    rewrite <- Hval'. by apply step_Wake.
  - intros r Ht'. unfold past_fn in Hpast'. rewrite Ht' in Hpast'.
    destruct Hpast' as (_ & _ & Hk). split; [done|].
    intros t' Hstart. destruct (m s' !! k) as [c'|] eqn:Hk'.
    + destruct (step_Enter_join s' t' k c' Hstart Hk') as (s'' & ? & ? & _). eauto.
    + by apply step_Enter_fresh.
Qed.

(** When [fn] panics, [Do] is unwound before [Done] and [delete]: the
    call stays in the map with its counter at one, for ever. *)
Lemma panicked_stays s sched s' t k c :
  threads s !! t = Some (k, Panicked c) → exec s sched = Some s' →
  threads s' !! t = Some (k, Panicked c).
Proof.
  revert s. induction sched as [|[t0 a] sched IH]; intros s Ht; simpl.
  - by intros [= <-].
  - destruct (step s t0 a) as [s1|] eqn:Hstep; [|done].
    apply IH. destruct (decide (t0 = t)) as [->|Hne].
    + unfold step in Hstep. rewrite Ht in Hstep. by destruct a.
    + by rewrite (step_other s t0 a s1 t Hstep Hne).
Qed.

Lemma panicked_blocks s t k c :
  inv s → threads s !! t = Some (k, Panicked c) →
  m s !! k = Some c
  ∧ (∀ w kw r, threads s !! w ≠ Some (kw, Returned c r))
  ∧ (∀ w kw a, threads s !! w = Some (kw, Waiting c) → step s w a = None).
Proof.
  intros Hinv Ht.
  destruct (inv_busy s Hinv t k _ c Ht eq_refl) as (cl & Hcl & Hwg); [done|].
  split_and!.
  - by apply (inv_owner s Hinv t k (Panicked c)).
  - intros w kw r Hw.
    destruct (inv_result s Hinv _ _ _ _ Hw) as (cl2 & Hc2 & Hwg2 & _).
    assert (cl2 = cl) as -> by congruence. lia.
  - intros w kw a Hw. unfold step. rewrite Hw. destruct a; try done.
    rewrite Hcl. rewrite decide_False; [done|lia].
Qed.

End flight_theorems.

(** ** The group load path *)

Section group_claims.
Import byteview kcache.
Context {W : Type}.
Implicit Types (st : St W) (key : string) (c : cache).

Lemma cache_get_miss c key : misses c key → cache_get c key = (None, c).
Proof.
  unfold misses, cache_get. destruct c as [[l|] cb]; simpl; [|done].
  destruct (lru.Get l key) as [[v|] l'] eqn:Hget; simpl; [done|].
  intros _. by rewrite (Get_miss l key l' Hget).
Qed.

Lemma set_mainCache_id st : set_mainCache (mainCache (group st)) st = st.
Proof. by destruct st as [w [n g c p l] tr]. Qed.

Lemma release_key key (l : gset string) : key ∉ l → ({[key]} ∪ l) ∖ {[key]} = l.
Proof.
  intros Hk. apply set_eq. intros x.
  rewrite elem_of_difference, elem_of_union, elem_of_singleton.
  split; [by intros [[?|?] ?]|]. intros Hx. split; [by right|]. by intros ->.
Qed.

(** [load_fn] asks the origin loader at most once. *)
Lemma load_fn_asks_loader_once key st r st' :
  load_fn key st = Some (r, st') →
  ∃ evs, trace st' = trace st ++ evs
         ∧ (length (filter (λ e, is_loader e = true) evs) ≤ 1)%nat.
Proof.
  assert (∀ st r st', getLocally key st = Some (r, st') →
            ∃ evs, trace st' = trace st ++ EvLoader key :: evs
                   ∧ filter (λ e, is_loader e = true) evs = []) as Hlocal.
  { clear. intros st r st'. unfold getLocally.
    destruct (getter (group st) key (world st)) as [[bytes|err] w].
    - unfold bind, populateCache, ret. simpl.
      destruct (cache_add _ _ _) as [c|]; [|done]. intros [= <- <-]. simpl.
      exists [EvPopulate key]. by rewrite <- app_assoc.
    - intros [= <- <-]. simpl. by exists []. }
  unfold load_fn.
  destruct (peers (group st)) as [picker|]; [destruct (picker key) as [peer|]|].
  - unfold bind, getFromPeer.
    destruct (peer (name (group st)) key (world st)) as [[bytes|err] w].
    + intros [= <- <-]. simpl. exists [EvPeer (name (group st)) key].
      split; [done|]. rewrite filter_cons. simpl. lia.
    + intros Hloc. apply Hlocal in Hloc as (evs & -> & Hevs). simpl.
      exists (EvPeer (name (group st)) key :: EvLoader key :: evs).
      rewrite <- app_assoc. split; [done|].
      rewrite !filter_cons. simpl. rewrite Hevs. simpl. lia.
  - intros Hloc. apply Hlocal in Hloc as (evs & -> & Hevs).
    exists (EvLoader key :: evs). split; [done|].
    rewrite filter_cons. simpl. rewrite Hevs. simpl. lia.
  - intros Hloc. apply Hlocal in Hloc as (evs & -> & Hevs).
    exists (EvLoader key :: evs). split; [done|].
    rewrite filter_cons. simpl. rewrite Hevs. simpl. lia.
Qed.

(** C7. When the picker names a peer for [k] and the peer answers with
    [bytes], [load] returns the [ByteView] that wraps [bytes] and no
    error; the only call made is the one to the peer, [populateCache] is
    not called, the main cache is as it was, and a key that missed
    before still misses. *)
Theorem load_from_peer st key picker peer bytes w :
  key ∉ loader (group st) →
  peers (group st) = Some picker →
  picker key = Some peer →
  peer (name (group st)) key (world st) = (inl bytes, w) →
  ∃ st', load key st = Some ((mkByteView bytes, None), st')
         ∧ trace st' = trace st ++ [EvPeer (name (group st)) key]
         ∧ mainCache (group st') = mainCache (group st)
         ∧ (misses (mainCache (group st)) key → misses (mainCache (group st')) key).
Proof.
  intros Hfree Hpeers Hpick Hpeer.
  unfold load, bind, Do. rewrite decide_False by done.
  unfold load_fn, bind, getFromPeer. simpl. rewrite Hpeers, Hpick, Hpeer. simpl.
  eexists. split; [done|]. simpl. split_and!; [done|done|]. done.
Qed.

(** C8. When the key misses the cache and the peer named by the picker
    fails, the origin loader is asked, whatever it then answers: every
    [Get] that returns has asked the peer once and then the loader once.
    If the loader fails with [lerr], [Get] returns [lerr];
    [populateCache] has not been called and the group is as it was, so
    the key still misses; and a following [Get] of the key goes through
    [load] again. If the loader answers with [bytes], [Get] returns
    them after [populateCache] has stored them (and does not return if
    [populateCache] does not). *)
Theorem Get_loader_error st key picker peer perr w1 :
  key ≠ EmptyString →
  misses (mainCache (group st)) key →
  key ∉ loader (group st) →
  peers (group st) = Some picker →
  picker key = Some peer →
  peer (name (group st)) key (world st) = (inr perr, w1) →
  (∀ r st', Get key st = Some (r, st') →
     ∃ evs, trace st' = trace st ++ [EvPeer (name (group st)) key; EvLoader key] ++ evs
            ∧ filter (λ e, is_loader e = true) evs = [])
  ∧ (∀ lerr w2, getter (group st) key w1 = (inr lerr, w2) →
       ∃ st', Get key st = Some ((mkByteView [], Some lerr), st')
              ∧ trace st' = trace st ++ [EvPeer (name (group st)) key; EvLoader key]
              ∧ world st' = w2
              ∧ group st' = group st
              ∧ misses (mainCache (group st')) key
              ∧ Get key st' = load key st')
  ∧ (∀ bytes w2, getter (group st) key w1 = (inl bytes, w2) →
       Get key st =
         match cache_add (mainCache (group st)) key (mkByteView bytes) with
         | Some c' =>
             Some ((mkByteView bytes, None),
                   set_mainCache c'
                     (mkSt w2 (group st)
                           (trace st ++ [EvPeer (name (group st)) key;
                                         EvLoader key; EvPopulate key])))
         | None => None
         end).
Proof.
  intros Hkey Hmiss Hfree Hpeers Hpick Hpeer.
  assert (∀ st0, misses (mainCache (group st0)) key → Get key st0 = load key st0)
    as Hreenter.
  { intros st0 Hm. unfold Get. rewrite decide_False by done.
    by rewrite (cache_get_miss _ _ Hm), set_mainCache_id. }
  rewrite (Hreenter st Hmiss).
  destruct st as [w [n g c p l] tr]. simpl in *. subst p.
  unfold load, bind, Do. simpl. rewrite decide_False by done.
  unfold load_fn, bind, getFromPeer, getLocally. simpl.
  rewrite Hpick, Hpeer. simpl.
  destruct (g key w1) as [[bytes|lerr] w2] eqn:Hget; simpl.
  - unfold populateCache, bind, ret. simpl. rewrite cloneBytes_eq.
    destruct (cache_add c key (mkByteView bytes)) as [c'|] eqn:Hadd; simpl.
    + split_and!.
      * intros r st' [= <- <-]. simpl. exists [EvPopulate key].
        split; [by rewrite <- !app_assoc|done].
      * intros lerr w3 [=].
      * intros bytes' w3 [= <- <-]. rewrite Hadd.
        unfold set_mainCache, set_loader. simpl. rewrite release_key by done.
        by rewrite <- !app_assoc.
    + split_and!; [done| |].
      * intros lerr w3 [=].
      * intros bytes' w3 [= <- <-]. by rewrite Hadd.
  - split_and!.
    + intros r st' [= <- <-]. simpl. exists [].
      split; [by rewrite <- !app_assoc|done].
    + intros lerr' w3 [= <- <-]. eexists. split; [done|].
      unfold set_loader, emit. simpl. rewrite release_key by done.
      split_and!; [by rewrite <- app_assoc|done..|].
      by apply Hreenter.
    + intros bytes w3 [=].
Qed.

End group_claims.

(** ** The peer pool *)

(** ** Concurrent callers of [Get] *)

Section concurrent_claims.
Import byteview concurrent.
Context {W : Type}.
Implicit Types (g : kcache.Group W) (s : state W) (a : action).

Lemma flight_step_execs {V E} (f : singleflight.state V E) t
    (x : singleflight.action V E) f' :
  singleflight.step f t x = Some f' →
  ∃ l, singleflight.execs f' = singleflight.execs f ++ l.
Proof.
  unfold singleflight.step.
  destruct (singleflight.threads f !! t) as [[k p]|]; [|done].
  destruct p, x; try done; repeat case_match; try done; intros [= <-]; simpl;
    try (by exists []; rewrite app_nil_r); by eexists.
Qed.

Lemma flight_step_length {V E} (f : singleflight.state V E) t
    (x : singleflight.action V E) f' :
  singleflight.step f t x = Some f' →
  length (singleflight.threads f') = length (singleflight.threads f).
Proof.
  unfold singleflight.step.
  destruct (singleflight.threads f !! t) as [[k p]|]; [|done].
  destruct p, x; try done; repeat case_match; try done; intros [= <-]; simpl;
    by rewrite length_insert.
Qed.

(** A caller is inside [fn] only after it has registered the call. *)
Lemma flight_step_running {V E} (f : singleflight.state V E) t
    (x : singleflight.action V E) f' k c :
  singleflight.step f t x = Some f' →
  singleflight.threads f' !! t = Some (k, singleflight.Running c) →
  singleflight.threads f !! t = Some (k, singleflight.Running c)
  ∨ (t, k, c) ∈ singleflight.execs f'.
Proof.
  unfold singleflight.step.
  destruct (singleflight.threads f !! t) as [[k0 p]|] eqn:Ht; [|done].
  assert (t < length (singleflight.threads f))%nat as Hlen
    by (by apply lookup_lt_Some in Ht).
  destruct p, x; try done; repeat case_match; try done; intros [= <-]; simpl;
    rewrite list_lookup_insert_eq by done; intros [=]; subst.
  right. apply elem_of_app. right. apply list_elem_of_here.
Qed.

Lemma producers_init keys :
  producers (singleflight.init (V:=ByteView) (E:=kcache.error) keys).
Proof.
  intros t k c Ht. simpl in Ht. rewrite list_lookup_fmap in Ht.
  destruct (keys !! t); simpl in Ht; congruence.
Qed.

Lemma producers_step (f : singleflight.state ByteView kcache.error) t
    (x : singleflight.action ByteView kcache.error) f' :
  producers f → singleflight.step f t x = Some f' → producers f'.
Proof.
  intros Hprod Hstep t1 k1 c1 Ht1.
  destruct (flight_step_execs f t x f' Hstep) as [l Hl].
  assert (singleflight.threads f !! t1 = Some (k1, singleflight.Running c1) →
          (t1, k1, c1) ∈ singleflight.execs f') as Hold.
  { intros Ht. rewrite Hl. apply elem_of_app. left. by apply Hprod. }
  destruct (decide (t = t1)) as [->|Hne].
  - destruct (flight_step_running f t1 x f' k1 c1 Hstep Ht1) as [Ht|Hin]; [|done].
    by apply Hold.
  - apply Hold. by rewrite <- (step_other f t x f' t1 Hstep Hne).
Qed.

Lemma callers_inv_init g keys w : inv (init g keys w).
Proof.
  constructor; simpl.
  - apply inv_init.
  - apply producers_init.
  - intros t k p Ht Hp. rewrite list_lookup_fmap in Ht.
    destruct (keys !! t); simpl in Ht; congruence.
  - by rewrite length_replicate, length_fmap.
  - apply NoDup_nil_2.
  - intros t k c Hin. by apply elem_of_nil in Hin.
  - intros x Hin. by apply elem_of_nil in Hin.
Qed.

Lemma callers_step_inv g s t a s' : inv s → step g s t a = Some s' → inv s'.
Proof.
  intros [Hfl Hprod Hent Hlen Honce Hpast Hexec] Hstep.
  assert (∀ t1 k1 c1 ph', (t1, k1, c1) ∈ loads s →
            (∀ ph, phases s !! t = Some ph → past_loader ph → past_loader ph') →
            ∃ ph1, <[t := ph']> (phases s) !! t1 = Some ph1 ∧ past_loader ph1)
    as Hkeep.
  { intros t1 k1 c1 ph' Hin Hmono.
    destruct (Hpast t1 k1 c1 Hin) as (ph1 & Hph1 & Hp1).
    destruct (decide (t = t1)) as [->|Hne].
    - exists ph'. split; [|by apply (Hmono ph1)].
      apply list_lookup_insert_eq. by apply lookup_lt_Some in Hph1.
    - exists ph1. by rewrite list_lookup_insert_ne. }
  assert (∀ ph', (∃ f, ph' = Missed f) ∨ (∃ k, singleflight.threads (fl s) !! t
                                                 = Some (k, singleflight.Start)) →
            ∀ t1 k1 p1, singleflight.threads (fl s) !! t1 = Some (k1, p1) →
              p1 ≠ singleflight.Start →
              ∃ f, <[t := ph']> (phases s) !! t1 = Some (Missed f)) as Hent'.
  { intros ph' Hph' t1 k1 p1 Ht1 Hp1.
    destruct (Hent t1 k1 p1 Ht1 Hp1) as [f Hf].
    destruct (decide (t = t1)) as [->|Hne].
    - destruct Hph' as [[f' ->]|[k Hk]].
      + exists f'. apply list_lookup_insert_eq. by apply lookup_lt_Some in Hf.
      + congruence.
    - exists f. by rewrite list_lookup_insert_ne. }
  assert (∀ x f0, phases s !! t = Some (Missed f0) →
            singleflight.step (fl s) t x = None ∨
            ∀ f, singleflight.step (fl s) t x = Some f → inv (set_fl f s)) as Hflight.
  { intros x f0 Hf0. destruct (singleflight.step (fl s) t x) as [f|] eqn:Hf; [|by left].
    right. intros f1 [= <-]. constructor; simpl.
    - by apply (flight_step_inv (fl s) t x).
    - by apply (producers_step (fl s) t x).
    - intros t1 k1 p1 Ht1 Hp1.
      destruct (decide (t = t1)) as [->|Hne]; [by exists f0|].
      rewrite (step_other (fl s) t x f t1 Hf Hne) in Ht1. by apply (Hent t1 k1 p1).
    - by rewrite (flight_step_length (fl s) t x f Hf).
    - done.
    - done.
    - intros y Hy. destruct (flight_step_execs (fl s) t x f Hf) as [l ->].
      apply elem_of_app. left. by apply Hexec. }
  unfold step in Hstep.
  destruct (singleflight.threads (fl s) !! t) as [[k p]|] eqn:Ht; [|done].
  destruct (phases s !! t) as [ph|] eqn:Hph; [|done].
  assert (t < length (phases s))%nat as Hlt by (by apply lookup_lt_Some in Hph).
  assert (∀ ph', ¬ past_loader ph → (∃ f, ph' = Missed f) ∨ p = singleflight.Start →
            ∀ c (w : W), inv (mkState (fl s) (<[t := ph']> (phases s)) c w (loads s)))
    as Hquiet.
  { intros ph' Hnot Hph' c w. constructor; simpl; try done.
    - apply Hent'. destruct Hph' as [Hm | ->]; [by left|right; by exists k].
    - by rewrite length_insert.
    - intros t1 k1 c1 Hin. apply (Hkeep t1 k1 c1 ph' Hin).
      intros ph0 [= <-] Hp0. by destruct Hnot. }
  destruct a as [|x| | | |].
  - destruct ph; try done.
    assert (p = singleflight.Start) as ->.
    { destruct p; [done|..];
        (destruct (Hent t k _ Ht) as [f Hf]; [done|congruence]). }
    case_decide.
    + injection Hstep as <-. apply (Hquiet Rejected); [by intros []|by right].
    + destruct (kcache.cache_get _ _) as [[v|] c]; injection Hstep as <-.
      * apply (Hquiet (Hit v)); [by intros []|by right].
      * apply (Hquiet (Missed FnStart)); [by intros []|by right].
  - destruct x as [|r| | | |]; destruct ph as [| | |f0]; try done;
      (match type of Hstep with
       | context [singleflight.step (fl s) t ?y] =>
           destruct (Hflight y f0 eq_refl) as [Hn|Hs]
       end;
       [by rewrite Hn in Hstep|];
       destruct (singleflight.step (fl s) t _) as [f|]; [|done];
       injection Hstep as <-; by apply Hs).
  - destruct ph as [| | |[| | |]]; try done. destruct p; try done.
    destruct (picked g k) as [peer|]; [|done].
    destruct (peer _ _ _) as [res w]. injection Hstep as <-.
    apply Hquiet; [by intros []|left; by eexists].
  - destruct ph as [| | |f]; try done. destruct p as [|c|c|c|c|c r|c]; try done.
    case_match eqn:Hasks; [|done].
    destruct (kcache.getter _ _ _) as [res w]. injection Hstep as <-.
    assert (¬ past_loader (Missed f)) as Hnot.
    { destruct f; try (by intros []); done. }
    assert (∀ k1 c1, (t, k1, c1) ∉ loads s) as Hfresh.
    { intros k1 c1 Hin. destruct (Hpast t k1 c1 Hin) as (ph1 & Hph1 & Hp1).
      rewrite Hph in Hph1. by injection Hph1 as <-. }
    constructor; simpl; try done.
    + apply Hent'. left. by eexists.
    + by rewrite length_insert.
    + rewrite !fmap_app. apply NoDup_app. split_and!; [done| |apply NoDup_singleton].
      intros t1 Hin1 Hin2. apply list_elem_of_singleton in Hin2. simpl in Hin2.
      subst t1. apply list_elem_of_fmap in Hin1 as (y & Hy & Hin1).
      apply list_elem_of_fmap in Hin1 as (z & Hz & Hin1).
      destruct z as [[t2 k2] c2]. simpl in *. subst y. simpl in Hy. subst t2.
      by apply (Hfresh k2 c2).
    + intros t1 k1 c1 Hin. apply elem_of_app in Hin as [Hin|Hin].
      * apply (Hkeep t1 k1 c1 _ Hin). intros ph0 [= <-] Hp0. by destruct Hnot.
      * apply list_elem_of_singleton in Hin. injection Hin as -> -> ->.
        eexists. split; [by apply list_lookup_insert_eq|]. by destruct res.
    + intros x Hx. apply elem_of_app in Hx as [Hx|Hx]; [by apply Hexec|].
      apply list_elem_of_singleton in Hx. subst x. by apply Hprod.
  - destruct ph as [| | |[| |bytes|]]; try done. destruct p; try done.
    destruct (kcache.cache_add _ _ _) as [c'|]; [|done]. injection Hstep as <-.
    constructor; simpl; try done.
    + apply Hent'. left. by eexists.
    + by rewrite length_insert.
    + intros t1 k1 c1 Hin. apply (Hkeep t1 k1 c1 _ Hin). by intros ph0 [= <-] Hp0.
  - destruct ph as [| | |[| | |r]]; try done. destruct p; try done.
    destruct (Hflight (singleflight.Return r) _ eq_refl) as [Hn|Hs];
      [by rewrite Hn in Hstep|].
    destruct (singleflight.step (fl s) t _) as [f|]; [|done].
    injection Hstep as <-. by apply Hs.
Qed.

Lemma callers_exec_inv g s sched s' :
  inv s → exec g s sched = Some s' → inv s'.
Proof.
  revert s. induction sched as [|[t a] sched IH]; intros s Hinv; simpl.
  - by intros [= <-].
  - destruct (step g s t a) as [s1|] eqn:Hstep; [|done].
    apply IH. by apply (callers_step_inv g s t a).
Qed.

Lemma NoDup_fmap_eq {A B} (f : A → B) (l : list A) x y :
  NoDup (f <$> l) → x ∈ l → y ∈ l → f x = f y → x = y.
Proof.
  induction l as [|z l IH]; intros Hnd Hx Hy Hf; [by apply elem_of_nil in Hx|].
  rewrite fmap_cons in Hnd. apply NoDup_cons in Hnd as [Hz Hnd].
  apply elem_of_cons in Hx as [->|Hx], Hy as [->|Hy]; [done| | |by apply IH].
  - exfalso. apply Hz. rewrite Hf. by apply list_elem_of_fmap_2.
  - exfalso. apply Hz. rewrite <- Hf. by apply list_elem_of_fmap_2.
Qed.


(** C2, as the code has it. Concurrent callers of [Get] on one group,
    in every state that a schedule can reach.  While a call record of a key is in
    the in-flight map, at most one caller is inside the load function of
    that key; a caller that missed the cache and enters [Do] while the
    record of its key is in the map joins it, and from then on only
    waits and returns the stored result, without a call to the origin
    loader, a peer or the cache; the origin loader is called at most
    once per call record, by the producer of that record; and all
    callers that return from the same call record have received the
    same [(value, error)] pair from [Do] and return the same pair from
    [Get]. *)
Theorem Get_coalescing g keys w sched s :
  exec g (init g keys w) sched = Some s →
  (∀ t1 t2 k c1 c2,
     singleflight.threads (fl s) !! t1 = Some (k, singleflight.Running c1) →
     singleflight.threads (fl s) !! t2 = Some (k, singleflight.Running c2) →
     t1 = t2)
  ∧ (∀ t k c f,
       singleflight.m (fl s) !! k = Some c →
       singleflight.threads (fl s) !! t = Some (k, singleflight.Start) →
       phases s !! t = Some (Missed f) →
       ∃ s', step g s t (Flight singleflight.Enter) = Some s'
             ∧ singleflight.threads (fl s') !! t = Some (k, singleflight.Waiting c)
             ∧ loads s' = loads s ∧ world s' = world s
             ∧ mainCache s' = mainCache s)
  ∧ (∀ t k c a s',
       singleflight.threads (fl s) !! t = Some (k, singleflight.Waiting c) →
       step g s t a = Some s' →
       loads s' = loads s ∧ world s' = world s ∧ mainCache s' = mainCache s
       ∧ ∃ r, singleflight.threads (fl s') !! t
              = Some (k, singleflight.Returned c r))
  ∧ (NoDup (loads s).*2
     ∧ ∀ t k c, (t, k, c) ∈ loads s → (t, k, c) ∈ singleflight.execs (fl s))
  ∧ (∀ t1 t2 k1 k2 c r1 r2,
       singleflight.threads (fl s) !! t1 = Some (k1, singleflight.Returned c r1) →
       singleflight.threads (fl s) !! t2 = Some (k2, singleflight.Returned c r2) →
       r1 = r2 ∧ Get_result s t1 = Get_result s t2).
Proof.
  intros Hexec.
  pose proof (callers_exec_inv g _ _ _ (callers_inv_init g keys w) Hexec)
    as [Hfl Hprod Hent Hlen Honce Hpast Hin].
  split_and!.
  - intros t1 t2 k c1 c2 Ht1 Ht2.
    pose proof (singleflight.inv_owner _ Hfl t1 k _ c1 Ht1 eq_refl) as Hk1.
    pose proof (singleflight.inv_owner _ Hfl t2 k _ c2 Ht2 eq_refl) as Hk2.
    assert (c1 = c2) as -> by congruence.
    by apply (singleflight.inv_unique _ Hfl t1 t2 k k _ _ c2 Ht1 Ht2).
  - intros t k c f Hk Ht Hph.
    assert (t < length (singleflight.threads (fl s)))%nat as Hlt
      by (by apply lookup_lt_Some in Ht).
    unfold step. rewrite Ht, Hph. simpl. unfold singleflight.step. rewrite Ht, Hk.
    eexists. split; [done|]. simpl. split_and!; [|done..].
    by apply list_lookup_insert_eq.
  - intros t k c a s' Ht. unfold step. rewrite Ht.
    assert (t < length (singleflight.threads (fl s)))%nat as Hlt
      by (by apply lookup_lt_Some in Ht).
    destruct (Hent t k _ Ht) as [f Hf]; [done|]. rewrite Hf.
    destruct a as [|x| | | |]; try (by destruct f).
    destruct x as [|r| | | |]; try done;
      unfold singleflight.step; rewrite Ht; try done.
    destruct (singleflight.heap (fl s) !! c) as [cl|]; [|done].
    case_decide; [|done]. intros [= <-]. simpl.
    split_and!; [done..|]. eexists. by apply list_lookup_insert_eq.
  - apply NoDup_fmap_2_strong;
      [|by apply NoDup_fmap_1 in Honce; apply NoDup_fmap_1 in Honce].
    intros x y Hx Hy Hxy.
    apply (NoDup_fmap_eq snd (singleflight.execs (fl s)));
      [apply (singleflight.inv_execs _ Hfl)|by apply Hin..|done].
  - intros t k c. apply Hin.
  - intros t1 t2 k1 k2 c r1 r2 Ht1 Ht2.
    destruct (singleflight.inv_result _ Hfl t1 k1 c r1 Ht1) as (cl1 & Hcl1 & _ & Hr1).
    destruct (singleflight.inv_result _ Hfl t2 k2 c r2 Ht2) as (cl2 & Hcl2 & _ & Hr2).
    assert (r1 = r2) as -> by congruence. split; [done|].
    destruct (Hent t1 k1 _ Ht1) as [f1 Hf1]; [done|].
    destruct (Hent t2 k2 _ Ht2) as [f2 Hf2]; [done|].
    unfold Get_result. by rewrite Ht1, Ht2, Hf1, Hf2.
Qed.

End concurrent_claims.

Section pool_claims.
Import httppool.

(** The node selected by a ring is one of the nodes added to it, or the
    empty string. *)
Lemma ring_Get_member r fn ks key :
  consistenthash.Get (consistenthash.Add (consistenthash.New r fn) ks) key = EmptyString
  ∨ consistenthash.Get (consistenthash.Add (consistenthash.New r fn) ks) key ∈ ks.
Proof.
  rewrite Add_unfold. unfold consistenthash.Get. simpl.
  destruct (_ =? 0); [by left|].
  unfold consistenthash.owner. simpl.
  destruct (consistenthash.record ∅ _ !! _) as [k|] eqn:Hk; simpl; [|by left].
  right. apply record_lookup_inv in Hk as [Hk|Hk]; [|by rewrite lookup_empty in Hk].
  unfold consistenthash.vnodes in Hk.
  apply list_elem_of_bind in Hk as (k' & Hk & Hk').
  apply list_elem_of_fmap in Hk as (i & [= _ ->] & _). done.
Qed.

Lemma Set_getters p ps peer :
  peer ∈ ps →
  httpGetters (Set_ p ps) !! peer = Some (mkGetter (peer +:+ basePath p)).
Proof.
  unfold Set_. simpl. generalize (∅ : gmap string httpGetter).
  induction ps as [|x ps IH]; intros g Hin; simpl.
  - by apply elem_of_nil in Hin.
  - destruct (decide (peer ∈ ps)) as [Hps|Hps]; [by apply IH|].
    apply elem_of_cons in Hin as [->|]; [|done].
    clear IH. revert g. induction ps as [|y ps IH]; intros g; simpl.
    + by rewrite lookup_insert_eq.
    + apply not_elem_of_cons in Hps as [Hne Hps].
      rewrite insert_insert_ne by done. by apply IH.
Qed.

(** After [Set], [PickPeer] returns: with [(nil, false)] when the ring
    selects the local node or holds no peer, and otherwise with the
    fetcher of the selected peer, which is not the local node. *)
Lemma PickPeer_after_Set p ps key :
  ∃ peer, ring_Get (peers (Set_ p ps)) key = Returns peer
    ∧ (peer = EmptyString ∨ peer = self p →
       PickPeer (Set_ p ps) key = Returns (None, false))
    ∧ (peer ≠ EmptyString → peer ≠ self p →
       PickPeer (Set_ p ps) key
       = Returns (Some (mkGetter (peer +:+ basePath p)), true)).
Proof.
  eexists. split; [done|]. unfold PickPeer.
  change (peers (Set_ p ps))
    with (Some (consistenthash.Add (consistenthash.New defaultReplicas None) ps)).
  change (self (Set_ p ps)) with (self p). cbn [ring_Get]. split.
  - intros Hpeer. rewrite bool_decide_eq_false_2; [done|].
    intros [? ?]. by destruct Hpeer.
  - intros Hne Hself. rewrite bool_decide_eq_true_2 by done.
    destruct (ring_Get_member defaultReplicas None ps key) as [Hnil|Hin]; [done|].
    by rewrite (Set_getters p ps _ Hin).
Qed.

Lemma PickPeer_no_peers p key : PickPeer (Set_ p []) key = Returns (None, false).
Proof. done. Qed.

(** C4, at the input where the code departs from it: on a pool on which
    [Set] has never been called, [PickPeer] does not return
    [(nil, false)]; it panics on the nil ring. *)
Theorem PickPeer_unset_panics self key :
  PickPeer (NewHTTPPool self) key = Panics.
Proof. done. Qed.

End pool_claims.

(** ** The theorems at sample inputs *)

Lemma lru_byte_budget_witness :
  lru.within_int64 (lru.New 20 false) samples.lru_ops
  ∧ lru.run (lru.New 20 false) samples.lru_ops = Some samples.lru_end
  ∧ lru.nbytes samples.lru_end = lru.live_bytes (lru.ll samples.lru_end)
  ∧ (0 < 20 → lru.nbytes samples.lru_end ≤ 20).
Proof.
  assert (lru.within_int64 (lru.New 20 false) samples.lru_ops) as Hfit
    by (vm_compute; intuition discriminate).
  assert (lru.run (lru.New 20 false) samples.lru_ops = Some samples.lru_end) as Hrun
    by (vm_compute; reflexivity).
  split; [exact Hfit|]. split; [exact Hrun|].
  exact (lru_byte_budget 20 false samples.lru_ops samples.lru_end Hfit Hrun).
Defined.

Lemma lru_recency_order_witness :
  lru.within_int64 (lru.New 20 false) samples.lru_ops
  ∧ lru.run (lru.New 20 false) samples.lru_ops = Some samples.lru_end
  ∧ lru.by_last_access (lru.history (lru.New 20 false) samples.lru_ops)
      (lru.key <$> lru.ll samples.lru_end)
  ∧ (∀ k v c', lru.Get samples.lru_end k = (Some v, c') → lru.front c' = Some k)
  ∧ (∀ k v c', lru.fits samples.lru_end k v →
               20 = 0 ∨ lru.len k + lru.Len v ≤ 20 →
               lru.Add samples.lru_end k v = Some c' → lru.front c' = Some k).
Proof.
  assert (lru.within_int64 (lru.New 20 false) samples.lru_ops) as Hfit
    by (vm_compute; intuition discriminate).
  assert (lru.run (lru.New 20 false) samples.lru_ops = Some samples.lru_end) as Hrun
    by (vm_compute; reflexivity).
  split; [exact Hfit|]. split; [exact Hrun|].
  exact (lru_recency_order 20 false samples.lru_ops samples.lru_end Hfit Hrun).
Defined.

(** An entry larger than the budget is evicted by the [Add] that stores
    it: its key is not at the front when [Add] returns. *)
Lemma lru_recency_counterexample :
  ¬ (∀ maxB ev (ops : list (lru.Op byteview.ByteView)) c k v c',
       lru.within_int64 (lru.New maxB ev) ops →
       lru.run (lru.New maxB ev) ops = Some c →
       lru.fits c k v →
       lru.Add c k v = Some c' → lru.front c' = Some k).
Proof.
  intros Hclaim.
  specialize (Hclaim 1 false [] (lru.New 1 false) "ab"%string (byteview.mkByteView [])
                (lru.mkCache 1 0 [] ∅ false 1 []) I eq_refl).
  assert (lru.front (lru.mkCache (V:=byteview.ByteView) 1 0 [] ∅ false 1 [])
          = Some "ab"%string) as Hfront.
  { apply Hclaim; [vm_compute; discriminate|vm_compute; reflexivity]. }
  vm_compute in Hfront. discriminate.
Qed.

Lemma lru_add_oversized_witness :
  lru.within_int64 (lru.New 20 false) samples.lru_ops
  ∧ lru.run (lru.New 20 false) samples.lru_ops = Some samples.lru_end
  ∧ lru.fits samples.lru_end "big" samples.v30
  ∧ 0 < 20 ∧ 20 < lru.len "big" + lru.Len samples.v30
  ∧ ∃ c', lru.Add samples.lru_end "big" samples.v30 = Some c'
          ∧ lru.ll c' = [] ∧ lru.cache c' = ∅ ∧ lru.nbytes c' = 0
          ∧ lru.Get c' "big" = (None, c').
Proof.
  assert (lru.within_int64 (lru.New 20 false) samples.lru_ops) as Hfit
    by (vm_compute; intuition discriminate).
  assert (lru.run (lru.New 20 false) samples.lru_ops = Some samples.lru_end) as Hrun
    by (vm_compute; reflexivity).
  assert (lru.fits samples.lru_end "big" samples.v30) as Hbig
    by (vm_compute; discriminate).
  assert (0 < 20) as Hpos by lia.
  assert (20 < lru.len "big" + lru.Len samples.v30) as Hover by (vm_compute; reflexivity).
  split_and!; [exact Hfit|exact Hrun|exact Hbig|exact Hpos|exact Hover|].
  exact (lru_add_oversized 20 false samples.lru_ops samples.lru_end "big" samples.v30
           Hfit Hrun Hbig Hpos Hover).
Defined.

(** With the default hash and 50 replicas, the nodes ["1"] and ["11"]
    share the point of the label ["111"] (replica 11 of the first,
    replica 1 of the second): the node added last owns it. *)
Lemma ring_order_counterexample :
  ¬ (∀ r fn batches batches' key,
       concat batches ≡ₚ concat batches' →
       consistenthash.Get (consistenthash.ring r fn batches) key
       = consistenthash.Get (consistenthash.ring r fn batches') key).
Proof.
  intros Hclaim.
  specialize (Hclaim 50 None [["1"; "11"]]%string [["11"; "1"]]%string "111"%string).
  assert (concat [["1"; "11"]]%string ≡ₚ concat [["11"; "1"]]%string) as Hperm
    by apply Permutation_swap.
  specialize (Hclaim Hperm). vm_compute in Hclaim. discriminate.
Qed.

Lemma ring_order_independent_witness :
  concat [["A"; "B"; "C"]]%string ≡ₚ concat [["C"]; ["A"; "B"]]%string
  ∧ consistenthash.collision_free
      (consistenthash.hash (consistenthash.New 50 None)) 50
      (concat [["A"; "B"; "C"]]%string)
  ∧ consistenthash.ring 50 None [["A"; "B"; "C"]]%string
    = consistenthash.ring 50 None [["C"]; ["A"; "B"]]%string
  ∧ consistenthash.Get (consistenthash.ring 50 None [["A"; "B"; "C"]]%string) "Tom"
    = consistenthash.Get (consistenthash.ring 50 None [["C"]; ["A"; "B"]]%string) "Tom".
Proof.
  assert (concat [["A"; "B"; "C"]]%string ≡ₚ concat [["C"]; ["A"; "B"]]%string) as Hperm.
  { simpl. apply (Permutation_app_comm ["A"; "B"]%string ["C"]%string). }
  assert (consistenthash.collision_free
            (consistenthash.hash (consistenthash.New 50 None)) 50
            (concat [["A"; "B"; "C"]]%string)) as Hfree.
  { apply collision_freeb_spec. vm_compute. reflexivity. }
  split; [exact Hperm|]. split; [exact Hfree|].
  exact (ring_order_independent 50 None _ _ "Tom"%string Hperm Hfree).
Defined.

Lemma singleflight_coalescing_witness :
  singleflight.exec (singleflight.init samples.callers) samples.flight_sched
  = Some samples.flight_end
  ∧ (∀ t1 t2 k c1 c2,
       singleflight.threads samples.flight_end !! t1 = Some (k, singleflight.Running c1) →
       singleflight.threads samples.flight_end !! t2 = Some (k, singleflight.Running c2) →
       t1 = t2)
  ∧ (∀ t k c,
       singleflight.m samples.flight_end !! k = Some c →
       singleflight.threads samples.flight_end !! t = Some (k, singleflight.Start) →
       ∃ s', singleflight.step samples.flight_end t singleflight.Enter = Some s'
             ∧ singleflight.threads s' !! t = Some (k, singleflight.Waiting c)
             ∧ singleflight.execs s' = singleflight.execs samples.flight_end)
  ∧ NoDup (singleflight.execs samples.flight_end).*2
  ∧ (∀ t1 t2 k1 k2 c r1 r2,
       singleflight.threads samples.flight_end !! t1
       = Some (k1, singleflight.Returned c r1) →
       singleflight.threads samples.flight_end !! t2
       = Some (k2, singleflight.Returned c r2) → r1 = r2).
Proof.
  assert (singleflight.exec (singleflight.init samples.callers) samples.flight_sched
          = Some samples.flight_end) as Hexec by (vm_compute; reflexivity).
  split; [exact Hexec|].
  exact (singleflight_coalescing samples.callers samples.flight_sched
           samples.flight_end Hexec).
Defined.

(** Two callers of [Get] on a key that misses; the second enters [Do]
    while the first is inside the loader. *)
Lemma Get_coalescing_witness :
  let g := samples.group_changing in
  let s := samples.joined_end in
  concurrent.exec g (concurrent.init g ["k"; "k"]%string 0%nat) samples.joined_sched
  = Some s
  ∧ concurrent.loads s = [(0, "k"%string, 0)]%nat
  ∧ concurrent.Get_result s 0 = Some (byteview.mkByteView [Byte.x76], None)
  ∧ concurrent.Get_result s 1 = Some (byteview.mkByteView [Byte.x76], None)
  ∧ (NoDup (concurrent.loads s).*2
     ∧ ∀ t k c, (t, k, c) ∈ concurrent.loads s →
                (t, k, c) ∈ singleflight.execs (concurrent.fl s))
  ∧ (∀ t1 t2 k1 k2 c r1 r2,
       singleflight.threads (concurrent.fl s) !! t1
       = Some (k1, singleflight.Returned c r1) →
       singleflight.threads (concurrent.fl s) !! t2
       = Some (k2, singleflight.Returned c r2) →
       r1 = r2 ∧ concurrent.Get_result s t1 = concurrent.Get_result s t2).
Proof.
  intros g s.
  assert (concurrent.exec g (concurrent.init g ["k"; "k"]%string 0%nat)
            samples.joined_sched = Some s) as Hexec by (vm_compute; reflexivity).
  split; [exact Hexec|]. split; [reflexivity|]. split; [reflexivity|].
  split; [reflexivity|].
  exact (proj2 (proj2 (proj2
           (Get_coalescing g ["k"; "k"]%string 0%nat samples.joined_sched s Hexec)))).
Defined.

(** Two callers of [Get] are in [load] on the same missing key at the
    same time; the second enters [Do] after the first has deleted its
    call record: the origin loader is called twice for the key, and the
    two callers return different values. *)
Lemma Get_coalescing_counterexample :
  let g := samples.group_changing in
  let start := concurrent.init g ["k"; "k"]%string 0%nat in
  kcache.misses (kcache.mainCache g) "k"
  ∧ (∃ s0, concurrent.exec g start (take 2 samples.late_sched) = Some s0
           ∧ concurrent.phases s0
             = [concurrent.Missed concurrent.FnStart;
                concurrent.Missed concurrent.FnStart])
  ∧ ∃ s, concurrent.exec g start samples.late_sched = Some s
         ∧ concurrent.loads s = [(0, "k"%string, 0); (1, "k"%string, 1)]%nat
         ∧ concurrent.Get_result s 0 = Some (byteview.mkByteView [Byte.x76], None)
         ∧ concurrent.Get_result s 1
           = Some (byteview.mkByteView [Byte.x76; Byte.x76], None).
Proof.
  intros g start. split; [reflexivity|]. split.
  - eexists. split; [vm_compute; reflexivity|reflexivity].
  - eexists. split; [vm_compute; reflexivity|].
    split_and!; vm_compute; reflexivity.
Qed.

(** [fn] panics while a second caller waits and a third has not arrived:
    from then on the call stays in the map, the waiter never returns, and
    the late caller joins the dead call instead of invoking its [fn]. *)
Lemma singleflight_panic_counterexample :
  singleflight.exec (singleflight.init samples.callers)
    [(0, singleflight.Enter); (1, singleflight.Enter); (0, singleflight.Panic)]%nat
  = Some samples.flight_panicked
  ∧ ∀ sched s',
      singleflight.exec samples.flight_panicked sched = Some s' →
      singleflight.m s' !! "k"%string = Some 0%nat
      ∧ (∀ r, singleflight.threads s' !! 1%nat
              ≠ Some ("k"%string, singleflight.Returned 0 r))
      ∧ (singleflight.threads s' !! 1%nat = Some ("k"%string, singleflight.Waiting 0) →
         ∀ a, singleflight.step s' 1 a = None)
      ∧ (singleflight.threads s' !! 2%nat = Some ("k"%string, singleflight.Start) →
         ∃ s'', singleflight.step s' 2 singleflight.Enter = Some s''
                ∧ singleflight.threads s'' !! 2%nat
                  = Some ("k"%string, singleflight.Waiting 0)
                ∧ singleflight.execs s'' = singleflight.execs s').
Proof.
  assert (singleflight.exec (singleflight.init samples.callers)
            [(0, singleflight.Enter); (1, singleflight.Enter); (0, singleflight.Panic)]%nat
          = Some samples.flight_panicked) as Hexec by (vm_compute; reflexivity).
  split; [exact Hexec|]. intros sched s' Hexec'.
  pose proof (reachable_inv _ _ _ Hexec) as Hinv.
  pose proof (flight_exec_inv _ _ _ Hinv Hexec') as Hinv'.
  assert (singleflight.threads s' !! 0%nat = Some ("k"%string, singleflight.Panicked 0)) as Ht
    by (by apply (panicked_stays samples.flight_panicked sched)).
  destruct (panicked_blocks s' 0 "k" 0 Hinv' Ht) as (Hk & Hret & Hwait).
  split_and!; [done|by intros r; apply Hret| |].
  - intros Hw a. by apply (Hwait 1%nat "k"%string).
  - intros Hs. by apply step_Enter_join.
Qed.

Lemma singleflight_error_released_witness :
  singleflight.exec (singleflight.init samples.callers)
    [(0, singleflight.Enter); (1, singleflight.Enter)]%nat
  = Some samples.flight_mid
  ∧ singleflight.threads samples.flight_mid !! 0%nat
    = Some ("k"%string, singleflight.Running 0)
  ∧ ∃ s1, singleflight.step samples.flight_mid 0
            (singleflight.Return samples.failure) = Some s1 ∧
      ∀ sched' s', singleflight.exec s1 sched' = Some s' →
        (∀ w kw r, singleflight.threads s' !! w = Some (kw, singleflight.Returned 0 r) →
                   r = samples.failure)
        ∧ (singleflight.threads s' !! 0%nat = Some ("k"%string, singleflight.Stored 0) →
           is_Some (singleflight.step s' 0 singleflight.Done))
        ∧ (singleflight.threads s' !! 0%nat = Some ("k"%string, singleflight.Released 0) →
           is_Some (singleflight.step s' 0 singleflight.Delete))
        ∧ (∀ w kw,
             singleflight.threads s' !! w = Some (kw, singleflight.Waiting 0) →
             singleflight.threads s' !! 0%nat = Some ("k"%string, singleflight.Released 0)
             ∨ (∃ r, singleflight.threads s' !! 0%nat
                     = Some ("k"%string, singleflight.Returned 0 r)) →
             ∃ s'', singleflight.step s' w singleflight.Wake = Some s''
                    ∧ singleflight.threads s'' !! w
                      = Some (kw, singleflight.Returned 0 samples.failure))
        ∧ (∀ r, singleflight.threads s' !! 0%nat
                = Some ("k"%string, singleflight.Returned 0 r) →
             singleflight.m s' !! "k"%string ≠ Some 0%nat
             ∧ ∀ t', singleflight.threads s' !! t' = Some ("k"%string, singleflight.Start) →
                 match singleflight.m s' !! "k"%string with
                 | Some c' =>
                     ∃ s'', singleflight.step s' t' singleflight.Enter = Some s''
                            ∧ singleflight.threads s'' !! t'
                              = Some ("k"%string, singleflight.Waiting c')
                 | None =>
                     ∃ s'', singleflight.step s' t' singleflight.Enter = Some s''
                            ∧ singleflight.threads s'' !! t'
                              = Some ("k"%string,
                                      singleflight.Running (length (singleflight.heap s')))
                            ∧ singleflight.execs s''
                              = singleflight.execs s'
                                ++ [(t', "k"%string, length (singleflight.heap s'))]
                 end).
Proof.
  assert (singleflight.exec (singleflight.init samples.callers)
            [(0, singleflight.Enter); (1, singleflight.Enter)]%nat
          = Some samples.flight_mid) as Hexec by (vm_compute; reflexivity).
  assert (singleflight.threads samples.flight_mid !! 0%nat
          = Some ("k"%string, singleflight.Running 0)) as Hrun by reflexivity.
  split; [exact Hexec|]. split; [exact Hrun|].
  exact (singleflight_error_released samples.callers _ samples.flight_mid
           0 "k" 0 None "boom"%string Hexec Hrun).
Defined.

Lemma load_from_peer_witness :
  let st := samples.group_with samples.peer_up in
  ("Tom"%string ∉ kcache.loader (kcache.group st))
  ∧ ∃ st', kcache.load "Tom" st
           = Some ((byteview.mkByteView [Byte.x36; Byte.x33; Byte.x30], None), st')
         ∧ kcache.trace st' = kcache.trace st ++ [kcache.EvPeer "scores" "Tom"]
         ∧ kcache.mainCache (kcache.group st') = kcache.mainCache (kcache.group st)
         ∧ (kcache.misses (kcache.mainCache (kcache.group st)) "Tom" →
            kcache.misses (kcache.mainCache (kcache.group st')) "Tom").
Proof.
  intros st.
  assert ("Tom"%string ∉ kcache.loader (kcache.group st)) as Hfree
    by apply not_elem_of_empty.
  split; [exact Hfree|].
  exact (load_from_peer st "Tom" (λ _, Some samples.peer_up) samples.peer_up
           [Byte.x36; Byte.x33; Byte.x30] 1%nat Hfree eq_refl eq_refl eq_refl).
Defined.

Lemma Get_loader_error_witness :
  let st := samples.group_with samples.peer_down in
  let st5 := samples.group_fallback in
  let bytes := [Byte.x35; Byte.x38; Byte.x39] in
  "Tom"%string ≠ EmptyString
  ∧ kcache.misses (kcache.mainCache (kcache.group st)) "Tom"
  ∧ ("Tom"%string ∉ kcache.loader (kcache.group st))
  ∧ (∃ st', kcache.Get "Tom" st
            = Some ((byteview.mkByteView [], Some "Tom not exist"%string), st')
          ∧ kcache.trace st'
            = kcache.trace st ++ [kcache.EvPeer "scores" "Tom"; kcache.EvLoader "Tom"]
          ∧ kcache.world st' = 2%nat
          ∧ kcache.group st' = kcache.group st
          ∧ kcache.misses (kcache.mainCache (kcache.group st')) "Tom"
          ∧ kcache.Get "Tom" st' = kcache.load "Tom" st')
  ∧ kcache.Get "Tom" st5 =
      Some ((byteview.mkByteView bytes, None),
            kcache.mkSt 2%nat
              (kcache.mkGroup "scores" samples.origin_up
                 (kcache.mkcache
                    (Some (lru.mkCache 1024 6
                             [lru.mkElement 0 "Tom" (byteview.mkByteView bytes)]
                             (<["Tom"%string := 0%nat]> ∅) false 1 []))
                    1024)
                 (Some (λ _, Some samples.peer_down)) ∅)
              [kcache.EvPeer "scores" "Tom"; kcache.EvLoader "Tom";
               kcache.EvPopulate "Tom"]).
Proof.
  intros st st5 bytes.
  assert ("Tom"%string ≠ EmptyString) as Hkey by discriminate.
  assert (kcache.misses (kcache.mainCache (kcache.group st)) "Tom") as Hmiss
    by reflexivity.
  assert ("Tom"%string ∉ kcache.loader (kcache.group st)) as Hfree
    by apply not_elem_of_empty.
  assert (kcache.misses (kcache.mainCache (kcache.group st5)) "Tom") as Hmiss5
    by reflexivity.
  assert ("Tom"%string ∉ kcache.loader (kcache.group st5)) as Hfree5
    by apply not_elem_of_empty.
  split; [exact Hkey|]. split; [exact Hmiss|]. split; [exact Hfree|]. split.
  - exact (proj1 (proj2 (Get_loader_error st "Tom" (λ _, Some samples.peer_down)
                           samples.peer_down "connection refused"%string 1%nat
                           Hkey Hmiss Hfree eq_refl eq_refl eq_refl))
             "Tom not exist"%string 2%nat eq_refl).
  - refine (eq_trans
              (proj2 (proj2 (Get_loader_error st5 "Tom" (λ _, Some samples.peer_down)
                               samples.peer_down "connection refused"%string 1%nat
                               Hkey Hmiss5 Hfree5 eq_refl eq_refl eq_refl))
                 bytes 2%nat eq_refl) _).
    vm_compute. reflexivity.
Defined.

(** ** The models at work *)

(** The check value of CRC-32/IEEE. *)
Example crc32_check :
  consistenthash.ChecksumIEEE (consistenthash.bytes "123456789") = 0xcbf43926.
Proof. vm_compute. reflexivity. Qed.

Example Itoa_49 : consistenthash.Itoa 49 = "49"%string.
Proof. reflexivity. Qed.

(** Scenario 4 of the specification: the owner of ["Tom"]. *)
Example ring_Tom :
  consistenthash.Get (consistenthash.ring 50 None [["A"; "B"; "C"]]%string) "Tom"
  = "A"%string.
Proof. vm_compute. reflexivity. Qed.

(** Scenario 2 of the specification: with 20 bytes and entries of 10,
    the third [Add] evicts the first key. *)
Example lru_eviction :
  ∃ c, lru.run (lru.New 20 false)
         [lru.OpAdd "k1" samples.v8; lru.OpAdd "k2" samples.v8;
          lru.OpAdd "k3" samples.v8] = Some c
       ∧ fst (lru.Get c "k1") = None
       ∧ fst (lru.Get c "k3") = Some samples.v8
       ∧ lru.nbytes c = 20.
Proof. eexists. split; [vm_compute; reflexivity|]. by vm_compute. Qed.

(** Scenario 6 of the specification: a key owned by the local node. *)
Example pool_owner_is_self :
  httppool.PickPeer (httppool.Set_ (httppool.NewHTTPPool "A") ["A"; "B"]%string) "Tom"
  = httppool.Returns (None, false).
Proof. vm_compute. reflexivity. Qed.

Example pool_owner_is_remote :
  httppool.PickPeer (httppool.Set_ (httppool.NewHTTPPool "B") ["A"; "B"]%string) "Tom"
  = httppool.Returns (Some (httppool.mkGetter "A/_geecache/"), true).
Proof. vm_compute. reflexivity. Qed.

(** * Further properties of the code *)

(** ** The LRU engine: look-ups, eviction order, callbacks *)

Section lru_more.
Import lru.
Context {V : Type} `{!Value V}.
Implicit Types (c : Cache V) (e : Element V) (k : string) (v : V).

Lemma reached_wf maxB ev (ops : list (Op V)) c :
  reached maxB ev ops c → wf c ∧ within_budget c ∧ maxBytes c = maxB.
Proof.
  intros [Hfit Hrun].
  by destruct (lru_run_inv _ _ _ (wf_New maxB ev) (budget_New maxB ev) Hfit Hrun)
    as (? & ? & ?).
Qed.

(** No operation registers or drops the callback. *)
Lemma removeOldest_callback c : OnEvicted (removeOldest c) = OnEvicted c.
Proof. unfold removeOldest. by destruct (Back (ll c)). Qed.

Lemma evict_callback fuel c c' : evict fuel c = Some c' → OnEvicted c' = OnEvicted c.
Proof.
  revert c. induction fuel as [|fuel IH]; intros c; simpl;
    case_bool_decide; try done; try (by intros [= <-]).
  intros Hev. rewrite (IH _ Hev). apply removeOldest_callback.
Qed.

Lemma clear_callback fuel c c' : clear fuel c = Some c' → OnEvicted c' = OnEvicted c.
Proof.
  revert c. induction fuel as [|fuel IH]; intros c; simpl;
    destruct (ll c); try done; try (by intros [= <-]).
  intros Hev. rewrite (IH _ Hev). apply removeOldest_callback.
Qed.

Lemma insert_callback c k v : OnEvicted (insert c k v) = OnEvicted c.
Proof.
  unfold insert. destruct (cache c !! k) as [p|]; [|done].
  by destruct (deref p (ll c)).
Qed.

Lemma step_callback c op c' : step c op = Some c' → OnEvicted c' = OnEvicted c.
Proof.
  destruct op as [k v|k| |]; simpl.
  - unfold Add. intros Hev. rewrite (evict_callback _ _ _ Hev). apply insert_callback.
  - intros [= <-]. unfold Get. destruct (cache c !! k) as [p|]; [|done].
    by destruct (deref p (ll c)).
  - intros [= <-]. apply removeOldest_callback.
  - apply clear_callback.
Qed.

Lemma run_callback c ops c' : run c ops = Some c' → OnEvicted c' = OnEvicted c.
Proof.
  revert c. induction ops as [|op ops IH]; intros c; simpl; [by intros [= <-]|].
  destruct (step c op) as [c1|] eqn:Hstep; [|done].
  intros Hrun. rewrite (IH _ Hrun). by apply (step_callback c op).
Qed.

Lemma reached_callback maxB ev (ops : list (Op V)) c :
  reached maxB ev ops c → OnEvicted c = ev.
Proof. intros [_ Hrun]. by rewrite (run_callback _ _ _ Hrun). Qed.

(** [Get] answers from the linked entries. *)
Lemma Get_Some c k v :
  wf c → fst (Get c k) = Some v ↔ ∃ e, e ∈ ll c ∧ key e = k ∧ value e = v.
Proof.
  intros Hwf. split.
  - destruct (Get c k) as [r c'] eqn:Hget. simpl. intros ->.
    destruct (Get_hit c k v c' Hwf Hget) as (e & He & Hk & Hv & _). eauto.
  - intros (e & He & Hk & Hv).
    assert (cache c !! k = Some (addr e)) as Hc by (apply (wf_index c Hwf); eauto).
    unfold Get. rewrite Hc, (deref_elem _ _ (wf_addrs c Hwf) He). simpl. congruence.
Qed.

Lemma Get_None c k : wf c → fst (Get c k) = None ↔ k ∉ key <$> ll c.
Proof.
  intros Hwf. split.
  - intros Hn Hin. apply list_elem_of_fmap in Hin as (e & -> & He).
    assert (fst (Get c (key e)) = Some (value e)) as Hs
      by (apply Get_Some; eauto).
    congruence.
  - intros Hk. destruct (fst (Get c k)) as [v|] eqn:Hget; [|done].
    apply Get_Some in Hget as (e & He & <- & _); [|done].
    exfalso. apply Hk. by apply list_elem_of_fmap_2.
Qed.

(** The index is the list of the linked entries, read as a map. *)
Lemma wf_index_map c :
  wf c → cache c = list_to_map ((λ e, (key e, addr e)) <$> ll c).
Proof.
  intros Hwf. apply map_eq. intros k. apply option_eq. intros p.
  rewrite (wf_index c Hwf), <- elem_of_list_to_map.
  - rewrite list_elem_of_fmap. split.
    + intros (e & He & <- & <-). by exists e.
    + intros (e & [= -> ->] & He). by exists e.
  - rewrite <- list_fmap_compose. apply Hwf.
Qed.

Lemma wf_index_size c : wf c → base.size (cache c) = length (ll c).
Proof.
  intros Hwf. rewrite (wf_index_map c Hwf), map_size_list_to_map.
  - by rewrite length_fmap.
  - rewrite <- list_fmap_compose. apply Hwf.
Qed.

End lru_more.

Section lru_extras.
Import lru.
Context {V : Type} `{!Value V}.
Implicit Types (c : Cache V) (e : Element V) (k : string) (v : V).

Lemma filter_keeps_all {A} (P : A → Prop) `{!∀ x, Decision (P x)} (l : list A) :
  (∀ x, x ∈ l → P x) → filter P l = l.
Proof.
  induction l as [|x l IH]; intros Hall; [done|].
  rewrite filter_cons_True by (apply Hall, list_elem_of_here).
  f_equal. apply IH. intros y Hy. by apply Hall, list_elem_of_further.
Qed.

(** With distinct keys and addresses, unlinking the element of a key is
    dropping the entries of that key. *)
Lemma Remove_filter_key (l : list (Element V)) e :
  NoDup (key <$> l) → NoDup (addr <$> l) → e ∈ l →
  Remove (addr e) l = filter (λ x, key x ≠ key e) l.
Proof.
  induction l as [|x l IH]; intros Hk Ha Hin; [by apply elem_of_nil in Hin|].
  rewrite fmap_cons in Hk. rewrite fmap_cons in Ha.
  apply NoDup_cons in Hk as [Hkx Hk]. apply NoDup_cons in Ha as [Hax Ha].
  simpl. apply elem_of_cons in Hin as [->|Hin].
  - rewrite decide_True by done. rewrite filter_cons_False by (by intros ?).
    symmetry. apply filter_keeps_all. intros y Hy Heq.
    apply Hkx. rewrite <- Heq. by apply list_elem_of_fmap_2.
  - assert (addr x ≠ addr e) as Hne1
      by (intros Heq; apply Hax; rewrite Heq; by apply list_elem_of_fmap_2).
    assert (key x ≠ key e) as Hne2
      by (intros Heq; apply Hkx; rewrite Heq; by apply list_elem_of_fmap_2).
    rewrite decide_False by done. rewrite filter_cons_True by done.
    f_equal. by apply IH.
Qed.

(** The list after the first half of [Add]: the new entry, then the
    other entries in their former order. *)
Lemma insert_list c k v :
  wf c →
  ∃ p, ll (insert c k v) = mkElement p k v :: filter (λ x, key x ≠ k) (ll c).
Proof.
  intros Hwf. destruct (cache c !! k) as [p|] eqn:Hk.
  - destruct (wf_lookup c k p Hwf Hk) as (e & Hd & He & Hp & Hkey).
    destruct (insert_present c k v p e Hwf Hk Hd) as (-> & _).
    exists p. simpl. f_equal. rewrite <- Hp, <- Hkey.
    apply Remove_filter_key; [apply Hwf..|done].
  - rewrite (insert_absent c k v Hk). exists (fresh c). simpl. f_equal.
    symmetry. apply filter_keeps_all. intros y Hy Heq.
    apply (wf_miss c k Hwf Hk). rewrite <- Heq. by apply list_elem_of_fmap_2.
Qed.

Lemma callbacks_snoc ev (l : list (Element V)) e :
  callbacks ev (l ++ [e]) = callbacks ev [e] ++ callbacks ev l.
Proof.
  unfold callbacks. destruct ev; [|done].
  by rewrite fmap_app, reverse_app.
Qed.

Lemma removeOldest_evictions c l e :
  wf c → ll c = l ++ [e] →
  evictions (removeOldest c) = evictions c ++ callbacks (OnEvicted c) [e].
Proof.
  intros Hwf Hl. rewrite (removeOldest_snoc c l e Hwf Hl). simpl.
  unfold callbacks. destruct (OnEvicted c); [done|by rewrite app_nil_r].
Qed.

(** What the eviction loop removes: a suffix of the list, from the back,
    each entry while the counter is above the budget, with one callback
    per entry. *)
Lemma evict_split fuel c c' :
  wf c → evict fuel c = Some c' →
  ∃ evicted,
    ll c = ll c' ++ evicted
    ∧ (∀ e rest, evicted = e :: rest →
         maxBytes c ≠ 0 ∧ maxBytes c < live_bytes (ll c') + size e)
    ∧ evictions c' = evictions c ++ callbacks (OnEvicted c) evicted.
Proof.
  revert c. induction fuel as [|fuel IH]; intros c Hwf; simpl;
    case_bool_decide as Hcond; try done.
  - intros [= ->]. exists []. rewrite !app_nil_r. split_and!; [done|done|].
    unfold callbacks. by destruct (OnEvicted c'); rewrite ?app_nil_r.
  - intros Hev. destruct (ll c) as [|x l _] eqn:Hll using rev_ind.
    + rewrite (removeOldest_nil c Hll) in Hev.
      destruct (IH c Hwf Hev) as (evicted & Heq & Hfirst & Hcalls).
      exists evicted. by rewrite <- Hll.
    + pose proof (removeOldest_wf c Hwf) as Hwf1.
      destruct (IH _ Hwf1 Hev) as (evicted & Heq & Hfirst & Hcalls).
      rewrite (removeOldest_snoc c l x Hwf Hll) in Heq. simpl in Heq.
      rewrite removeOldest_frame in Hfirst.
      rewrite removeOldest_callback, (removeOldest_evictions c l x Hwf Hll) in Hcalls.
      exists (evicted ++ [x]). split_and!.
      * by rewrite Heq, app_assoc.
      * intros e rest Hrest. destruct evicted as [|e0 evicted0]; simpl in Hrest.
        -- injection Hrest as <- <-. split; [tauto|].
           rewrite app_nil_r in Heq. rewrite <- Heq.
           pose proof (wf_nbytes c Hwf) as Hn. rewrite Hll, live_bytes_app in Hn.
           simpl in Hn. lia.
        -- injection Hrest as <- <-. by apply (Hfirst e0 evicted0).
      * by rewrite Hcalls, callbacks_snoc, app_assoc.
  - intros [= ->]. exists []. rewrite !app_nil_r. split_and!; [done|done|].
    unfold callbacks. by destruct (OnEvicted c'); rewrite ?app_nil_r.
Qed.

Lemma clear_split fuel c :
  wf c → (length (ll c) ≤ fuel)%nat →
  ∃ c', clear fuel c = Some c' ∧ wf c' ∧ ll c' = []
        ∧ evictions c' = evictions c ++ callbacks (OnEvicted c) (ll c).
Proof.
  revert c. induction fuel as [|fuel IH]; intros c Hwf Hlen.
  - destruct (ll c) as [|x l] eqn:Hll; simpl in Hlen; [|lia].
    exists c. simpl. rewrite Hll. split_and!; [done..|].
    unfold callbacks. by destruct (OnEvicted c); rewrite ?app_nil_r.
  - destruct (ll c) as [|x l _] eqn:Hll using rev_ind.
    + exists c. simpl. rewrite Hll. split_and!; [done..|].
      unfold callbacks. by destruct (OnEvicted c); rewrite ?app_nil_r.
    + assert (clear (S fuel) c = clear fuel (removeOldest c)) as ->
        by (simpl; rewrite Hll; by destruct l).
      destruct (IH (removeOldest c)) as (c' & Hc' & Hwf' & Hnil & Hcalls).
      * by apply removeOldest_wf.
      * rewrite removeOldest_length, Hll. rewrite length_app in Hlen |- *.
        simpl in *. lia.
      * exists c'. split_and!; [done..|].
        rewrite removeOldest_callback, (removeOldest_evictions c l x Hwf Hll) in Hcalls.
        assert (ll (removeOldest c) = l) as Hl
          by (by rewrite (removeOldest_snoc c l x Hwf Hll)).
        by rewrite Hcalls, Hl, callbacks_snoc, app_assoc.
Qed.

(** X1. In a state reached from [New], an [Add] of an entry that fits
    the budget alone (or with no budget) returns, and the [Get] of its key
    then finds the value just stored. *)
Theorem lru_add_then_get maxB ev (ops : list (Op V)) c k v :
  reached maxB ev ops c → fits c k v →
  maxB = 0 ∨ len k + Len v ≤ maxB →
  ∃ c', Add c k v = Some c' ∧ fst (Get c' k) = Some v.
Proof.
  intros Hreach Hfit Hsz. destruct (reached_wf _ _ _ _ Hreach) as (Hwf & _ & Hmax).
  pose proof (len_nonneg k). pose proof (Len_nonneg v).
  destruct (Add_total c k v Hwf Hfit) as [c' Hadd]; [lia|].
  exists c'. split; [done|].
  destruct (Add_Some c k v c' Hwf Hfit Hadd) as (Hwf' & _ & _ & _).
  unfold Add in Hadd.
  destruct (insert_list c k v Hwf) as (p & Hins).
  assert (maxBytes (insert c k v) = 0
          ∨ size (mkElement p k v) ≤ maxBytes (insert c k v)) as Hsz'
    by (rewrite insert_frame, Hmax; exact Hsz).
  destruct (evict_keeps_front _ _ _ _ _ (insert_wf c k v Hwf Hfit) Hins Hsz' Hadd)
    as (rest' & Hll).
  apply Get_Some; [done|]. exists (mkElement p k v).
  rewrite Hll. split; [apply list_elem_of_here|done].
Qed.

(** X2. An [Add] evicts from the back only and no more than it must: the
    entries that stay are the new entry followed by a prefix of the
    others in their former order; the entry evicted last would not have
    fitted into the budget; and the callback is called once per evicted
    entry, oldest first. *)
Theorem lru_add_evicts_oldest maxB ev (ops : list (Op V)) c k v c' :
  reached maxB ev ops c → fits c k v → Add c k v = Some c' →
  ∃ p evicted,
    mkElement p k v :: filter (λ x, key x ≠ k) (ll c) = ll c' ++ evicted
    ∧ (∀ e rest, evicted = e :: rest →
         maxB ≠ 0 ∧ maxB < live_bytes (ll c') + size e)
    ∧ evictions c' = evictions c ++ callbacks ev evicted.
Proof.
  intros Hreach Hfit Hadd.
  destruct (reached_wf _ _ _ _ Hreach) as (Hwf & _ & Hmax).
  pose proof (reached_callback _ _ _ _ Hreach) as Hev.
  destruct (insert_list c k v Hwf) as (p & Hins).
  unfold Add in Hadd.
  destruct (evict_split _ _ _ (insert_wf c k v Hwf Hfit) Hadd)
    as (evicted & Heq & Hfirst & Hcalls).
  rewrite insert_frame, Hmax in Hfirst. rewrite insert_callback, Hev in Hcalls.
  exists p, evicted. rewrite <- Hins. split_and!; [done|done|].
  rewrite Hcalls. f_equal. unfold insert.
  destruct (cache c !! k) as [q|]; [|done]. by destruct (deref q (ll c)).
Qed.

(** X3. With [maxBytes = 0] nothing is ever evicted: an [Add] returns,
    its key then yields the new value, every other key yields what it
    yielded before, no callback is made, and [Len] grows by one exactly
    when the key was not present. *)
Theorem lru_unbounded_keeps_all ev (ops : list (Op V)) c k v :
  reached 0 ev ops c → fits c k v →
  ∃ c', Add c k v = Some c'
        ∧ fst (Get c' k) = Some v
        ∧ (∀ k', k' ≠ k → fst (Get c' k') = fst (Get c k'))
        ∧ evictions c' = evictions c
        ∧ Cache_Len c' =
            Cache_Len c + match fst (Get c k) with Some _ => 0 | None => 1 end.
Proof.
  intros Hreach Hfit. destruct (reached_wf _ _ _ _ Hreach) as (Hwf & _ & Hmax).
  pose proof (insert_wf c k v Hwf Hfit) as Hwf1.
  assert (Add c k v = Some (insert c k v)) as Hadd.
  { unfold Add. apply evict_exit. rewrite insert_frame, Hmax. tauto. }
  exists (insert c k v). destruct (insert_list c k v Hwf) as (p & Hins).
  split_and!; [done| | | |].
  - apply Get_Some; [done|]. exists (mkElement p k v).
    rewrite Hins. split; [apply list_elem_of_here|done].
  - intros k' Hne. apply option_eq. intros v'.
    rewrite !Get_Some by done. rewrite Hins.
    split; intros (e & He & Hk & Hv); exists e; (split; [|done]).
    + apply elem_of_cons in He as [->|He]; [simpl in Hk; congruence|].
      by apply list_elem_of_filter in He as [_ He].
    + apply list_elem_of_further, list_elem_of_filter. split; [congruence|done].
  - unfold insert. destruct (cache c !! k) as [q|]; [|done].
    by destruct (deref q (ll c)).
  - unfold Cache_Len. destruct (cache c !! k) as [q|] eqn:Hk.
    + destruct (wf_lookup c k q Hwf Hk) as (e & Hd & He & Hq & Hkey).
      destruct (insert_present c k v q e Hwf Hk Hd) as (-> & _). simpl.
      assert (fst (Get c k) = Some (value e)) as ->
        by (apply Get_Some; eauto).
      rewrite <- Hq, (Remove_length (ll c) e He). lia.
    + rewrite (insert_absent c k v Hk). simpl.
      assert (fst (Get c k) = None) as -> by (unfold Get; by rewrite Hk).
      lia.
Qed.

(** X4. A [Get] only reorders: the byte counter, the index, the callback
    log and the budget are as before and the list holds the same entries;
    a [Get] that misses leaves the cache as it is. *)
Theorem lru_get_only_reorders c k :
  nbytes (snd (Get c k)) = nbytes c
  ∧ cache (snd (Get c k)) = cache c
  ∧ ll (snd (Get c k)) ≡ₚ ll c
  ∧ evictions (snd (Get c k)) = evictions c
  ∧ maxBytes (snd (Get c k)) = maxBytes c
  ∧ (fst (Get c k) = None → snd (Get c k) = c).
Proof.
  unfold Get. destruct (cache c !! k) as [p|]; [|done].
  destruct (deref p (ll c)) as [e|]; [|done]. simpl.
  split_and!; try done. apply MoveToFront_perm.
Qed.

(** X5. In every state reached from [New] the index and the list agree:
    the keys of the linked entries are pairwise distinct and are exactly
    the keys of the index, [Len] is the number of indexed keys, and
    [Get] finds a value exactly when a linked entry holds it under that
    key. *)
Theorem lru_index_agrees maxB ev (ops : list (Op V)) c :
  reached maxB ev ops c →
  NoDup (key <$> ll c)
  ∧ dom (cache c) = list_to_set (key <$> ll c)
  ∧ Cache_Len c = Z.of_nat (base.size (cache c))
  ∧ ∀ k v, fst (Get c k) = Some v ↔ ∃ e, e ∈ ll c ∧ key e = k ∧ value e = v.
Proof.
  intros Hreach. destruct (reached_wf _ _ _ _ Hreach) as (Hwf & _ & _).
  split_and!.
  - apply Hwf.
  - rewrite (wf_index_map c Hwf) at 1. rewrite dom_list_to_map_L.
    by rewrite <- list_fmap_compose.
  - unfold Cache_Len. by rewrite wf_index_size.
  - intros k v. by apply Get_Some.
Qed.

(** X6. [Clear] always returns, in every state reached from [New]: the
    cache is then empty with a counter of zero, and the callback has
    been called once per entry, from the least recently used to the
    most recently used. *)
Theorem lru_clear_all maxB ev (ops : list (Op V)) c :
  reached maxB ev ops c →
  ∃ c', Clear c = Some c' ∧ ll c' = [] ∧ cache c' = ∅ ∧ nbytes c' = 0
        ∧ evictions c' = evictions c ++ callbacks ev (ll c).
Proof.
  intros Hreach. destruct (reached_wf _ _ _ _ Hreach) as (Hwf & _ & _).
  pose proof (reached_callback _ _ _ _ Hreach) as Hev.
  destruct (clear_split (length (ll c)) c Hwf) as (c' & Hc & Hwf' & Hnil & Hcalls);
    [lia|].
  destruct (wf_empty c' Hwf' Hnil) as [Hn Hm].
  exists c'. split_and!; [done..|]. by rewrite Hcalls, Hev.
Qed.

(** X7. [RemoveOldest] does nothing on an empty cache; otherwise it
    removes the back entry, whose key was accessed less recently than
    every key that stays: the counter drops by the size of that entry,
    its key misses afterwards, and the callback is called with it. *)
Theorem lru_remove_oldest maxB ev (ops : list (Op V)) c :
  reached maxB ev ops c →
  (ll c = [] → RemoveOldest c = c)
  ∧ (∀ l e, ll c = l ++ [e] →
       ll (RemoveOldest c) = l
       ∧ nbytes (RemoveOldest c) = nbytes c - size e
       ∧ fst (Get (RemoveOldest c) (key e)) = None
       ∧ (∀ k', k' ∈ key <$> l →
            accessed_after (history (New maxB ev) ops) k' (key e))
       ∧ evictions (RemoveOldest c) = evictions c ++ callbacks ev [e]).
Proof.
  intros Hreach. destruct (reached_wf _ _ _ _ Hreach) as (Hwf & _ & _).
  pose proof (reached_callback _ _ _ _ Hreach) as Hev.
  destruct Hreach as [Hfit Hrun]. split; [apply removeOldest_nil|].
  intros l e Hl. unfold RemoveOldest.
  pose proof (removeOldest_wf c Hwf) as Hwf1.
  pose proof (removeOldest_evictions c l e Hwf Hl) as Hcalls.
  rewrite (removeOldest_snoc c l e Hwf Hl) in Hwf1, Hcalls |- *. simpl.
  split_and!; [done|done| | |by rewrite <- Hev].
  - apply Get_None; [done|]. simpl.
    pose proof (wf_keys c Hwf) as Hnd. rewrite Hl, fmap_app in Hnd.
    apply NoDup_app in Hnd as (_ & Hdisj & _). intros Hin.
    apply (Hdisj _ Hin). apply list_elem_of_here.
  - intros k' Hk'.
    assert (by_last_access (history (New maxB ev) ops) (key <$> ll c)) as [Hs _].
    { apply (lru_run_recency _ _ _ [] (wf_New maxB ev) (budget_New maxB ev) Hfit Hrun).
      split; [constructor|]. intros x Hx. simpl in Hx. by apply elem_of_nil in Hx. }
    rewrite Hl, fmap_app in Hs. apply StronglySorted_app in Hs as (Hcross & _ & _).
    apply Hcross; [done|]. apply list_elem_of_here.
Qed.

(** Below a negative budget the loop never exits. *)
Lemma evict_negative fuel c : wf c → maxBytes c < 0 → evict fuel c = None.
Proof.
  revert c. induction fuel as [|fuel IH]; intros c Hwf Hneg; simpl;
    pose proof (wf_nbytes_range c Hwf);
    rewrite bool_decide_eq_true_2 by lia; [done|].
  apply IH; [by apply removeOldest_wf|by rewrite removeOldest_frame].
Qed.

(** X8. With a negative [maxBytes] an [Add] never returns: the counter
    is never below zero, so the eviction loop goes on after the list is
    empty. *)
Theorem lru_negative_budget_hangs maxB ev (ops : list (Op V)) c k v :
  reached maxB ev ops c → maxB < 0 → fits c k v →
  Add c k v = None ∧ ∀ fuel, evict fuel (insert c k v) = None.
Proof.
  intros Hreach Hneg Hfit. destruct (reached_wf _ _ _ _ Hreach) as (Hwf & _ & Hmax).
  pose proof (insert_wf c k v Hwf Hfit) as Hwf1.
  assert (maxBytes (insert c k v) < 0) as Hneg1 by (rewrite insert_frame; lia).
  split; [by apply evict_negative|]. intros fuel. by apply evict_negative.
Qed.

End lru_extras.

(** ** The further properties at sample inputs *)

Lemma lru_logged_reached :
  lru.reached 20 true samples.lru_ops samples.lru_logged.
Proof. split; [vm_compute; intuition discriminate|vm_compute; reflexivity]. Defined.

Lemma lru_unbounded_reached :
  lru.reached 0 true samples.lru_ops samples.lru_unbounded.
Proof. split; [vm_compute; intuition discriminate|vm_compute; reflexivity]. Defined.

Lemma lru_add_then_get_witness :
  lru.reached 20 true samples.lru_ops samples.lru_logged
  ∧ lru.fits samples.lru_logged "k4" samples.v8
  ∧ (20 = 0 ∨ lru.len "k4" + lru.Len samples.v8 ≤ 20)
  ∧ ∃ c', lru.Add samples.lru_logged "k4" samples.v8 = Some c'
          ∧ fst (lru.Get c' "k4") = Some samples.v8.
Proof.
  assert (lru.fits samples.lru_logged "k4" samples.v8) as Hfit
    by (vm_compute; discriminate).
  assert (20 = 0 ∨ lru.len "k4" + lru.Len samples.v8 ≤ 20) as Hsz
    by (right; vm_compute; discriminate).
  split; [exact lru_logged_reached|]. split; [exact Hfit|]. split; [exact Hsz|].
  exact (lru_add_then_get 20 true samples.lru_ops samples.lru_logged "k4" samples.v8
           lru_logged_reached Hfit Hsz).
Defined.

Lemma lru_add_evicts_oldest_witness :
  let c' := lru.mkCache 20 20
              [lru.mkElement 3 "k4" samples.v8; lru.mkElement 1 "k2" samples.v8]
              (<["k4" := 3%nat]> (<["k2" := 1%nat]> ∅)) true 4
              [("k1"%string, samples.v8); ("k3"%string, samples.v8)] in
  lru.reached 20 true samples.lru_ops samples.lru_logged
  ∧ lru.fits samples.lru_logged "k4" samples.v8
  ∧ lru.Add samples.lru_logged "k4" samples.v8 = Some c'
  ∧ ∃ p evicted,
      lru.mkElement p "k4" samples.v8
        :: filter (λ x, lru.key x ≠ "k4"%string) (lru.ll samples.lru_logged)
      = lru.ll c' ++ evicted
      ∧ (∀ e rest, evicted = e :: rest →
           20 ≠ 0 ∧ 20 < lru.live_bytes (lru.ll c') + lru.size e)
      ∧ lru.evictions c'
        = lru.evictions samples.lru_logged ++ lru.callbacks true evicted.
Proof.
  intros c'.
  assert (lru.fits samples.lru_logged "k4" samples.v8) as Hfit
    by (vm_compute; discriminate).
  assert (lru.Add samples.lru_logged "k4" samples.v8 = Some c') as Hadd
    by (vm_compute; reflexivity).
  split; [exact lru_logged_reached|]. split; [exact Hfit|]. split; [exact Hadd|].
  exact (lru_add_evicts_oldest 20 true samples.lru_ops samples.lru_logged "k4"
           samples.v8 c' lru_logged_reached Hfit Hadd).
Defined.

Lemma lru_unbounded_keeps_all_witness :
  lru.reached 0 true samples.lru_ops samples.lru_unbounded
  ∧ lru.fits samples.lru_unbounded "k4" samples.v30
  ∧ ∃ c', lru.Add samples.lru_unbounded "k4" samples.v30 = Some c'
          ∧ fst (lru.Get c' "k4") = Some samples.v30
          ∧ (∀ k', k' ≠ "k4"%string →
               fst (lru.Get c' k') = fst (lru.Get samples.lru_unbounded k'))
          ∧ lru.evictions c' = lru.evictions samples.lru_unbounded
          ∧ lru.Cache_Len c' =
              lru.Cache_Len samples.lru_unbounded
              + match fst (lru.Get samples.lru_unbounded "k4") with
                | Some _ => 0 | None => 1 end.
Proof.
  assert (lru.fits samples.lru_unbounded "k4" samples.v30) as Hfit
    by (vm_compute; discriminate).
  split; [exact lru_unbounded_reached|]. split; [exact Hfit|].
  exact (lru_unbounded_keeps_all true samples.lru_ops samples.lru_unbounded "k4"
           samples.v30 lru_unbounded_reached Hfit).
Defined.

Lemma lru_index_agrees_witness :
  lru.reached 20 true samples.lru_ops samples.lru_logged
  ∧ NoDup (lru.key <$> lru.ll samples.lru_logged)
  ∧ dom (lru.cache samples.lru_logged)
    = list_to_set (lru.key <$> lru.ll samples.lru_logged)
  ∧ lru.Cache_Len samples.lru_logged
    = Z.of_nat (base.size (lru.cache samples.lru_logged))
  ∧ ∀ k v, fst (lru.Get samples.lru_logged k) = Some v
           ↔ ∃ e, e ∈ lru.ll samples.lru_logged ∧ lru.key e = k ∧ lru.value e = v.
Proof.
  split; [exact lru_logged_reached|].
  exact (lru_index_agrees 20 true samples.lru_ops samples.lru_logged
           lru_logged_reached).
Defined.

Lemma lru_clear_all_witness :
  lru.reached 20 true samples.lru_ops samples.lru_logged
  ∧ ∃ c', lru.Clear samples.lru_logged = Some c'
          ∧ lru.ll c' = [] ∧ lru.cache c' = ∅ ∧ lru.nbytes c' = 0
          ∧ lru.evictions c'
            = lru.evictions samples.lru_logged
              ++ lru.callbacks true (lru.ll samples.lru_logged).
Proof.
  split; [exact lru_logged_reached|].
  exact (lru_clear_all 20 true samples.lru_ops samples.lru_logged
           lru_logged_reached).
Defined.

Lemma lru_remove_oldest_witness :
  lru.reached 20 true samples.lru_ops samples.lru_logged
  ∧ (lru.ll samples.lru_logged = [] →
     lru.RemoveOldest samples.lru_logged = samples.lru_logged)
  ∧ (∀ l e, lru.ll samples.lru_logged = l ++ [e] →
       lru.ll (lru.RemoveOldest samples.lru_logged) = l
       ∧ lru.nbytes (lru.RemoveOldest samples.lru_logged)
         = lru.nbytes samples.lru_logged - lru.size e
       ∧ fst (lru.Get (lru.RemoveOldest samples.lru_logged) (lru.key e)) = None
       ∧ (∀ k', k' ∈ lru.key <$> l →
            lru.accessed_after (lru.history (lru.New 20 true) samples.lru_ops)
              k' (lru.key e))
       ∧ lru.evictions (lru.RemoveOldest samples.lru_logged)
         = lru.evictions samples.lru_logged ++ lru.callbacks true [e]).
Proof.
  split; [exact lru_logged_reached|].
  exact (lru_remove_oldest 20 true samples.lru_ops samples.lru_logged
           lru_logged_reached).
Defined.

Lemma lru_negative_budget_hangs_witness :
  lru.reached (-1) false [] (lru.New (-1) false)
  ∧ -1 < 0
  ∧ lru.fits (lru.New (-1) false) "k1" samples.v8
  ∧ lru.Add (lru.New (-1) false) "k1" samples.v8 = None
  ∧ ∀ fuel, lru.evict fuel (lru.insert (lru.New (-1) false) "k1" samples.v8) = None.
Proof.
  assert (lru.reached (-1) false [] (lru.New (-1) false)) as Hreach
    by (split; [exact I|reflexivity]).
  assert (-1 < 0) as Hneg by lia.
  assert (lru.fits (lru.New (-1) false) "k1" samples.v8) as Hfit
    by (vm_compute; discriminate).
  split; [exact Hreach|]. split; [exact Hneg|]. split; [exact Hfit|].
  exact (lru_negative_budget_hangs (-1) false [] (lru.New (-1) false) "k1" samples.v8
           Hreach Hneg Hfit).
Defined.

(** ** The ring: what it holds and whom it selects *)

Section ring_more.
Import consistenthash.

Lemma indices_length r : length (indices r) = Z.to_nat r.
Proof. unfold indices. by rewrite length_fmap, length_seq. Qed.

Lemma vnodes_length fn r ks :
  length (vnodes fn r ks) = (Z.to_nat r * length ks)%nat.
Proof.
  induction ks as [|k ks IH]; [simpl; lia|].
  change (vnodes fn r (k :: ks))
    with (((λ i, (vhash fn k i, k)) <$> indices r) ++ vnodes fn r ks).
  rewrite length_app, length_fmap, indices_length, IH. simpl. lia.
Qed.

Lemma vnodes_node fn r ks h k : (h, k) ∈ vnodes fn r ks → k ∈ ks.
Proof.
  unfold vnodes. intros Hin. apply list_elem_of_bind in Hin as (k' & Hin & Hk').
  by apply list_elem_of_fmap in Hin as (i & [= _ ->] & _).
Qed.

Lemma vnodes_range fn r ks h k : (h, k) ∈ vnodes fn r ks → 0 ≤ h < 2 ^ 32.
Proof.
  unfold vnodes. intros Hin. apply list_elem_of_bind in Hin as (k' & Hin & Hk').
  apply list_elem_of_fmap in Hin as (i & [= -> _] & _). apply uint32_range.
Qed.

(** The loop over the virtual nodes gives a point to the node written
    last, and leaves the other points alone. *)
Lemma record_lookup_new g (vs : list (Z * string)) h :
  h ∈ vs.*1 → ∃ k, record g vs !! h = Some k ∧ (h, k) ∈ vs.
Proof.
  induction vs as [|[h' k'] vs IH] using rev_ind; intros Hin.
  - by apply elem_of_nil in Hin.
  - rewrite record_app. simpl. destruct (decide (h' = h)) as [->|Hne].
    + exists k'. rewrite lookup_insert_eq. split; [done|].
      apply elem_of_app. right. apply list_elem_of_here.
    + rewrite lookup_insert_ne by done.
      rewrite fmap_app in Hin. apply elem_of_app in Hin as [Hin|Hin].
      * destruct (IH Hin) as (k & Hk & Hin'). exists k. split; [done|].
        apply elem_of_app. by left.
      * simpl in Hin. apply list_elem_of_singleton in Hin. congruence.
Qed.

Lemma record_lookup_old g (vs : list (Z * string)) h :
  h ∉ vs.*1 → record g vs !! h = g !! h.
Proof.
  revert g. induction vs as [|[h' k'] vs IH]; intros g Hin; simpl; [done|].
  rewrite fmap_cons in Hin. apply not_elem_of_cons in Hin as [Hne Hin].
  rewrite IH by done. simpl. by rewrite lookup_insert_ne.
Qed.

Lemma ring_unfold r fn batches :
  let fn' := match fn with Some f => f | None => ChecksumIEEE end in
  ring r fn batches =
    mkMap fn' r (Ints (vnodes fn' r (concat batches)).*1)
          (record ∅ (vnodes fn' r (concat batches))).
Proof. intros fn'. by rewrite ring_concat, Add_unfold. Qed.

(** The point that [Get] selects on a sorted ring: the least point at
    or after the hash of the key, or the least point of all when there
    is none. *)
Lemma Get_point m key :
  StronglySorted Z.le (keys m) → keys m ≠ [] →
  ∃ x, x ∈ keys m ∧ Get m key = owner m x
    ∧ (∀ y, y ∈ keys m →
         if decide (uint32 (hash m (bytes key)) ≤ x)
         then uint32 (hash m (bytes key)) ≤ y → x ≤ y
         else y < uint32 (hash m (bytes key)) ∧ x ≤ y).
Proof.
  intros Hs Hne. destruct (Get_sorted m key Hs Hne) as (r & Hr & Hlo & Hhi & HGet).
  set (h := uint32 (hash m (bytes key))) in *.
  assert (0 < length (keys m))%nat as Hpos by (destruct (keys m); simpl; [done|lia]).
  destruct (decide (r < length (keys m))%nat) as [Hlt|Hge].
  - destruct (lookup_lt_is_Some_2 _ _ Hlt) as [x Hx]. exists x.
    rewrite Z.rem_small in HGet by lia. rewrite (at_index_lookup _ _ _ Hx) in HGet.
    split_and!; [by eapply list_elem_of_lookup_2|done|].
    intros y Hy. rewrite decide_True by (by apply (Hhi r x)).
    intros Hhy. apply list_elem_of_lookup in Hy as [j Hj].
    destruct (decide (j < r)%nat) as [Hjr|Hjr].
    + pose proof (Hlo j y Hjr Hj). lia.
    + apply (sorted_lookup_le (keys m) r j); [done|lia|done|done].
  - assert (r = length (keys m)) as -> by lia. rewrite Z.rem_same in HGet by lia.
    destruct (lookup_lt_is_Some_2 (keys m) 0%nat Hpos) as [x Hx]. exists x.
    assert (at_index (keys m) 0 = x) as Hat
      by (unfold at_index; change (Z.to_nat 0) with 0%nat; by rewrite Hx).
    rewrite Hat in HGet.
    split_and!; [by eapply list_elem_of_lookup_2|done|].
    intros y Hy. pose proof (Hlo 0%nat x Hpos Hx) as Hxh.
    rewrite decide_False by lia.
    apply list_elem_of_lookup in Hy as [j Hj]. split.
    + apply (Hlo j y); [by apply lookup_lt_Some in Hj|done].
    + apply (sorted_lookup_le (keys m) 0%nat j); [done|lia|done|done].
Qed.

(** X9. A ring built by [New] and any number of [Add]s holds [replicas]
    points per added node, duplicates of a node included, in increasing
    order; every point is a 32-bit hash and has an owner among the added
    nodes, and the index names no other point and no other node. *)
Theorem ring_points r fn batches :
  let m := ring r fn batches in
  length (keys m) = (Z.to_nat r * length (concat batches))%nat
  ∧ StronglySorted Z.le (keys m)
  ∧ (∀ x, x ∈ keys m →
       0 ≤ x < 2 ^ 32 ∧ ∃ n, n ∈ concat batches ∧ hashMap m !! x = Some n)
  ∧ (∀ x n, hashMap m !! x = Some n → x ∈ keys m ∧ n ∈ concat batches).
Proof.
  intros m. unfold m. rewrite ring_unfold. simpl.
  set (fn' := match fn with Some f => f | None => ChecksumIEEE end).
  split_and!.
  - by rewrite Ints_perm, length_fmap, vnodes_length.
  - apply Ints_sorted.
  - intros x Hx. rewrite Ints_perm in Hx.
    destruct (record_lookup_new ∅ _ x Hx) as (n & Hn & Hin).
    split; [by eapply vnodes_range|].
    exists n. split; [by eapply vnodes_node|done].
  - intros x n Hx. apply record_lookup_inv in Hx as [Hx|Hx];
      [|by rewrite lookup_empty in Hx].
    split; [|by eapply vnodes_node].
    rewrite Ints_perm. by apply (list_elem_of_fmap_2 fst _ (x, n)).
Qed.

(** On a ring with points, [Get] answers one of the added nodes. *)
Lemma Get_added_node r fn ks key :
  0 < r → ks ≠ [] → Get (Add (New r fn) ks) key ∈ ks.
Proof.
  intros Hr Hnodes. set (m := Add (New r fn) ks).
  assert (StronglySorted Z.le (keys m)) as Hs
    by (unfold m; rewrite Add_unfold; apply Ints_sorted).
  assert (keys m ≠ []) as Hne.
  { intros Hnil. apply (f_equal length) in Hnil. revert Hnil.
    unfold m. rewrite Add_unfold. simpl.
    rewrite Ints_perm, length_fmap, vnodes_length.
    destruct ks; [done|]. simpl. nia. }
  destruct (Get_point m key Hs Hne) as (x & Hx & -> & _).
  revert Hx. unfold m. rewrite Add_unfold. simpl. intros Hx.
  rewrite Ints_perm in Hx.
  destruct (record_lookup_new ∅ _ x Hx) as (n & Hn & Hin).
  unfold owner. simpl. rewrite Hn. simpl. by apply vnodes_node in Hin.
Qed.

(** X10. [Get] answers the empty string on a ring without points (no
    node added, or [replicas] not positive); on any other ring it
    answers one of the added nodes, for every key. *)
Theorem ring_Get_added r fn batches key :
  let m := ring r fn batches in
  (r ≤ 0 ∨ concat batches = [] → Get m key = EmptyString)
  ∧ (0 < r → concat batches ≠ [] → Get m key ∈ concat batches).
Proof.
  intros m. split.
  - intros Hempty. unfold Get.
    assert (length (keys m) = 0%nat) as ->; [|done].
    unfold m. rewrite ring_unfold. simpl.
    rewrite Ints_perm, length_fmap, vnodes_length.
    destruct Hempty as [Hr| ->]; [|simpl; lia].
    rewrite Z2Nat.nonpos by done. lia.
  - intros Hr Hnodes. unfold m. rewrite ring_concat. by apply Get_added_node.
Qed.

(** X11. Adding nodes to a ring moves a key only to one of the new
    nodes: after [Add], [Get] answers what it answered before or one
    of the nodes just added. *)
Theorem ring_add_moves_to_new r fn batches ns key :
  let m := ring r fn batches in
  Get (Add m ns) key = Get m key ∨ Get (Add m ns) key ∈ ns.
Proof.
  intros m. pose proof (ring_sorted r fn batches) as Hs. fold m in Hs.
  set (m' := Add m ns).
  set (vs := vnodes (hash m) (replicas m) ns).
  assert (hash m' = hash m) as Hhash by (unfold m'; by rewrite Add_unfold).
  assert (∀ y, y ∈ keys m' ↔ y ∈ keys m ∨ y ∈ vs.*1) as Hkeys.
  { intros y. unfold m'. rewrite Add_unfold. simpl.
    by rewrite Ints_perm, elem_of_app. }
  assert (hashMap m' = record (hashMap m) vs) as Hmap
    by (unfold m'; by rewrite Add_unfold).
  assert (StronglySorted Z.le (keys m')) as Hs'
    by (unfold m'; rewrite Add_unfold; apply Ints_sorted).
  destruct (decide (keys m' = [])) as [Hnil|Hne'].
  { left. assert (keys m = []) as Hnil0.
    { destruct (keys m) as [|y l] eqn:Hk; [done|].
      assert (y ∈ keys m') as Hy by (apply Hkeys; left; apply list_elem_of_here).
      rewrite Hnil in Hy. by apply elem_of_nil in Hy. }
    unfold Get. by rewrite Hnil, Hnil0. }
  destruct (Get_point m' key Hs' Hne') as (x' & Hx' & HGet' & Hmin').
  rewrite Hhash in Hmin'. set (h := uint32 (hash m (bytes key))) in *.
  destruct (decide (x' ∈ vs.*1)) as [Hnew|Hold].
  - right. rewrite HGet'. unfold owner. rewrite Hmap.
    destruct (record_lookup_new (hashMap m) vs x' Hnew) as (n & -> & Hin).
    simpl. by apply vnodes_node in Hin.
  - left. assert (x' ∈ keys m) as Hx by (apply Hkeys in Hx' as [|]; done).
    assert (keys m ≠ []) as Hne
      by (intros Hnil; rewrite Hnil in Hx; by apply elem_of_nil in Hx).
    destruct (Get_point m key Hs Hne) as (x & Hxin & HGet & Hmin). fold h in Hmin.
    assert (x ∈ keys m') as Hxin' by (apply Hkeys; by left).
    pose proof (Hmin' x Hxin') as H1. pose proof (Hmin x' Hx) as H2.
    assert (x' = x) as -> by (repeat case_decide; lia).
    rewrite HGet', HGet. unfold owner. by rewrite Hmap, record_lookup_old.
Qed.

End ring_more.

(** ** The peer pool after [Set] *)

Section pool_more.
Import httppool.

(** X12. After [Set] with at least one peer, none of them named by the
    empty string, [PickPeer] returns for every key: the ring selects
    one of the peers of the last [Set]; when that is the local node the
    answer is [(nil, false)], and otherwise it is the fetcher whose base
    URL is the address of that peer followed by the base path. *)
Theorem pool_PickPeer_spec p ps key :
  ps ≠ [] → EmptyString ∉ ps →
  ∃ peer, peer ∈ ps
    ∧ ring_Get (peers (Set_ p ps)) key = Returns peer
    ∧ PickPeer (Set_ p ps) key =
        if decide (peer = self p) then Returns (None, false)
        else Returns (Some (mkGetter (peer +:+ basePath p)), true).
Proof.
  intros Hne Hnames.
  assert (0 < defaultReplicas) as Hr by done.
  pose proof (Get_added_node defaultReplicas None ps key Hr Hne) as Hin.
  destruct (PickPeer_after_Set p ps key) as (peer & Hpeer & Hlocal & Hremote).
  change (peers (Set_ p ps))
    with (Some (consistenthash.Add (consistenthash.New defaultReplicas None) ps))
    in Hpeer |- *.
  cbn [ring_Get] in Hpeer |- *. injection Hpeer as Hpeer. rewrite Hpeer in Hin.
  exists peer. split_and!; [done|by rewrite Hpeer|].
  destruct (decide (peer = self p)) as [Hself|Hself].
  - apply Hlocal. by right.
  - apply Hremote; [|done]. intros ->. done.
Qed.

End pool_more.

(** ** The cache of a group and its load path *)

Section group_more.
Import byteview kcache.
Context {W : Type}.
Implicit Types (st : St W) (key : string) (c : cache).

Lemma cache_add_lru c key v :
  cache_add c key v =
    match lru.Add (cache_lru c) key v with
    | Some l' => Some (mkcache (Some l') (cacheBytes c))
    | None => None
    end.
Proof. unfold cache_add, cache_lru. by destruct (lru c). Qed.

Lemma cache_get_lru c key :
  fst (cache_get c key) = fst (lru.Get (cache_lru c) key)
  ∧ cache_lru (snd (cache_get c key)) = snd (lru.Get (cache_lru c) key)
  ∧ cacheBytes (snd (cache_get c key)) = cacheBytes c.
Proof.
  destruct c as [[l|] cb]; unfold cache_get, cache_lru; simpl.
  - by destruct (lru.Get l key) as [[v|] l'].
  - done.
Qed.

Lemma cache_ok_New cb : cache_ok (mkcache None cb).
Proof.
  unfold cache_ok, cache_lru. simpl.
  split_and!; [apply wf_New|apply budget_New|done].
Qed.

Lemma cache_get_ok c key : cache_ok c → cache_ok (snd (cache_get c key)).
Proof.
  intros (Hwf & Hbud & Hmax).
  destruct (cache_get_lru c key) as (_ & Hl & Hcb). unfold cache_ok.
  rewrite Hl, Hcb. destruct (Get_frame (cache_lru c) key) as [Hm Hn].
  split_and!; [by apply Get_wf| |congruence].
  unfold lru.within_budget. by rewrite Hm, Hn.
Qed.

Lemma cache_add_ok c key v c' :
  cache_ok c → lru.fits (cache_lru c) key v → cache_add c key v = Some c' →
  cache_ok c' ∧ cacheBytes c' = cacheBytes c.
Proof.
  intros (Hwf & Hbud & Hmax) Hfit. rewrite cache_add_lru.
  destruct (lru.Add (cache_lru c) key v) as [l'|] eqn:Hadd; [|done].
  intros [= <-].
  destruct (lru_step_inv (cache_lru c) (lru.OpAdd key v) l' Hwf Hbud Hfit Hadd)
    as (Hwf' & Hbud' & Hmax').
  unfold cache_ok, cache_lru. simpl. split_and!; [done|done|congruence|done].
Qed.

(** Below a positive budget the cache holds at most [cacheBytes]. *)
Lemma cache_fits c key v :
  cache_ok c → 0 < cacheBytes c →
  cacheBytes c + (lru.len key + lru.Len v) ≤ max_int64 →
  lru.fits (cache_lru c) key v.
Proof.
  intros (Hwf & Hbud & Hmax) Hpos Hsz. unfold lru.fits.
  rewrite <- (lru.wf_nbytes _ Hwf). unfold lru.within_budget in Hbud. lia.
Qed.

Lemma cache_add_total c key v :
  cache_ok c → lru.fits (cache_lru c) key v → 0 ≤ cacheBytes c →
  is_Some (cache_add c key v).
Proof.
  intros (Hwf & Hbud & Hmax) Hfit Hpos. rewrite cache_add_lru.
  destruct (Add_total (cache_lru c) key v Hwf Hfit) as [l' ->]; [lia|done].
Qed.

(** [add] then [get]: an entry that fits the budget is found again. *)
Lemma cache_add_get c key v :
  cache_ok c → lru.fits (cache_lru c) key v →
  cacheBytes c = 0 ∨ lru.len key + lru.Len v ≤ cacheBytes c →
  ∃ c', cache_add c key v = Some c' ∧ fst (cache_get c' key) = Some v.
Proof.
  intros Hok Hfit Hsz. pose proof Hok as (Hwf & Hbud & Hmax).
  pose proof (len_nonneg key). pose proof (lru.Len_nonneg v).
  destruct (cache_add_total c key v Hok Hfit) as [c' Hadd]; [lia|].
  exists c'. split; [done|].
  destruct (cache_add_ok c key v c' Hok Hfit Hadd) as ((Hwf' & _) & _).
  destruct (cache_get_lru c' key) as (-> & _).
  rewrite cache_add_lru in Hadd.
  destruct (lru.Add (cache_lru c) key v) as [l'|] eqn:Hl; [|done].
  injection Hadd as <-. unfold cache_lru in Hwf' |- *. simpl in *.
  unfold lru.Add in Hl.
  destruct (insert_list (cache_lru c) key v Hwf) as (p & Hins).
  assert (lru.maxBytes (lru.insert (cache_lru c) key v) = 0
          ∨ lru.size (lru.mkElement p key v)
            ≤ lru.maxBytes (lru.insert (cache_lru c) key v)) as Hsz'
    by (rewrite insert_frame, Hmax; exact Hsz).
  destruct (evict_keeps_front _ _ _ _ _ (insert_wf _ key v Hwf Hfit) Hins Hsz' Hl)
    as (rest' & Hll).
  apply Get_Some; [done|]. exists (lru.mkElement p key v).
  rewrite Hll. split; [apply list_elem_of_here|done].
Qed.


Lemma getLocally_run key st :
  getLocally key st =
    match getter (group st) key (world st) with
    | (inr err, w) => Some ((mkByteView [], Some err), emit (EvLoader key) w st)
    | (inl bytes, w) =>
        match cache_add (mainCache (group st)) key (mkByteView bytes) with
        | Some c =>
            Some ((mkByteView bytes, None),
                  set_mainCache c
                    (emit (EvPopulate key) w (emit (EvLoader key) w st)))
        | None => None
        end
    end.
Proof.
  unfold getLocally. destruct (getter (group st) key (world st)) as [[bytes|err] w];
    [|done].
  unfold bind, populateCache, ret. simpl. rewrite cloneBytes_eq.
  by destruct (cache_add _ _ _).
Qed.

Lemma load_fn_local key st :
  local_key (group st) key → load_fn key st = getLocally key st.
Proof.
  unfold load_fn, local_key. intros Hloc.
  destruct (peers (group st)) as [picker|]; [|done]. by rewrite (Hloc picker eq_refl).
Qed.

(** [Get] on a miss: the key is registered, [load_fn] runs, the key is
    released. *)
Lemma Get_miss_run key st :
  key ≠ EmptyString → misses (mainCache (group st)) key →
  key ∉ loader (group st) →
  Get key st =
    match load_fn key (set_loader ({[key]} ∪ loader (group st)) st) with
    | Some ((v, None), st') =>
        Some ((v, None), set_loader (loader (group st') ∖ {[key]}) st')
    | Some ((_, Some err), st') =>
        Some ((mkByteView [], Some err),
              set_loader (loader (group st') ∖ {[key]}) st')
    | None => None
    end.
Proof.
  intros Hkey Hmiss Hfree. unfold Get. rewrite decide_False by done.
  rewrite (cache_get_miss _ _ Hmiss), set_mainCache_id.
  unfold load, bind, Do. rewrite decide_False by done.
  by destruct (load_fn key _) as [[[v [e|]] st']|].
Qed.

(** A key that misses and is loaded from the origin is served from the
    cache afterwards. *)
Lemma Get_local_then_hit key st bytes w' :
  key ≠ EmptyString → idle (group st) → misses (mainCache (group st)) key →
  local_key (group st) key →
  getter (group st) key (world st) = (inl bytes, w') →
  lru.fits (cache_lru (mainCache (group st))) key (mkByteView bytes) →
  cacheBytes (mainCache (group st)) = 0
  ∨ lru.len key + Z.of_nat (length bytes) ≤ cacheBytes (mainCache (group st)) →
  ∃ st1 st2,
    Get key st = Some ((mkByteView bytes, None), st1)
    ∧ trace st1 = trace st ++ [EvLoader key; EvPopulate key]
    ∧ world st1 = w' ∧ idle (group st1)
    ∧ Get key st1 = Some ((mkByteView bytes, None), st2)
    ∧ trace st2 = trace st1 ∧ world st2 = world st1 ∧ idle (group st2).
Proof.
  intros Hkey [Hl Hok] Hmiss Hloc Hget Hfit Hsz.
  destruct (cache_add_get _ key (mkByteView bytes) Hok Hfit Hsz) as (c' & Hadd & Hhit).
  destruct (cache_add_ok _ key _ c' Hok Hfit Hadd) as [Hok' _].
  rewrite (Get_miss_run key st Hkey Hmiss) by (rewrite Hl; set_solver).
  rewrite load_fn_local by done. rewrite getLocally_run.
  destruct st as [w [n gt c p l] tr]. simpl in *. subst l.
  rewrite Hget, Hadd. simpl.
  rewrite release_key by set_solver.
  set (g1 := mkGroup n gt c' p ∅).
  set (tr1 := (tr ++ [EvLoader key]) ++ [EvPopulate key]).
  exists (mkSt w' g1 tr1), (mkSt w' (mkGroup n gt (snd (cache_get c' key)) p ∅) tr1).
  split; [reflexivity|]. simpl.
  split; [unfold tr1; by rewrite <- app_assoc|]. split; [done|]. split; [done|].
  unfold Get. rewrite decide_False by done. simpl.
  pose proof (cache_get_ok c' key Hok') as Hok''.
  destruct (cache_get c' key) as [[v|] c''] eqn:Hc; simpl in Hhit; [|done].
  injection Hhit as ->. done.
Qed.


(** [load_fn] when no peer answers: the loader is asked, after the call
    to the peer if one was picked. *)
Lemma load_fn_loader key st w1 :
  loader_world (group st) key (world st) = Some w1 →
  load_fn key st =
    getLocally key (mkSt w1 (group st) (trace st ++ peer_events (group st) key)).
Proof.
  unfold loader_world, peer_events, load_fn.
  destruct st as [w [n gt c p l] tr]. simpl.
  destruct p as [picker|]; [destruct (picker key) as [peer|]|].
  - unfold bind, getFromPeer. simpl.
    destruct (peer n key w) as [[bytes|err] w0]; [done|]. by intros [= ->].
  - intros [= ->]. by rewrite app_nil_r.
  - intros [= ->]. by rewrite app_nil_r.
Qed.


Lemma loader_world_set_loader key st l :
  loader_world (group (set_loader l st)) key (world (set_loader l st))
  = loader_world (group st) key (world st).
Proof. by destruct st as [w [n gt c p l0] tr]. Qed.

(** X14. A group with a negative [cacheBytes] cannot store anything:
    the [Get] of a key that misses, that no peer answers and that the
    origin loader answers never returns, because the eviction loop under
    [populateCache] does not end. *)
Theorem Get_negative_budget_hangs key st w1 bytes w2 :
  key ≠ EmptyString → idle (group st) → cacheBytes (mainCache (group st)) < 0 →
  misses (mainCache (group st)) key →
  loader_world (group st) key (world st) = Some w1 →
  getter (group st) key w1 = (inl bytes, w2) →
  lru.fits (cache_lru (mainCache (group st))) key (mkByteView bytes) →
  Get key st = None.
Proof.
  intros Hkey [Hl (Hwf & Hbud & Hmax)] Hneg Hmiss Hloader Hget Hfit.
  rewrite (Get_miss_run key st Hkey Hmiss) by (rewrite Hl; set_solver).
  rewrite (load_fn_loader key _ w1) by (by rewrite loader_world_set_loader).
  rewrite getLocally_run.
  destruct st as [w [n gt c p l] tr]. simpl in *.
  rewrite Hget, cache_add_lru. unfold lru.Add.
  rewrite evict_negative; [done|by apply insert_wf|].
  rewrite insert_frame. lia.
Qed.

Lemma getLocally_total key st keys :
  key ∈ keys → cache_ok (mainCache (group st)) →
  0 < cacheBytes (mainCache (group st)) → sized (group st) keys →
  ∃ r c' w' evs,
    getLocally key st =
      Some (r, mkSt w' (mkGroup (name (group st)) (getter (group st)) c'
                                (peers (group st)) (loader (group st)))
                    (trace st ++ evs))
    ∧ cache_ok c' ∧ cacheBytes c' = cacheBytes (mainCache (group st)).
Proof.
  intros Hin Hok Hpos Hsized. rewrite getLocally_run.
  destruct st as [w [n gt c p l] tr]. simpl in *.
  destruct (gt key w) as [[bytes|err] w1] eqn:Hget.
  - assert (lru.fits (cache_lru c) key (mkByteView bytes)) as Hfit.
    { apply cache_fits; [done|done|]. apply (Hsized key w bytes w1 Hin Hget). }
    destruct (cache_add_total c key (mkByteView bytes) Hok Hfit) as [c' Hadd]; [lia|].
    destruct (cache_add_ok c key _ c' Hok Hfit Hadd) as [Hok' Hcb].
    rewrite Hadd. exists (mkByteView bytes, None), c', w1, [EvLoader key; EvPopulate key].
    split; [|done]. unfold set_mainCache, emit. simpl. by rewrite <- app_assoc.
  - exists (mkByteView [], Some err), c, w1, [EvLoader key]. done.
Qed.

Lemma load_fn_total key st keys :
  key ∈ keys → cache_ok (mainCache (group st)) →
  0 < cacheBytes (mainCache (group st)) → sized (group st) keys →
  ∃ r c' w' evs,
    load_fn key st =
      Some (r, mkSt w' (mkGroup (name (group st)) (getter (group st)) c'
                                (peers (group st)) (loader (group st)))
                    (trace st ++ evs))
    ∧ cache_ok c' ∧ cacheBytes c' = cacheBytes (mainCache (group st)).
Proof.
  intros Hin Hok Hpos Hsized.
  assert (∀ peer, ∃ r c' w' evs,
            bind (getFromPeer peer key)
                 (λ r, match r with
                       | (value, None) => ret (value, None)
                       | (_, Some _) => getLocally key
                       end) st =
              Some (r, mkSt w' (mkGroup (name (group st)) (getter (group st)) c'
                                        (peers (group st)) (loader (group st)))
                            (trace st ++ evs))
            ∧ cache_ok c' ∧ cacheBytes c' = cacheBytes (mainCache (group st)))
    as Hpeer.
  { intros peer. unfold bind, getFromPeer.
    destruct (peer (name (group st)) key (world st)) as [[bytes|err] w1].
    - exists (mkByteView bytes, None), (mainCache (group st)), w1,
        [EvPeer (name (group st)) key].
      split; [|done]. by destruct st as [w [n gt c p l] tr].
    - destruct (getLocally_total key
                  (emit (EvPeer (name (group st)) key) w1 st) keys Hin)
        as (r & c' & w2 & evs & Hrun & Hok' & Hcb); [done..|].
      exists r, c', w2, (EvPeer (name (group st)) key :: evs).
      split; [|done]. rewrite Hrun. simpl. by rewrite <- app_assoc. }
  unfold load_fn. destruct (peers (group st)) as [picker|] eqn:Hp.
  - destruct (picker key) as [peer|].
    + destruct (Hpeer peer) as (r & c' & w1 & evs & Hrun & ?). rewrite ?Hp in Hrun.
      by exists r, c', w1, evs.
    + destruct (getLocally_total key st keys Hin) as (r & c' & w1 & evs & Hrun & ?);
        [done..|]. rewrite ?Hp in Hrun. by exists r, c', w1, evs.
  - destruct (getLocally_total key st keys Hin) as (r & c' & w1 & evs & Hrun & ?);
      [done..|]. rewrite ?Hp in Hrun. by exists r, c', w1, evs.
Qed.

Lemma Get_total key st keys :
  key ∈ keys → idle (group st) →
  0 < cacheBytes (mainCache (group st)) → sized (group st) keys →
  ∃ r c' w' evs,
    Get key st =
      Some (r, mkSt w' (mkGroup (name (group st)) (getter (group st)) c'
                                (peers (group st)) ∅)
                    (trace st ++ evs))
    ∧ cache_ok c' ∧ cacheBytes c' = cacheBytes (mainCache (group st)).
Proof.
  intros Hin [Hl Hok] Hpos Hsized. unfold Get.
  destruct (decide (key = EmptyString)) as [Hkey|Hkey].
  { exists (mkByteView [], Some "key is required"%string), (mainCache (group st)),
      (world st), [].
    split; [|done]. destruct st as [w [n gt c p l] tr]. simpl in *.
    by rewrite Hl, app_nil_r. }
  pose proof (cache_get_ok _ key Hok) as Hok1.
  destruct (cache_get_lru (mainCache (group st)) key) as (_ & _ & Hcb1).
  destruct (cache_get (mainCache (group st)) key) as [[v|] c1]; simpl in Hok1, Hcb1.
  { exists (v, None), c1, (world st), [].
    split; [|done]. destruct st as [w [n gt c p l] tr]. simpl in *.
    by rewrite Hl, app_nil_r. }
  unfold load, bind, Do.
  destruct st as [w [n gt c p l] tr]. simpl in *. subst l.
  rewrite decide_False by set_solver.
  destruct (load_fn_total key
              (mkSt w (mkGroup n gt c1 p ({[key]} ∪ ∅)) tr) keys Hin)
    as (r & c' & w1 & evs & Hrun & Hok' & Hcb); simpl; [done|lia| |].
  { intros k w0 bytes w2 Hk Hget. simpl in *. rewrite Hcb1.
    apply (Hsized k w0 bytes w2 Hk Hget). }
  unfold set_mainCache, set_loader. simpl in *. rewrite Hrun.
  destruct r as [v [err|]]; unfold ret; simpl; rewrite release_key by set_solver.
  - exists (mkByteView [], Some err), c', w1, evs. split; [done|]. split; [done|lia].
  - exists (v, None), c', w1, evs. split; [done|]. split; [done|lia].
Qed.

(** X15. With a positive [cacheBytes] and an origin whose values fit,
    every [Get] of a run returns, whatever the peers answer; the group
    is idle again after each of them, its setup is as before, and its
    cache holds no more than [cacheBytes] bytes. *)
Theorem Gets_within_budget keys st :
  idle (group st) → 0 < cacheBytes (mainCache (group st)) →
  sized (group st) keys →
  ∃ rs st',
    Gets keys st = Some (rs, st')
    ∧ length rs = length keys
    ∧ idle (group st') ∧ same_setup (group st) (group st')
    ∧ 0 ≤ cached_bytes (group st') ≤ cacheBytes (mainCache (group st)).
Proof.
  intros Hidle Hpos Hsized.
  assert (∀ ks st, (∀ k, k ∈ ks → k ∈ keys) →
            idle (group st) → 0 < cacheBytes (mainCache (group st)) →
            sized (group st) keys →
            ∃ rs st', Gets ks st = Some (rs, st') ∧ length rs = length ks
              ∧ idle (group st') ∧ same_setup (group st) (group st')) as Hrun.
  { clear. induction ks as [|k ks IH]; intros st Hsub Hidle Hpos Hsized.
    - exists [], st. by split_and!.
    - destruct (Get_total k st keys) as (r & c' & w1 & evs & HGet & Hok' & Hcb);
        [apply Hsub, list_elem_of_here|done..|].
      simpl. unfold bind. rewrite HGet.
      destruct (IH (mkSt w1 (mkGroup (name (group st)) (getter (group st)) c'
                                     (peers (group st)) ∅) (trace st ++ evs)))
        as (rs & st' & -> & Hlen & Hidle' & Hsame).
      + intros k' Hk'. by apply Hsub, list_elem_of_further.
      + done.
      + simpl. lia.
      + intros k' w0 bytes w2 Hk' Hget. simpl in *. rewrite Hcb.
        apply (Hsized k' w0 bytes w2 Hk' Hget).
      + exists (r :: rs), st'. simpl. split_and!; [done|by rewrite Hlen|done|].
        destruct Hsame as (? & ? & ? & ?). simpl in *.
        split_and!; congruence. }
  destruct (Hrun keys st) as (rs & st' & HGets & Hlen & Hidle' & Hsame); [done..|].
  exists rs, st'. split_and!; try done.
  - destruct Hidle' as [_ (Hwf & _)]. apply (wf_nbytes_range _ Hwf).
  - destruct Hidle' as [_ (Hwf & Hbud & Hmax)]. destruct Hsame as (_ & _ & _ & Hcb).
    unfold cached_bytes. rewrite <- Hcb, <- Hmax. apply Hbud. lia.
Qed.



End group_more.

(** ** The HTTP front *)

Section server_more.
Import byteview kcache server.
Context {W : Type}.
Implicit Types (s : Srv W) (p : httppool.HTTPPool) (key path : string).

Lemma HasPrefix_app (prefix rest : string) : HasPrefix (prefix +:+ rest) prefix = true.
Proof.
  induction prefix as [|a prefix IH]; simpl; [done|].
  by rewrite Ascii.eqb_refl.
Qed.

Lemma skip_app (prefix rest : string) :
  skip (String.length prefix) (prefix +:+ rest) = rest.
Proof. induction prefix as [|a prefix IH]; simpl; done. Qed.

Lemma HasPrefix_skip (s0 prefix : string) :
  HasPrefix s0 prefix = true → s0 = prefix +:+ skip (String.length prefix) s0.
Proof.
  revert s0. induction prefix as [|a prefix IH]; intros [|b s0]; simpl; try done.
  intros [Hab Hp]%andb_true_iff. apply Ascii.eqb_eq in Hab as ->.
  change (String b s0 = String b (prefix +:+ skip (String.length prefix) s0)).
  f_equal. by apply IH.
Qed.

(** [cut] splits at the first ["/"]. *)
Lemma cut_app (x y : string) :
  cut x = None → cut (x +:+ String "/" y) = Some (x, y).
Proof.
  induction x as [|a x IH]; simpl; [done|].
  destruct (Ascii.eqb a "/"); [done|].
  destruct (cut x) as [[x1 y1]|]; [done|]. intros _. by rewrite IH.
Qed.

Lemma cut_Some (s0 x y : string) :
  cut s0 = Some (x, y) → s0 = x +:+ String "/" y ∧ cut x = None.
Proof.
  revert x. induction s0 as [|a s0 IH]; intros x; simpl; [done|].
  destruct (Ascii.eqb a "/") eqn:Ha.
  - intros [= <- <-]. apply Ascii.eqb_eq in Ha as ->. done.
  - destruct (cut s0) as [[x1 y1]|]; [|done]. intros [= <- <-].
    destruct (IH x1 eq_refl) as [-> Hx1]. simpl. by rewrite Ha, Hx1.
Qed.

(** The handler on a well-formed path. *)
Lemma ServeHTTP_route p gname key s :
  cut gname = None →
  ServeHTTP p (httppool.basePath p +:+ gname +:+ String "/" key) s =
    match GetGroup gname s with
    | None =>
        Some (httppool.Returns (http_Error ("no such group: " +:+ gname) 404), s)
    | Some a =>
        match Group_Get a key s with
        | Some ((_, Some err), s') =>
            Some (httppool.Returns (http_Error err 500), s')
        | Some ((view, None), s') =>
            Some (httppool.Returns
                    (mkResponse 200 "application/octet-stream" (ByteSlice view)),
                  s')
        | None => None
        end
    end.
Proof.
  intros Hname. unfold ServeHTTP. rewrite HasPrefix_app, skip_app. simpl.
  unfold SplitN2. by rewrite (cut_app gname key Hname).
Qed.

(** X13. A key that misses and that the origin answers is served from
    the cache afterwards: the first request asks the loader once, stores
    its bytes and answers 200 with them; the second request for the same
    path answers 200 with the same bytes without any call to the
    outside. *)
Theorem serve_load_then_hit p gname key s a g bytes w' :
  cut gname = None → key ≠ EmptyString →
  groups s !! gname = Some a → heap s !! a = Some g →
  idle g → misses (mainCache g) key → local_key g key →
  getter g key (world s) = (inl bytes, w') →
  lru.fits (cache_lru (mainCache g)) key (mkByteView bytes) →
  cacheBytes (mainCache g) = 0
  ∨ lru.len key + Z.of_nat (length bytes) ≤ cacheBytes (mainCache g) →
  let path := httppool.basePath p +:+ gname +:+ String "/" key in
  let ok := httppool.Returns (mkResponse 200 "application/octet-stream" bytes) in
  ∃ s1 s2,
    ServeHTTP p path s = Some (ok, s1)
    ∧ trace s1 = trace s ++ [EvLoader key; EvPopulate key] ∧ world s1 = w'
    ∧ ServeHTTP p path s1 = Some (ok, s2)
    ∧ trace s2 = trace s1 ∧ world s2 = world s1.
Proof.
  intros Hname Hkey Hreg Hg Hidle Hmiss Hloc Hget Hfit Hsz path ok.
  destruct (Get_local_then_hit key (mkSt (world s) g (trace s)) bytes w')
    as (st1 & st2 & HGet1 & Htr1 & Hw1 & Hidle1 & HGet2 & Htr2 & Hw2 & _);
    [done..|].
  pose proof (lookup_lt_Some _ _ _ Hg) as Hlt.
  set (s1 := mkSrv (kcache.world st1) (<[a := group st1]> (heap s)) (groups s)
                   (kcache.trace st1)).
  set (s2 := mkSrv (kcache.world st2) (<[a := group st2]> (heap s1)) (groups s)
                   (kcache.trace st2)).
  exists s1, s2. unfold path.
  rewrite !ServeHTTP_route by done. unfold GetGroup. simpl. rewrite Hreg.
  unfold Group_Get. rewrite Hg, HGet1. simpl.
  rewrite list_lookup_insert_eq by done.
  assert (mkSt (kcache.world st1) (group st1) (kcache.trace st1) = st1) as ->
    by (by destruct st1).
  rewrite HGet2. unfold ok, ByteSlice. simpl. rewrite cloneBytes_eq.
  by split_and!.
Qed.

(** X17. Routing: a request for the base path, a group name without
    ["/"], a ["/"] and a key is answered by the [Get] of that key on the
    registered group of that name, the key being everything after the
    first ["/"]: 404 without such a group, 500 with the error of [Get]
    on a line, 200 with the bytes of the value; and the handler does not
    return when [Get] does not. *)
Theorem serve_dispatch p gname key s :
  cut gname = None →
  let path := httppool.basePath p +:+ gname +:+ String "/" key in
  (groups s !! gname = None →
   ServeHTTP p path s =
     Some (httppool.Returns
             (mkResponse 404 "text/plain; charset=utf-8"
                (consistenthash.bytes
                   (("no such group: " +:+ gname) +:+ String "010" EmptyString))),
           s))
  ∧ (∀ a v s', groups s !! gname = Some a →
       Group_Get a key s = Some ((v, None), s') →
       ServeHTTP p path s =
         Some (httppool.Returns (mkResponse 200 "application/octet-stream" (b v)),
               s'))
  ∧ (∀ a v err s', groups s !! gname = Some a →
       Group_Get a key s = Some ((v, Some err), s') →
       ServeHTTP p path s =
         Some (httppool.Returns
                 (mkResponse 500 "text/plain; charset=utf-8"
                    (consistenthash.bytes (err +:+ String "010" EmptyString))), s'))
  ∧ (∀ a, groups s !! gname = Some a → Group_Get a key s = None →
       ServeHTTP p path s = None).
Proof.
  intros Hname path. unfold path. rewrite ServeHTTP_route by done.
  unfold GetGroup. split_and!.
  - by intros ->.
  - intros a v s' -> ->. unfold ByteSlice. by rewrite cloneBytes_eq.
  - by intros a v err s' -> ->.
  - by intros a -> ->.
Qed.

(** X18. What the handler refuses: it panics on a path outside the base
    path, answers 400 when nothing follows the group name, and whenever
    it panics or answers with a status other than 200 and 500 it has
    neither touched a group nor called the outside. *)
Theorem serve_rejects p path s :
  (HasPrefix path (httppool.basePath p) = false →
   ServeHTTP p path s = Some (httppool.Panics, s))
  ∧ (∀ rest, cut rest = None →
       ServeHTTP p (httppool.basePath p +:+ rest) s =
         Some (httppool.Returns
                 (mkResponse 400 "text/plain; charset=utf-8"
                    (consistenthash.bytes
                       ("bad request" +:+ String "010" EmptyString))), s))
  ∧ (∀ out s', ServeHTTP p path s = Some (out, s') →
       out = httppool.Panics
       ∨ (∃ resp, out = httppool.Returns resp
                  ∧ status resp ≠ 200 ∧ status resp ≠ 500) →
       s' = s).
Proof.
  split_and!.
  - intros Hpre. unfold ServeHTTP. by rewrite Hpre.
  - intros rest Hrest. unfold ServeHTTP.
    rewrite HasPrefix_app, skip_app. simpl. unfold SplitN2. by rewrite Hrest.
  - intros out s'. unfold ServeHTTP.
    destruct (HasPrefix path (httppool.basePath p)); simpl; [|by intros [= <- <-]].
    destruct (SplitN2 _) as [|gname [|key [|]]]; try (by intros [= <- <-]).
    destruct (GetGroup gname s) as [a|]; [|by intros [= <- <-]].
    destruct (Group_Get a key s) as [[[v [err|]] s1]|]; [| |done].
    + intros [= <- <-] [|(resp & [= <-] & _ & Hne)]; done.
    + intros [= <- <-] [|(resp & [= <-] & Hne & _)]; done.
Qed.

End server_more.

(** ** Single-flight: progress, and what the map holds *)

Section flight_more.
Import singleflight.
Context {V E : Type}.
Implicit Types (s : state V E) (p : pc V E) (a : action V E) (r : result V E).

(** A step moves one thread, forward. *)
Lemma step_thread s t a s' :
  step s t a = Some s' →
  ∃ k p p', threads s !! t = Some (k, p)
            ∧ threads s' = <[t := (k, p')]> (threads s)
            ∧ (moves_left p' < moves_left p)%nat.
Proof.
  unfold step. destruct (threads s !! t) as [[k p]|] eqn:Ht; [|done].
  intros Hstep. exists k, p.
  destruct p as [|c|c|c|c|c r0|c], a as [|r| | | |]; try done;
    repeat case_match; simplify_eq/=; eexists; (split; [done|]);
    (split; [done|simpl; lia]).
Qed.

Lemma sum_list_insert (l : list nat) i x y :
  l !! i = Some x → (sum_list (<[i := y]> l) + x = sum_list l + y)%nat.
Proof.
  revert i. induction l as [|z l IH]; intros [|i]; simpl; try done.
  - intros [= ->]. lia.
  - intros Hi. specialize (IH i Hi). lia.
Qed.

Lemma work_left_step s t a s' :
  step s t a = Some s' → (work_left s' < work_left s)%nat.
Proof.
  intros Hstep. apply step_thread in Hstep as (k & p & p' & Ht & Hth & Hlt).
  unfold work_left. rewrite Hth, list_fmap_insert. simpl.
  pose proof (sum_list_insert ((λ x, moves_left x.2) <$> threads s) t
                (moves_left p) (moves_left p')) as Hsum.
  rewrite list_lookup_fmap, Ht in Hsum. specialize (Hsum eq_refl). lia.
Qed.

Lemma work_left_exec s sched s' :
  exec s sched = Some s' → (length sched + work_left s' ≤ work_left s)%nat.
Proof.
  revert s. induction sched as [|[t a] sched IH]; intros s; simpl.
  - intros [= <-]. lia.
  - destruct (step s t a) as [s1|] eqn:Hstep; [|done]. intros Hexec.
    specialize (IH s1 Hexec). pose proof (work_left_step s t a s1 Hstep). lia.
Qed.

Lemma work_left_init keys :
  work_left (init (V:=V) (E:=E) keys) = (4 * length keys)%nat.
Proof.
  unfold work_left, init. simpl. rewrite <- list_fmap_compose.
  induction keys as [|k keys IH]; [done|].
  rewrite fmap_cons. simpl sum_list. rewrite IH. simpl. lia.
Qed.

Lemma live_init keys : live (init (V:=V) (E:=E) keys).
Proof.
  constructor; simpl.
  - intros k c. by rewrite lookup_empty.
  - intros c cl. by rewrite lookup_nil.
Qed.

Lemma live_step s t a s' : inv s → live s → step s t a = Some s' → live s'.
Proof.
  intros Hinv [Hindex Hwait] Hstep.
  assert (∀ t1 k1 p1, threads s !! t1 = Some (k1, p1) → t1 ≠ t →
                      threads s' !! t1 = Some (k1, p1)) as Hkeep.
  { intros t1 k1 p1 Ht1 Hne. by rewrite (step_other s t a s' t1 Hstep). }
  unfold step in Hstep. destruct (threads s !! t) as [[k p]|] eqn:Ht; [|done].
  assert (t < length (threads s))%nat as Hlen by (by apply lookup_lt_Some in Ht).
  assert (∀ t1 k1 p1 (c1 : nat), threads s !! t1 = Some (k1, p1) →
            owns p1 = Some c1 → owns p = None → t1 ≠ t) as Hidle.
  { intros t1 k1 p1 c1 Ht1 Ho Hp ->. congruence. }
  destruct p as [|c|c|c|c|c r0|c], a as [|r| | | |]; try done.
  - (* Enter *)
    destruct (m s !! k) as [c|] eqn:Hk; injection Hstep as <-; constructor; simpl.
    + intros k1 c1 Hk1. destruct (Hindex k1 c1 Hk1) as (t1 & p1 & Ht1 & Ho).
      exists t1, p1. split; [|done]. rewrite list_lookup_insert_ne; [done|].
      intros <-. rewrite Ht in Ht1. by injection Ht1 as <- <-.
    + intros c1 cl Hc1 Hwg. destruct (Hwait c1 cl Hc1 Hwg) as (t1 & k1 & p1 & Ht1 & Hp).
      exists t1, k1, p1. split; [|done]. rewrite list_lookup_insert_ne; [done|].
      intros <-. rewrite Ht in Ht1. injection Ht1 as <- <-. by destruct Hp as [|[|]].
    + intros k1 c1 Hk1. apply lookup_insert_Some in Hk1 as [[<- <-]|[Hne Hk1]].
      * exists t, (Running (length (heap s))). split; [|done].
        by apply list_lookup_insert_eq.
      * destruct (Hindex k1 c1 Hk1) as (t1 & p1 & Ht1 & Ho).
        exists t1, p1. split; [|done]. rewrite list_lookup_insert_ne; [done|].
        intros <-. rewrite Ht in Ht1. by injection Ht1 as <- <-.
    + intros c1 cl Hc1 Hwg. apply lookup_app_Some in Hc1 as [Hc1|[Hge Hc1]].
      * destruct (Hwait c1 cl Hc1 Hwg) as (t1 & k1 & p1 & Ht1 & Hp).
        exists t1, k1, p1. split; [|done]. rewrite list_lookup_insert_ne; [done|].
        intros <-. rewrite Ht in Ht1. injection Ht1 as <- <-. by destruct Hp as [|[|]].
      * destruct (c1 - length (heap s))%nat as [|n] eqn:Hn; simpl in Hc1; [|done].
        assert (c1 = length (heap s)) as -> by lia.
        exists t, k, (Running (length (heap s))). split; [|by left].
        by apply list_lookup_insert_eq.
  - (* Wake *)
    destruct (heap s !! c) as [cl0|]; [|done]. case_decide; [|done].
    injection Hstep as <-. constructor; simpl.
    + intros k1 c1 Hk1. destruct (Hindex k1 c1 Hk1) as (t1 & p1 & Ht1 & Ho).
      exists t1, p1. split; [|done]. rewrite list_lookup_insert_ne; [done|].
      intros <-. rewrite Ht in Ht1. by injection Ht1 as <- <-.
    + intros c1 cl Hc1 Hwg. destruct (Hwait c1 cl Hc1 Hwg) as (t1 & k1 & p1 & Ht1 & Hp).
      exists t1, k1, p1. split; [|done]. rewrite list_lookup_insert_ne; [done|].
      intros <-. rewrite Ht in Ht1. injection Ht1 as <- <-. by destruct Hp as [|[|]].
  - (* Return *)
    injection Hstep as <-. constructor; simpl.
    + intros k1 c1 Hk1. destruct (Hindex k1 c1 Hk1) as (t1 & p1 & Ht1 & Ho).
      destruct (decide (t1 = t)) as [->|Hne].
      * rewrite Ht in Ht1. injection Ht1 as <- <-. simpl in Ho. injection Ho as <-.
        exists t, (Stored c). split; [|done]. by apply list_lookup_insert_eq.
      * exists t1, p1. split; [|done]. by rewrite list_lookup_insert_ne.
    + intros c1 cl Hc1 Hwg.
      assert (∃ cl0, heap s !! c1 = Some cl0 ∧ wg cl0 ≠ 0%nat) as (cl0 & Hcl0 & Hwg0).
      { destruct (decide (c = c1)) as [->|Hne].
        - rewrite list_lookup_alter_eq in Hc1.
          destruct (heap s !! c1) as [cl0|]; [|done]. injection Hc1 as <-.
          by exists cl0.
        - rewrite list_lookup_alter_ne in Hc1 by done. by exists cl. }
      destruct (Hwait c1 cl0 Hcl0 Hwg0) as (t1 & k1 & p1 & Ht1 & Hp).
      destruct (decide (t1 = t)) as [->|Hne].
      * rewrite Ht in Ht1. injection Ht1 as <- <-.
        destruct Hp as [[= <-]|[|]]; [|done..].
        exists t, k, (Stored c). split; [|by right; left].
        by apply list_lookup_insert_eq.
      * exists t1, k1, p1. split; [|done]. by rewrite list_lookup_insert_ne.
  - (* Panic *)
    injection Hstep as <-. constructor; simpl.
    + intros k1 c1 Hk1. destruct (Hindex k1 c1 Hk1) as (t1 & p1 & Ht1 & Ho).
      destruct (decide (t1 = t)) as [->|Hne].
      * rewrite Ht in Ht1. injection Ht1 as <- <-. simpl in Ho. injection Ho as <-.
        exists t, (Panicked c). split; [|done]. by apply list_lookup_insert_eq.
      * exists t1, p1. split; [|done]. by rewrite list_lookup_insert_ne.
    + intros c1 cl Hc1 Hwg. destruct (Hwait c1 cl Hc1 Hwg) as (t1 & k1 & p1 & Ht1 & Hp).
      destruct (decide (t1 = t)) as [->|Hne].
      * rewrite Ht in Ht1. injection Ht1 as <- <-.
        destruct Hp as [[= <-]|[|]]; [|done..].
        exists t, k, (Panicked c). split; [|by right; right].
        by apply list_lookup_insert_eq.
      * exists t1, k1, p1. split; [|done]. by rewrite list_lookup_insert_ne.
  - (* Done *)
    injection Hstep as <-. constructor; simpl.
    + intros k1 c1 Hk1. destruct (Hindex k1 c1 Hk1) as (t1 & p1 & Ht1 & Ho).
      destruct (decide (t1 = t)) as [->|Hne].
      * rewrite Ht in Ht1. injection Ht1 as <- <-. simpl in Ho. injection Ho as <-.
        exists t, (Released c). split; [|done]. by apply list_lookup_insert_eq.
      * exists t1, p1. split; [|done]. by rewrite list_lookup_insert_ne.
    + intros c1 cl Hc1 Hwg.
      destruct (inv_busy s Hinv t k (Stored c) c Ht eq_refl) as (cl1 & Hcl1 & Hwg1);
        [done|].
      destruct (decide (c = c1)) as [->|Hne].
      * rewrite list_lookup_alter_eq, Hcl1 in Hc1. injection Hc1 as <-.
        simpl in Hwg. rewrite Hwg1 in Hwg. done.
      * rewrite list_lookup_alter_ne in Hc1 by done.
        destruct (Hwait c1 cl Hc1 Hwg) as (t1 & k1 & p1 & Ht1 & Hp).
        exists t1, k1, p1. split; [|done]. rewrite list_lookup_insert_ne; [done|].
        intros <-. rewrite Ht in Ht1. injection Ht1 as <- <-.
        destruct Hp as [|[[= ->]|]]; done.
  - (* Delete *)
    destruct (heap s !! c) as [cl0|]; [|done]. injection Hstep as <-.
    constructor; simpl.
    + intros k1 c1 Hk1. apply lookup_delete_Some in Hk1 as [Hne Hk1].
      destruct (Hindex k1 c1 Hk1) as (t1 & p1 & Ht1 & Ho).
      exists t1, p1. split; [|done]. rewrite list_lookup_insert_ne; [done|].
      intros <-. rewrite Ht in Ht1. by injection Ht1 as <- <-.
    + intros c1 cl Hc1 Hwg. destruct (Hwait c1 cl Hc1 Hwg) as (t1 & k1 & p1 & Ht1 & Hp).
      exists t1, k1, p1. split; [|done]. rewrite list_lookup_insert_ne; [done|].
      intros <-. rewrite Ht in Ht1. injection Ht1 as <- <-. by destruct Hp as [|[|]].
Qed.

Lemma live_exec s sched s' : inv s → live s → exec s sched = Some s' → live s'.
Proof.
  revert s. induction sched as [|[t a] sched IH]; intros s Hinv Hlive; simpl.
  - by intros [= <-].
  - destruct (step s t a) as [s1|] eqn:Hstep; [|done].
    apply IH; [by apply (flight_step_inv s t a)|by apply (live_step s t a)].
Qed.


(** X19. [Do] does not deadlock and does not loop: a run of callers on
    a fresh group has at most four steps per caller, and as long as no
    [fn] has panicked and some caller has not returned, some caller can
    move. *)
Theorem singleflight_no_deadlock keys sched s :
  exec (init keys) sched = Some s → calm s →
  (length sched ≤ 4 * length keys)%nat
  ∧ ((∃ t k p, threads s !! t = Some (k, p) ∧ moves_left p ≠ 0%nat) →
     ∃ t a, a ≠ Panic ∧ is_Some (step s t a)).
Proof.
  intros Hexec Hcalm.
  pose proof (flight_exec_inv _ _ _ (inv_init keys) Hexec) as Hinv.
  pose proof (live_exec _ _ _ (inv_init keys) (live_init keys) Hexec) as Hlive.
  split.
  { pose proof (work_left_exec _ _ _ Hexec) as Hw.
    rewrite work_left_init in Hw. lia. }
  intros (t & k & p & Ht & Hleft).
  assert (∀ c, joined p = Some c → is_Some (heap s !! c)) as Hcall.
  { intros c Hj. apply lookup_lt_is_Some. by apply (inv_joined s Hinv t k p c). }
  destruct p as [|c|c|c|c|c r0|c]; simpl in Hleft; try done.
  - exists t, Enter. split; [done|]. unfold step. rewrite Ht.
    by destruct (m s !! k).
  - destruct (Hcall c eq_refl) as [cl Hcl].
    destruct (decide (wg cl = 0%nat)) as [Hwg|Hwg].
    + exists t, Wake. split; [done|]. unfold step.
      by rewrite Ht, Hcl, decide_True.
    + destruct (live_wait s Hlive c cl Hcl Hwg) as (t1 & k1 & p1 & Ht1 & Hp).
      destruct Hp as [Hp|[Hp|Hp]]; subst p1.
      * exists t1, (Return (None, None)). split; [done|]. unfold step.
        by rewrite Ht1.
      * exists t1, Done. split; [done|]. unfold step. by rewrite Ht1.
      * by destruct (Hcalm t1 k1 c).
  - exists t, (Return (None, None)). split; [done|]. unfold step. by rewrite Ht.
  - exists t, Done. split; [done|]. unfold step. by rewrite Ht.
  - destruct (Hcall c eq_refl) as [cl Hcl].
    exists t, Delete. split; [done|]. unfold step. by rewrite Ht, Hcl.
Qed.

(** X20. The map holds exactly the calls in flight: a key is in the map
    while one caller is between registering its call and deleting it,
    and at no other time. Results are therefore not kept: a caller that
    arrives when no call of its key is in flight runs [fn] again. *)
Theorem singleflight_map_in_flight keys sched s :
  exec (init keys) sched = Some s →
  (∀ k c, m s !! k = Some c
          ↔ ∃ t p, threads s !! t = Some (k, p) ∧ owns p = Some c)
  ∧ (∀ t k, threads s !! t = Some (k, Start) →
       (∀ t' p', threads s !! t' = Some (k, p') → owns p' = None) →
       ∃ s', step s t Enter = Some s'
             ∧ threads s' !! t = Some (k, Running (length (heap s)))
             ∧ execs s' = execs s ++ [(t, k, length (heap s))]).
Proof.
  intros Hexec.
  pose proof (flight_exec_inv _ _ _ (inv_init keys) Hexec) as Hinv.
  pose proof (live_exec _ _ _ (inv_init keys) (live_init keys) Hexec) as Hlive.
  split.
  - intros k c. split; [apply (live_index s Hlive)|].
    intros (t & p & Ht & Ho). by apply (inv_owner s Hinv t k p c).
  - intros t k Ht Hnone. apply step_Enter_fresh; [done|].
    destruct (m s !! k) as [c|] eqn:Hk; [|done].
    destruct (live_index s Hlive k c Hk) as (t1 & p1 & Ht1 & Ho).
    rewrite (Hnone t1 p1 Ht1) in Ho. done.
Qed.

End flight_more.

(** ** The further properties at sample inputs, continued *)

Lemma pool_PickPeer_spec_witness :
  let p := httppool.NewHTTPPool "http://a" in
  let ps := ["http://a"; "http://b"]%string in
  ps ≠ [] ∧ (EmptyString ∉ ps)
  ∧ ∃ peer, peer ∈ ps
      ∧ httppool.ring_Get (httppool.peers (httppool.Set_ p ps)) "Tom"
        = httppool.Returns peer
      ∧ httppool.PickPeer (httppool.Set_ p ps) "Tom" =
          if decide (peer = httppool.self p) then httppool.Returns (None, false)
          else httppool.Returns
                 (Some (httppool.mkGetter (peer +:+ httppool.basePath p)), true).
Proof.
  intros p ps.
  assert (ps ≠ []) as Hne by discriminate.
  assert (EmptyString ∉ ps) as Hnames.
  { intros Hin. apply elem_of_cons in Hin as [Hin|Hin]; [discriminate|].
    apply elem_of_cons in Hin as [Hin|Hin]; [discriminate|].
    by apply elem_of_nil in Hin. }
  split; [exact Hne|]. split; [exact Hnames|].
  exact (pool_PickPeer_spec p ps "Tom" Hne Hnames).
Defined.

Lemma serve_load_then_hit_witness :
  let p := httppool.NewHTTPPool "http://a" in
  let g := kcache.mkGroup "scores" samples.origin_up
             (kcache.mkcache None 1024) None ∅ in
  let path := (httppool.basePath p +:+ "scores" +:+ String "/" "Tom")%string in
  let ok := httppool.Returns
              (server.mkResponse 200 "application/octet-stream"
                 [Byte.x35; Byte.x38; Byte.x39]) in
  server.NewGroup "scores" 1024 (Some samples.origin_up) (server.mkSrv 0%nat [] ∅ [])
  = httppool.Returns (0%nat, samples.srv_scores)
  ∧ server.cut "scores" = None
  ∧ ∃ s1 s2,
      server.ServeHTTP p path samples.srv_scores = Some (ok, s1)
      ∧ server.trace s1
        = server.trace samples.srv_scores
          ++ [kcache.EvLoader "Tom"; kcache.EvPopulate "Tom"]
      ∧ server.world s1 = 1%nat
      ∧ server.ServeHTTP p path s1 = Some (ok, s2)
      ∧ server.trace s2 = server.trace s1 ∧ server.world s2 = server.world s1.
Proof.
  intros p g path ok.
  assert (server.cut "scores" = None) as Hname by reflexivity.
  assert ("Tom"%string ≠ EmptyString) as Hkey by discriminate.
  assert (server.groups samples.srv_scores !! "scores"%string = Some 0%nat) as Hreg
    by (vm_compute; reflexivity).
  assert (server.heap samples.srv_scores !! 0%nat = Some g) as Hg by reflexivity.
  assert (kcache.idle g) as Hidle by (split; [reflexivity|apply cache_ok_New]).
  assert (kcache.misses (kcache.mainCache g) "Tom") as Hmiss by reflexivity.
  assert (kcache.local_key g "Tom") as Hloc by (intros picker Hp; discriminate Hp).
  assert (kcache.getter g "Tom" (server.world samples.srv_scores)
          = (inl [Byte.x35; Byte.x38; Byte.x39], 1%nat)) as Hget by reflexivity.
  assert (lru.fits (kcache.cache_lru (kcache.mainCache g)) "Tom"
            (byteview.mkByteView [Byte.x35; Byte.x38; Byte.x39])) as Hfit
    by (vm_compute; discriminate).
  assert (kcache.cacheBytes (kcache.mainCache g) = 0
          ∨ lru.len "Tom" + Z.of_nat (length [Byte.x35; Byte.x38; Byte.x39])
            ≤ kcache.cacheBytes (kcache.mainCache g)) as Hsz
    by (right; vm_compute; discriminate).
  split; [reflexivity|]. split; [exact Hname|].
  exact (serve_load_then_hit p "scores" "Tom" samples.srv_scores 0%nat g
           [Byte.x35; Byte.x38; Byte.x39] 1%nat
           Hname Hkey Hreg Hg Hidle Hmiss Hloc Hget Hfit Hsz).
Defined.

Lemma Get_negative_budget_hangs_witness :
  let st := kcache.mkSt 0%nat
              (kcache.mkGroup "scores" samples.origin_up (kcache.mkcache None (-1))
                              (Some (λ _, Some samples.peer_down)) ∅) [] in
  "Tom"%string ≠ EmptyString
  ∧ kcache.idle (kcache.group st)
  ∧ kcache.cacheBytes (kcache.mainCache (kcache.group st)) < 0
  ∧ kcache.misses (kcache.mainCache (kcache.group st)) "Tom"
  ∧ kcache.loader_world (kcache.group st) "Tom" (kcache.world st) = Some 1%nat
  ∧ kcache.Get "Tom" st = None.
Proof.
  intros st.
  assert ("Tom"%string ≠ EmptyString) as Hkey by discriminate.
  assert (kcache.idle (kcache.group st)) as Hidle
    by (split; [reflexivity|apply cache_ok_New]).
  assert (kcache.cacheBytes (kcache.mainCache (kcache.group st)) < 0) as Hneg
    by reflexivity.
  assert (kcache.misses (kcache.mainCache (kcache.group st)) "Tom") as Hmiss
    by reflexivity.
  assert (kcache.loader_world (kcache.group st) "Tom" (kcache.world st)
          = Some 1%nat) as Hloader by reflexivity.
  assert (lru.fits (kcache.cache_lru (kcache.mainCache (kcache.group st))) "Tom"
            (byteview.mkByteView [Byte.x35; Byte.x38; Byte.x39])) as Hfit
    by (vm_compute; discriminate).
  split; [exact Hkey|]. split; [exact Hidle|]. split; [exact Hneg|].
  split; [exact Hmiss|]. split; [exact Hloader|].
  exact (Get_negative_budget_hangs "Tom" st 1%nat [Byte.x35; Byte.x38; Byte.x39]
           2%nat Hkey Hidle Hneg Hmiss Hloader eq_refl Hfit).
Defined.

Lemma Gets_within_budget_witness :
  let st := samples.group_alone 1024 in
  let keys := ["Tom"; "Jack"; "Tom"]%string in
  kcache.idle (kcache.group st)
  ∧ 0 < kcache.cacheBytes (kcache.mainCache (kcache.group st))
  ∧ kcache.sized (kcache.group st) keys
  ∧ ∃ rs st',
      kcache.Gets keys st = Some (rs, st')
      ∧ length rs = length keys
      ∧ kcache.idle (kcache.group st')
      ∧ kcache.same_setup (kcache.group st) (kcache.group st')
      ∧ 0 ≤ kcache.cached_bytes (kcache.group st')
        ≤ kcache.cacheBytes (kcache.mainCache (kcache.group st)).
Proof.
  intros st keys.
  assert (kcache.idle (kcache.group st)) as Hidle
    by (split; [reflexivity|apply cache_ok_New]).
  assert (0 < kcache.cacheBytes (kcache.mainCache (kcache.group st))) as Hpos
    by reflexivity.
  assert (kcache.sized (kcache.group st) keys) as Hsized.
  { intros key w bytes w' Hin Hget. injection Hget as <- _.
    apply elem_of_cons in Hin as [->|Hin]; [vm_compute; discriminate|].
    apply elem_of_cons in Hin as [->|Hin]; [vm_compute; discriminate|].
    apply elem_of_cons in Hin as [->|Hin]; [vm_compute; discriminate|].
    by apply elem_of_nil in Hin. }
  split; [exact Hidle|]. split; [exact Hpos|]. split; [exact Hsized|].
  exact (Gets_within_budget keys st Hidle Hpos Hsized).
Defined.


Lemma serve_dispatch_witness :
  let p := httppool.NewHTTPPool "http://a" in
  let path := (httppool.basePath p +:+ "users" +:+ String "/" "Tom")%string in
  server.cut "users" = None
  ∧ server.ServeHTTP p path samples.srv_scores =
      Some (httppool.Returns
              (server.mkResponse 404 "text/plain; charset=utf-8"
                 (consistenthash.bytes
                    (("no such group: " +:+ "users") +:+ String "010" EmptyString))),
            samples.srv_scores).
Proof.
  intros p path.
  assert (server.cut "users" = None) as Hname by reflexivity.
  assert (server.groups samples.srv_scores !! "users"%string = None) as Hreg
    by (vm_compute; reflexivity).
  split; [exact Hname|].
  exact (proj1 (serve_dispatch p "users" "Tom" samples.srv_scores Hname) Hreg).
Defined.

Lemma singleflight_no_deadlock_witness :
  let sched := [(0, singleflight.Enter); (1, singleflight.Enter)]%nat in
  singleflight.exec (singleflight.init samples.callers) sched = Some samples.flight_mid
  ∧ singleflight.calm samples.flight_mid
  ∧ (length sched ≤ 4 * length samples.callers)%nat
  ∧ ((∃ t k p, singleflight.threads samples.flight_mid !! t = Some (k, p)
               ∧ singleflight.moves_left p ≠ 0%nat) →
     ∃ t a, a ≠ singleflight.Panic
            ∧ is_Some (singleflight.step samples.flight_mid t a)).
Proof.
  intros sched.
  assert (singleflight.exec (singleflight.init samples.callers) sched
          = Some samples.flight_mid) as Hexec by (vm_compute; reflexivity).
  assert (singleflight.calm samples.flight_mid) as Hcalm.
  { intros t k c. destruct t as [|[|[|t]]]; simpl; discriminate. }
  split; [exact Hexec|]. split; [exact Hcalm|].
  exact (singleflight_no_deadlock samples.callers sched samples.flight_mid
           Hexec Hcalm).
Defined.

Lemma singleflight_map_in_flight_witness :
  singleflight.exec (singleflight.init samples.callers) samples.flight_sched
  = Some samples.flight_end
  ∧ (∀ k c, singleflight.m samples.flight_end !! k = Some c
            ↔ ∃ t p, singleflight.threads samples.flight_end !! t = Some (k, p)
                     ∧ singleflight.owns p = Some c)
  ∧ (∀ t k, singleflight.threads samples.flight_end !! t = Some (k, singleflight.Start) →
       (∀ t' p', singleflight.threads samples.flight_end !! t' = Some (k, p') →
                 singleflight.owns p' = None) →
       ∃ s', singleflight.step samples.flight_end t singleflight.Enter = Some s'
             ∧ singleflight.threads s' !! t
               = Some (k, singleflight.Running
                            (length (singleflight.heap samples.flight_end)))
             ∧ singleflight.execs s'
               = singleflight.execs samples.flight_end
                 ++ [(t, k, length (singleflight.heap samples.flight_end))]).
Proof.
  assert (singleflight.exec (singleflight.init samples.callers) samples.flight_sched
          = Some samples.flight_end) as Hexec by (vm_compute; reflexivity).
  split; [exact Hexec|].
  exact (singleflight_map_in_flight samples.callers samples.flight_sched
           samples.flight_end Hexec).
Defined.
